(** * SpreaderDetectorBackend: a shallow embedding and its verification

    The development follows [SpreaderDetectorBackend.c] and
    [SpreaderDetectorParams.h].  The layout is the one of the program:

    - machine numbers: [unsigned long] and [int] as [Z] with the wrap-around
      written out, [float] as IEEE 754 binary32 through the Standard
      Library's [SpecFloat] (precision 24, maximal exponent 128), [double]
      as binary64;
    - the C library functions the program calls ([strtok], [strtol],
      [strtof], the [%lu] conversion of [fprintf]);
    - the [Person] record and the two comparators;
    - the ordering engine ([merge], [mergeSort]) over arrays with explicit
      indices, the arrays being lists read with [!!] and written with
      [<[ _ := _ ]>];
    - the lookup engine ([binarySearchById]);
    - the propagation engine ([crna], [probUpdater], [readMeetingsFile]);
    - the reporter ([writeOutput]);
    - ingestion ([fillPerson], [allocateMore], [readPeopleFile]), on the
      sequence of the records read and on the array with its capacity;
    - the program ([argcCheck], [beforeExitFailure], [main]), with its
      arguments, the files [fopen] finds and the allocator as its
      environment;
    - the program once more, on the array with the cells allocated after
      the records, with the text it writes to [stderr], the file it writes
      and the results of [fclose] ([probUpdater_array],
      [readMeetingsFile_io], [writeOutput_io], [main_io], ...): what
      [main] does on the sequence of the records when every [fclose]
      succeeds, the program does on the array.

    Conventions.  Reading or writing an array outside its bounds, and passing
    a null pointer to a library function, are undefined in C: the embedding
    returns [None] (or [Undefined]) there.  The target is an LP64 platform
    ([unsigned long] of 64 bits, [int] of 32 bits) on which [float]
    expressions are evaluated in binary32 ([FLT_EVAL_METHOD = 0]) and an
    out-of-range value converted to [int] is reduced modulo [2^32].  The
    [int] lengths and indices of the arrays are taken within the range of
    [int] (fewer than [2^31] records), so that their arithmetic is exact;
    a length is a [nat], an index that can become [-1] is a [Z]. *)

From Stdlib Require Import ZArith QArith Qabs Qpower Lia Lqa String Ascii List Bool.
From Stdlib Require Import Floats.SpecFloat.
From Stdlib Require Import DecimalString DecimalPos DecimalN.
From Stdlib Require Import Sorting.Sorted Sorting.Permutation.
From Equations Require Import Equations.
From stdpp Require Import list sorting.

Local Open Scope Z_scope.

(** ** Machine integers *)

Module MachInt.

Definition ULONG_MODULUS : Z := 2 ^ 64.
Definition LONG_MAX : Z := 2 ^ 63 - 1.
Definition LONG_MIN : Z := - 2 ^ 63.
Definition INT_MODULUS : Z := 2 ^ 32.
Definition INT_MAX : Z := 2 ^ 31 - 1.

(** Conversion to [unsigned long]: reduction modulo [2^64]. *)
Definition to_ulong (z : Z) : Z := z mod ULONG_MODULUS.

(** Conversion to [int]: reduction modulo [2^32] into
    [-2^31 .. 2^31 - 1]. *)
Definition to_int (z : Z) : Z :=
  let r := z mod INT_MODULUS in
  if r <=? INT_MAX then r else r - INT_MODULUS.

(** The values an [unsigned long] can hold. *)
Definition is_ulong (z : Z) : Prop := 0 <= z < ULONG_MODULUS.

End MachInt.
Export MachInt.

(** ** Floating point: binary32 and binary64 *)

Module F32.

Definition prec : Z := 24.
Definition emax : Z := 128.

Definition float : Type := spec_float.

Definition valid (x : float) : bool := valid_binary prec emax x.

Definition mul : float -> float -> float := SFmul prec emax.
Definition div : float -> float -> float := SFdiv prec emax.
Definition sub : float -> float -> float := SFsub prec emax.

(** [fabsf] *)
Definition fabsf : float -> float := SFabs.

(** The comparisons [>=] and [>] of C on two [float]s; both are false
    when an operand is a NaN. *)
Definition ge (x y : float) : bool :=
  match SFcompare x y with
  | Some (Gt | Eq) => true
  | _ => false
  end.

Definition gt (x y : float) : bool :=
  match SFcompare x y with
  | Some Gt => true
  | _ => false
  end.

(** An integer constant converted to [float]. *)
Definition of_Z (z : Z) : float := binary_normalize prec emax z 0 false.

(** A decimal constant [n / d] rounded to the nearest [float]. *)
Definition of_ratio (n d : Z) : float := div (of_Z n) (of_Z d).

Definition zero : float := S754_zero false.
Definition one : float := Eval vm_compute in of_Z 1.

End F32.

Module F64.

Definition prec : Z := 53.
Definition emax : Z := 1024.

Definition double : Type := spec_float.

(** The implicit conversion of a [float] operand to [double]; every
    binary32 number is a binary64 number, so no rounding takes place. *)
Definition of_float (x : F32.float) : double :=
  match x with
  | S754_finite s m e => binary_round prec emax s m e
  | _ => x
  end.

Definition lt (x y : double) : bool := SFltb x y.

Definition of_ratio (n d : Z) : double :=
  SFdiv prec emax (binary_normalize prec emax n 0 false)
                  (binary_normalize prec emax d 0 false).

End F64.

(** ** Constants of [SpreaderDetectorParams.h] and of the program *)

(** [#define MIN_DISTANCE 1.0f] *)
Definition MIN_DISTANCE : F32.float := Eval vm_compute in F32.of_Z 1.
(** [#define MAX_TIME 30.0f] *)
Definition MAX_TIME : F32.float := Eval vm_compute in F32.of_Z 30.
(** [#define REGULAR_QUARANTINE_THRESHOLD 0.1f] *)
Definition REGULAR_QUARANTINE_THRESHOLD : F32.float :=
  Eval vm_compute in F32.of_ratio 1 10.
(** [#define MEDICAL_SUPERVISION_THRESHOLD 0.3f] *)
Definition MEDICAL_SUPERVISION_THRESHOLD : F32.float :=
  Eval vm_compute in F32.of_ratio 3 10.
(** [#define EPSILON 0.000000001], a [double] constant *)
Definition EPSILON : F64.double := Eval vm_compute in F64.of_ratio 1 1000000000.

Definition EQUAL : Z := 0.
Definition GREATER : Z := 1.
Definition SMALLER : Z := -1.
Definition ALLOC_SIZE : Z := 2.
Definition MAX_LINE_LENGTH : Z := 1024.

Definition REGULAR_QUARANTINE_MSG_PREFIX : string := "14-days-Quarantine Required: ".
Definition MEDICAL_SUPERVISION_THRESHOLD_MSG_PREFIX : string := "Hospitalization Required: ".
Definition CLEAN_MSG_PREFIX : string := "No serious chance for infection: ".

(** ** The C library, as far as the program uses it *)

Module Libc.

Definition newline : ascii := ascii_of_nat 10.

(** [isspace] in the C locale: space, [\t], [\n], [\v], [\f], [\r]. *)
Definition isspace (c : ascii) : bool :=
  let n := nat_of_ascii c in
  Nat.eqb n 32 || (Nat.leb 9 n && Nat.leb n 13).

Definition isdigit (c : ascii) : bool :=
  let n := nat_of_ascii c in Nat.leb 48 n && Nat.leb n 57.

Definition digit_value (c : ascii) : Z := Z.of_nat (nat_of_ascii c) - 48.

(** Value of a hexadecimal digit, if the character is one. *)
Definition xdigit_value (c : ascii) : option Z :=
  let n := nat_of_ascii c in
  if Nat.leb 48 n && Nat.leb n 57 then Some (Z.of_nat n - 48)
  else if Nat.leb 65 n && Nat.leb n 70 then Some (Z.of_nat n - 55)
  else if Nat.leb 97 n && Nat.leb n 102 then Some (Z.of_nat n - 87)
  else None.

Definition tolower (c : ascii) : ascii :=
  let n := nat_of_ascii c in
  if Nat.leb 65 n && Nat.leb n 90 then ascii_of_nat (n + 32) else c.

Fixpoint skip_space (s : string) : string :=
  match s with
  | String c s' => if isspace c then skip_space s' else s
  | EmptyString => EmptyString
  end.

(** An optional sign: [true] for [-]. *)
Definition read_sign (s : string) : bool * string :=
  match s with
  | String "-"%char s' => (true, s')
  | String "+"%char s' => (false, s')
  | _ => (false, s)
  end.

(** The longest prefix of decimal digits: its value, its length, the rest. *)
Fixpoint read_digits (acc : Z) (n : Z) (s : string) : Z * Z * string :=
  match s with
  | String c s' =>
      if isdigit c then read_digits (10 * acc + digit_value c) (n + 1) s'
      else (acc, n, s)
  | EmptyString => (acc, n, s)
  end.

Fixpoint read_xdigits (acc : Z) (n : Z) (s : string) : Z * Z * string :=
  match s with
  | String c s' =>
      match xdigit_value c with
      | Some v => read_xdigits (16 * acc + v) (n + 1) s'
      | None => (acc, n, s)
      end
  | EmptyString => (acc, n, s)
  end.

(** *** [strtok] with the separator set [SEPARATOR = " "]

    [strtok] keeps the position after the last token in a static
    variable; the embedding passes it explicitly as [saved].  The result
    is the token ([None] for the null pointer) and the new saved
    position. *)

Definition is_separator (c : ascii) : bool := Ascii.eqb c " "%char.

Fixpoint skip_separators (s : string) : string :=
  match s with
  | String c s' => if is_separator c then skip_separators s' else s
  | EmptyString => EmptyString
  end.

Fixpoint span_token (s : string) : string * string :=
  match s with
  | EmptyString => (EmptyString, EmptyString)
  | String c s' =>
      if is_separator c then (EmptyString, s')
      else let '(t, r) := span_token s' in (String c t, r)
  end.

Definition strtok (str : option string) (saved : string) : option string * string :=
  let s := skip_separators (match str with Some s => s | None => saved end) in
  match s with
  | EmptyString => (None, EmptyString)
  | String _ _ => let '(t, r) := span_token s in (Some t, r)
  end.

(** *** [strtol (nptr, NULL, 10)]

    White space is skipped, an optional sign and the longest run of
    decimal digits are read; without a digit the result is 0; a value
    outside [long] is clamped.  A null [nptr] is undefined: [None]. *)

Definition clamp_long (z : Z) : Z := Z.max LONG_MIN (Z.min LONG_MAX z).

Definition strtol_string (s : string) : Z :=
  let '(neg, s1) := read_sign (skip_space s) in
  let '(v, _, _) := read_digits 0 0 s1 in
  clamp_long (if neg then - v else v).

Definition strtol (nptr : option string) : option Z := strtol_string <$> nptr.

(** *** [strtof (nptr, NULL)]

    White space is skipped and an optional sign is read; then the
    longest of: a decimal number with an optional exponent, a
    hexadecimal number with an optional binary exponent, [inf] or
    [infinity], [nan], in any letter case.  The value is rounded to the
    nearest binary32 number (ties to even), an overflow giving an
    infinity.  Without a conversion the result is 0. *)

Fixpoint has_prefix_ci (p s : string) : bool :=
  match p, s with
  | EmptyString, _ => true
  | String a p', String b s' => Ascii.eqb a (tolower b) && has_prefix_ci p' s'
  | String _ _, EmptyString => false
  end.

(** An exponent part after the letter [e] or [p], if well formed. *)
Definition read_exponent (s : string) : Z :=
  let '(neg, s1) := read_sign s in
  let '(v, n, _) := read_digits 0 0 s1 in
  if n =? 0 then 0 else if neg then - v else v.

Definition read_exponent_after (letter : ascii) (s : string) : Z :=
  match s with
  | String c s' => if Ascii.eqb (tolower c) letter then read_exponent s' else 0
  | EmptyString => 0
  end.

(** [m * 10 ^ e] rounded to binary32, with sign [neg]. *)
Definition round_decimal (neg : bool) (m e : Z) : F32.float :=
  if m =? 0 then S754_zero neg
  else if 0 <=? e then
    binary_normalize F32.prec F32.emax (cond_Zopp neg (m * 10 ^ e)) 0 neg
  else
    let '(q, e', l) := SFdiv_core_binary F32.prec F32.emax m 0 (10 ^ (- e)) 0 in
    binary_round_aux F32.prec F32.emax neg q e' l.

Definition strtof_decimal (neg : bool) (s : string) : F32.float :=
  let '(ip, n1, s1) := read_digits 0 0 s in
  let '(m, n2, s2) :=
    match s1 with
    | String "."%char s1' => read_digits ip 0 s1'
    | _ => (ip, 0, s1)
    end in
  if n1 + n2 =? 0 then F32.zero
  else round_decimal neg m (read_exponent_after "e"%char s2 - n2).

Definition strtof_hex (neg : bool) (s : string) : option F32.float :=
  let '(ip, n1, s1) := read_xdigits 0 0 s in
  let '(m, n2, s2) :=
    match s1 with
    | String "."%char s1' => read_xdigits ip 0 s1'
    | _ => (ip, 0, s1)
    end in
  if n1 + n2 =? 0 then None
  else Some (binary_normalize F32.prec F32.emax (cond_Zopp neg m)
               (read_exponent_after "p"%char s2 - 4 * n2) neg).

Definition strtof_string (s : string) : F32.float :=
  let '(neg, s1) := read_sign (skip_space s) in
  if has_prefix_ci "inf" s1 then S754_infinity neg
  else if has_prefix_ci "nan" s1 then S754_nan
  else if has_prefix_ci "0x" s1 then
    match strtof_hex neg (string_of_list_ascii (skipn 2 (list_ascii_of_string s1))) with
    | Some x => x
    | None => S754_zero neg
    end
  else strtof_decimal neg s1.

Definition strtof (nptr : option string) : option F32.float := strtof_string <$> nptr.

(** *** The [%lu] conversion of [fprintf] *)
Definition print_lu (z : Z) : string := NilZero.string_of_uint (N.to_uint (Z.to_N z)).

End Libc.

Definition STANDARD_LIB_ERR_MSG : string :=
  String.append "Standard library error." (String Libc.newline EmptyString).

(** ** The data model *)

(** [typedef struct Person]: the name is the owned string the [char *]
    points to. *)
Record Person : Type := {
  name : string;
  id : Z;                      (* unsigned long int *)
  age : F32.float;
  probability : F32.float
}.

Definition set_probability (p : Person) (x : F32.float) : Person :=
  {| name := name p; id := id p; age := age p; probability := x |}.

(** The type [compFunc] of pointers to a function from two [Person]s to [int]. *)
Definition compFunc : Type := Person -> Person -> Z.

(** Arrays.  [load] is [arr[i]] read, [store] is [arr[i] = x]; both are
    undefined outside the array. *)
Definition load {A} (arr : list A) (i : nat) : option A := arr !! i.

Definition store {A} (arr : list A) (i : nat) (x : A) : option (list A) :=
  if decide (i < length arr)%nat then Some (<[i := x]> arr) else None.

(** [for (int i = lo; i < hi; i++) body], the body acting on a state and
    possibly undefined. *)
Fixpoint for_count {St} (n : nat) (i : nat) (body : nat -> St -> option St) (s : St)
  : option St :=
  match n with
  | O => Some s
  | S n' =>
      match body i s with
      | Some s' => for_count n' (S i) body s'
      | None => None
      end
  end.

Definition for_range {St} (lo hi : nat) (body : nat -> St -> option St) (s : St)
  : option St :=
  for_count (hi - lo) lo body s.

(** ** Comparators *)

Definition idCompare (a b : Person) : Z :=
  let id1 := id a in
  let id2 := id b in
  to_int (to_ulong (id1 - id2)).

Definition probCompare (a b : Person) : Z :=
  let id1 := probability a in
  let id2 := probability b in
  if F64.lt (F64.of_float (F32.fabsf (F32.sub id1 id2))) EPSILON then EQUAL
  else if F32.gt id1 id2 then GREATER
  else SMALLER.

(** ** Ordering engine *)

(** The [while (aI < aLen && bI < bLen)] loop of [merge]; the result is the
    array and the two indices when the loop is left.  [a] and [b] are the
    arrays the two pointers of [merge] point to. *)
Equations? merge_while (comp : compFunc) (a b : list Person) (aLen bLen start : nat)
    (peopleList : list Person) (aI bI : nat) : option (list Person * nat * nat)
    by wf ((aLen - aI) + (bLen - bI))%nat lt :=
  merge_while comp a b aLen bLen start peopleList aI bI
    with (lt_dec aI aLen, lt_dec bI bLen) := {
    | (left _, left _) with (load a aI, load b bI) := {
        | (Some x, Some y) with Z_lt_dec (comp x y) 0 := {
            | left _ with store peopleList (start + aI + bI) x := {
                | Some pl' := merge_while comp a b aLen bLen start pl' (S aI) bI
                | None := None }
            | right _ with store peopleList (start + aI + bI) y := {
                | Some pl' := merge_while comp a b aLen bLen start pl' aI (S bI)
                | None := None } }
        | _ := None }
    | _ := Some (peopleList, aI, bI) }.
Proof. all: lia. Qed.

Definition merge (peopleList a : list Person) (aLen : nat) (b : list Person)
    (bLen start : nat) (comp : compFunc) : option (list Person) :=
  match merge_while comp a b aLen bLen start peopleList 0 0 with
  | None => None
  | Some (pl, aI, bI) =>
      if decide (aI < aLen)%nat then
        for_range aI aLen
          (fun i pl => match load a i with
                       | Some x => store pl (start + i + bI) x
                       | None => None
                       end) pl
      else
        for_range bI bLen
          (fun j pl => match load b j with
                       | Some x => store pl (start + aI + j) x
                       | None => None
                       end) pl
  end.

(** The two lengths [mergeSort] computes: [aLen = length / 2] and
    [bLen = length - aLen], the latter reset to 0 when [aLen == 0]. *)
Definition split_aLen (length : nat) : nat := (length / 2)%nat.

Definition split_bLen (length : nat) : nat :=
  let aLen := split_aLen length in
  let bLen := (length - aLen)%nat in
  if decide (aLen = 0)%nat then 0%nat else bLen.

(** [mergeSort].  The pointer [draftList] is the buffer [draft] together
    with the offset [d] of the pointer in it, so that [&draftList[aLen]] is
    the offset [d + aLen] in the same buffer.  The result is the pair of
    arrays after the call. *)
Equations? mergeSort (peopleList draft : list Person) (d length start : nat)
    (comp : compFunc) : option (list Person * list Person) by wf length lt :=
  mergeSort peopleList draft d O start comp := Some (peopleList, draft);
  mergeSort peopleList draft d (S n) start comp
    with mergeSort peopleList draft d (split_aLen (S n)) start comp := {
    | None := None
    | Some (pl1, draft1)
        with mergeSort pl1 draft1 (d + split_aLen (S n)) (split_bLen (S n))
               (split_aLen (S n) + start) comp := {
        | None := None
        | Some (pl2, draft2)
            with for_range 0 (S n)
                   (fun i dr => match load pl2 (i + start) with
                                | Some x => store dr (d + i) x
                                | None => None
                                end) draft2 := {
            | None := None
            | Some draft3
                with merge pl2 (drop d draft3) (split_aLen (S n))
                       (drop (d + split_aLen (S n)) draft3) (split_bLen (S n))
                       start comp := {
                | None := None
                | Some pl3 := Some (pl3, draft3) } } } }.
Proof.
  - unfold split_aLen. apply Nat.div_lt; lia.
  - unfold split_bLen, split_aLen. destruct (decide _); [lia|].
    assert (0 < S n / 2)%nat by lia. lia.
Qed.

(** The zeroed [Person] that [calloc] yields (the null name as the empty
    string). *)
Definition zero_Person : Person :=
  {| name := EmptyString; id := 0; age := F32.zero; probability := F32.zero |}.

Definition calloc_Person (n : nat) : list Person := replicate n zero_Person.

(** [sortById] and [sortByProbability], when the draft array is allocated;
    the result is the sorted array ([None] when the sort is undefined). *)
Definition sortById (peopleList : list Person) : option (list Person) :=
  let peopleListSize := List.length peopleList in
  fst <$> mergeSort peopleList (calloc_Person peopleListSize) 0 peopleListSize 0 idCompare.

Definition sortByProbability (peopleList : list Person) : option (list Person) :=
  let peopleListSize := List.length peopleList in
  fst <$> mergeSort peopleList (calloc_Person peopleListSize) 0 peopleListSize 0 probCompare.

(** ** Lookup engine *)

(** [peopleList[i]] for an [int] index. *)
Definition load_at (peopleList : list Person) (i : Z) : option Person :=
  if 0 <=? i then load peopleList (Z.to_nat i) else None.

(** [binarySearchById].  The recursion of the C function need not
    terminate (an absent identifier); [fuel] bounds its depth, and [None]
    stands for a search that runs out of it or reads outside the array.
    The division of C truncates towards zero: [Z.quot]. *)
Fixpoint binarySearchById (fuel : nat) (peopleList : list Person) (idToFind : Z)
    (start end_ : Z) : option Z :=
  match fuel with
  | O => None
  | S fuel' =>
      let mid := start + Z.quot (end_ - start) 2 in
      match load_at peopleList mid with
      | None => None
      | Some p =>
          if id p =? idToFind then Some mid
          else if id p >? idToFind then
            binarySearchById fuel' peopleList idToFind start (mid - 1)
          else
            binarySearchById fuel' peopleList idToFind (mid + 1) end_
      end
  end.

(** ** Propagation engine *)

Definition crna (dist time : F32.float) : F32.float :=
  let numerator := F32.mul time MIN_DISTANCE in
  let denominator := F32.mul dist MAX_TIME in
  F32.div numerator denominator.

(** [probUpdater]: the array after the update. *)
Definition probUpdater (fuel : nat) (peopleList : list Person) (line : string)
  : option (list Person) :=
  let peopleListSize := Z.of_nat (List.length peopleList) in
  let '(tok1, saved1) := Libc.strtok (Some line) EmptyString in
  infectorId ← to_ulong <$> Libc.strtol tok1;
  let '(tok2, saved2) := Libc.strtok None saved1 in
  infectedId ← to_ulong <$> Libc.strtol tok2;
  infectorIdx ← binarySearchById fuel peopleList infectorId 0 (peopleListSize - 1);
  infectedIdx ← binarySearchById fuel peopleList infectedId 0 (peopleListSize - 1);
  let '(tok3, saved3) := Libc.strtok None saved2 in
  distance ← Libc.strtof tok3;
  let '(tok4, _) := Libc.strtok None saved3 in
  time ← Libc.strtof tok4;
  let prob := crna distance time in
  infector ← load_at peopleList infectorIdx;
  infected ← load_at peopleList infectedIdx;
  store peopleList (Z.to_nat infectedIdx)
    (set_probability infected (F32.mul (probability infector) prob)).

(** The [while (fgets (...)) probUpdater (...)] loop over the remaining
    lines of the meetings file. *)
Fixpoint readMeetingsFile_loop (fuel : nat) (lines : list string)
    (peopleList : list Person) : option (list Person) :=
  match lines with
  | [] => Some peopleList
  | line :: rest =>
      match probUpdater fuel peopleList line with
      | Some pl => readMeetingsFile_loop fuel rest pl
      | None => None
      end
  end.

(** [readMeetingsFile].  The file is the list of the lines [fgets] yields,
    each with its newline; [fclose] is taken to succeed.  The array is the
    sequence of the filled records: the search of an identifier that no
    record holds is undefined here, while the program can find it in a
    cell allocated after the records.  [readMeetingsFile_io] below is the
    function on the whole array, with the result of [fclose]. *)
Definition readMeetingsFile (fuel : nat) (meetingsFile : list string)
    (peopleList : list Person) : option (list Person) :=
  let peopleListSize := Z.of_nat (List.length peopleList) in
  match meetingsFile with
  | [] => Some peopleList
  | line :: rest =>
      sickId ← to_ulong <$> Libc.strtol (Some line);
      sickPersonIndex ← binarySearchById fuel peopleList sickId 0 (peopleListSize - 1);
      sick ← load_at peopleList sickPersonIndex;
      pl ← store peopleList (Z.to_nat sickPersonIndex) (set_probability sick (F32.of_Z 1));
      readMeetingsFile_loop fuel rest pl
  end.

(** ** Classifier and reporter *)

(** The three message templates, applied to the name ([%s]) and the
    identifier ([%lu]). *)
Definition render (prefix name : string) (id : Z) : string :=
  String.append prefix
    (String.append name
       (String.append " "
          (String.append (Libc.print_lu id) (String "."%char (String Libc.newline EmptyString))))).

Definition REGULAR_QUARANTINE_MSG : string -> Z -> string :=
  render REGULAR_QUARANTINE_MSG_PREFIX.
Definition MEDICAL_SUPERVISION_THRESHOLD_MSG : string -> Z -> string :=
  render MEDICAL_SUPERVISION_THRESHOLD_MSG_PREFIX.
Definition CLEAN_MSG : string -> Z -> string :=
  render CLEAN_MSG_PREFIX.

(** The body of the loop of [writeOutput]: the text one [fprintf] writes. *)
Definition writeOutput_body (p : Person) : string :=
  if F32.ge (probability p) MEDICAL_SUPERVISION_THRESHOLD
     || F64.lt (F64.of_float (F32.fabsf (F32.sub (probability p) MEDICAL_SUPERVISION_THRESHOLD)))
               EPSILON
  then MEDICAL_SUPERVISION_THRESHOLD_MSG (name p) (id p)
  else if F32.ge (probability p) REGULAR_QUARANTINE_THRESHOLD
          || F64.lt (F64.of_float (F32.fabsf (F32.sub (probability p) REGULAR_QUARANTINE_THRESHOLD)))
                    EPSILON
  then REGULAR_QUARANTINE_MSG (name p) (id p)
  else CLEAN_MSG (name p) (id p).

(** [for (int i = k - 1; i >= 0; --i)]: the texts written, in order. *)
Fixpoint writeOutput_loop (peopleList : list Person) (k : nat) : option (list string) :=
  match k with
  | O => Some []
  | S i =>
      match load peopleList i with
      | None => None
      | Some p =>
          match writeOutput_loop peopleList i with
          | None => None
          | Some out => Some (writeOutput_body p :: out)
          end
      end
  end.

(** [writeOutput]; [fclose] is taken to succeed. *)
Definition writeOutput (peopleList : list Person) : option (list string) :=
  writeOutput_loop peopleList (List.length peopleList).

(** ** Ingestion *)

(** How a call ends: it returns, it leaves the program through
    [beforeExitFailure] and [exit (EXIT_FAILURE)] with the text written to
    [stderr], or its behaviour is undefined. *)
Inductive outcome (A : Type) : Type :=
| Returns (a : A)
| Exits (stderr : string)
| Undefined.
Arguments Returns {A} a.
Arguments Exits {A} stderr.
Arguments Undefined {A}.

(** What [fillPerson] returns, with the [Person] it has filled. *)
Inductive fill_status : Type :=
| FAILURE
| SUCCESS (person : Person).

(** The allocator: the outcomes of the next requests, in order ([true]: the
    request is served); past the end of the list every request is served. *)
Definition heap : Type := list bool.

Definition allocate (h : heap) : bool * heap :=
  match h with
  | [] => (true, [])
  | ok :: h' => (ok, h')
  end.

(** [fillPerson]; [None] when a null token reaches [strlen], [strtol] or
    [strtof]. *)
Definition fillPerson (h : heap) (line : string) : option (fill_status * heap) :=
  let '(temp, saved1) := Libc.strtok (Some line) EmptyString in
  match temp with
  | None => None
  | Some temp =>
      let '(ok, h) := allocate h in
      if negb ok then Some (FAILURE, h)
      else
        let '(tok2, saved2) := Libc.strtok None saved1 in
        match Libc.strtol tok2 with
        | None => None
        | Some v =>
            let '(tok3, _) := Libc.strtok None saved2 in
            match Libc.strtof tok3 with
            | None => None
            | Some a =>
                Some (SUCCESS {| name := temp; id := to_ulong v; age := a;
                                 probability := F32.of_Z 0 |}, h)
            end
        end
  end.

(** [allocateMore]: [realloc] keeps the records. *)
Definition allocateMore (h : heap) (peopleList : list Person) : outcome (list Person * heap) :=
  let '(ok, h) := allocate h in
  if ok then Returns (peopleList, h) else Exits STANDARD_LIB_ERR_MSG.

(** The [while (fgets (...))] loop of [readPeopleFile]; [peopleList] holds
    the [personsCounter] records stored so far. *)
Fixpoint readPeopleFile_loop (lines : list string) (h : heap)
    (peopleList : list Person) (capacity : Z) : outcome (list Person) :=
  match lines with
  | [] => Returns peopleList
  | line :: rest =>
      match fillPerson h line with
      | None => Undefined
      | Some (FAILURE, _) => Exits STANDARD_LIB_ERR_MSG
      | Some (SUCCESS person, h) =>
          let peopleList := peopleList ++ [person] in
          let personsCounter := Z.of_nat (List.length peopleList) in
          if personsCounter =? capacity then
            let capacity := capacity * ALLOC_SIZE in
            match allocateMore h peopleList with
            | Returns (peopleList, h) => readPeopleFile_loop rest h peopleList capacity
            | Exits e => Exits e
            | Undefined => Undefined
            end
          else readPeopleFile_loop rest h peopleList capacity
      end
  end.

(** [readPeopleFile]: the records read, [personsCounter] being their
    number; [fclose] is taken to succeed. *)
Definition readPeopleFile (h : heap) (peopleFile : list string) : outcome (list Person) :=
  let capacity := ALLOC_SIZE in
  let '(ok, h) := allocate h in
  if negb ok then Exits STANDARD_LIB_ERR_MSG
  else readPeopleFile_loop peopleFile h [] capacity.

(** ** The program: [main] after its files are opened *)
Definition run (fuel : nat) (peopleFile meetingsFile : list string) : option (list string) :=
  match readPeopleFile [] peopleFile with
  | Returns peopleList =>
      pl1 ← sortById peopleList;
      pl2 ← readMeetingsFile fuel meetingsFile pl1;
      pl3 ← sortByProbability pl2;
      writeOutput pl3
  | _ => None
  end.

(** ** Ingestion, on the array with its capacity *)

(** The cells [realloc] adds to an array it extends to [capacity] cells:
    they hold whatever the memory holds, [junk i] for the cell [i]. *)
Definition realloc_Person (arr : list Person) (capacity : nat) (junk : nat -> Person)
  : list Person :=
  take capacity arr ++ (junk <$> seq (List.length arr) (capacity - List.length arr)).

(** The loop of [readPeopleFile] on the array itself: [arr] is the memory
    [*peopleList] points to, [capacity] cells of which the first
    [personsCounter] are filled. *)
Fixpoint readPeopleFile_array_loop (junk : nat -> Person) (lines : list string) (h : heap)
    (arr : list Person) (personsCounter : nat) (capacity : Z)
  : outcome (list Person * nat) :=
  match lines with
  | [] => Returns (arr, personsCounter)
  | line :: rest =>
      match fillPerson h line with
      | None => Undefined
      | Some (FAILURE, _) => Exits STANDARD_LIB_ERR_MSG
      | Some (SUCCESS person, h) =>
          match store arr personsCounter person with
          | None => Undefined
          | Some arr =>
              let personsCounter := S personsCounter in
              if Z.of_nat personsCounter =? capacity then
                let capacity := capacity * ALLOC_SIZE in
                match allocateMore h arr with
                | Returns (arr, h) =>
                    readPeopleFile_array_loop junk rest h
                      (realloc_Person arr (Z.to_nat capacity) junk) personsCounter capacity
                | Exits e => Exits e
                | Undefined => Undefined
                end
              else readPeopleFile_array_loop junk rest h arr personsCounter capacity
          end
      end
  end.

(** [readPeopleFile] on the array: the array and [personsCounter]. *)
Definition readPeopleFile_array (junk : nat -> Person) (h : heap) (peopleFile : list string)
  : outcome (list Person * nat) :=
  let capacity := ALLOC_SIZE in
  let '(ok, h) := allocate h in
  if negb ok then Exits STANDARD_LIB_ERR_MSG
  else readPeopleFile_array_loop junk peopleFile h (calloc_Person (Z.to_nat capacity)) 0 capacity.

(** The records of an array of which [personsCounter] cells are filled. *)
Definition filled {A} (r : outcome (list A * nat)) : outcome (list A) :=
  match r with
  | Returns (arr, personsCounter) => Returns (take personsCounter arr)
  | Exits e => Exits e
  | Undefined => Undefined
  end.

(** ** The program: [main] with its arguments and its files *)

Definition ARGS_AMOUNT : Z := 3.
Definition PEOPLE_FILE_INDEX : nat := 1.
Definition MEETINGS_FILE_INDEX : nat := 2.
Definition EXIT_SUCCESS : Z := 0.
Definition EXIT_FAILURE : Z := 1.

Definition USAGE_ERROR : string :=
  String.append "USAGE: ./SpreaderDetectorBackend <Path to People.in> <Path to Meetings.in>"
    (String Libc.newline EmptyString).
Definition IN_FILE_ERROR : string :=
  String.append "Error in input files." (String Libc.newline EmptyString).
Definition OUT_FILE_ERROR : string :=
  String.append "Error in output file." (String Libc.newline EmptyString).
Definition OUTPUT_FILE : string := "SpreaderDetectorAnalysis.out".

(** [argcCheck]: the value returned ([1] for success, [0] for failure) and
    the text written to [stderr]. *)
Definition argcCheck (argc : Z) : Z * string :=
  if negb (argc =? ARGS_AMOUNT) then (0, USAGE_ERROR) else (1, EmptyString).

(** [beforeExitFailure]: the text written to [stderr].  [fclose] is taken
    to succeed ([beforeExitFailure_io] below has the message written when
    it fails); the memory [freePeople] releases is not part of the
    model. *)
Definition beforeExitFailure (errorToPrint : string) : string := errorToPrint.

(** What the program finds around it: the files [fopen] can open for
    reading, with their lines; whether a file can be opened for writing;
    the outcomes of the allocation requests of [readPeopleFile], and of the
    [calloc] of [sortById] and of [sortByProbability]. *)
Record world : Type := {
  fopen_read : string -> option (list string);
  fopen_write : string -> bool;
  allocator : heap;
  draft_allocated : bool * bool
}.

(** How the program ends: the exit status, the text written to [stderr],
    and the file written with its texts, if any. *)
Record termination : Type := {
  exit_status : Z;
  stderr : string;
  written : option (string * list string)
}.

Definition failure (e : string) : option termination :=
  Some {| exit_status := EXIT_FAILURE; stderr := e; written := None |}.

(** [main]; [None] when the behaviour is undefined or a search does not
    end within [fuel] calls.  Every [fclose] is taken to succeed and the
    array is the sequence of the filled records; [main_io] below is the
    program without these two simplifications. *)
Definition main (fuel : nat) (w : world) (argv : list string) : option termination :=
  let argc := Z.of_nat (List.length argv) in
  let '(r, e) := argcCheck argc in
  if r =? 0 then failure e
  else
    people ← argv !! PEOPLE_FILE_INDEX;
    match fopen_read w people with
    | None => failure IN_FILE_ERROR
    | Some peopleFile =>
        match readPeopleFile (allocator w) peopleFile with
        | Undefined => None
        | Exits e => failure e
        | Returns peopleList =>
            if negb (fst (draft_allocated w))
            then failure (beforeExitFailure STANDARD_LIB_ERR_MSG)
            else
              peopleList ← sortById peopleList;
              meetings ← argv !! MEETINGS_FILE_INDEX;
              match fopen_read w meetings with
              | None => failure (beforeExitFailure IN_FILE_ERROR)
              | Some meetingsFile =>
                  peopleList ← readMeetingsFile fuel meetingsFile peopleList;
                  if negb (snd (draft_allocated w))
                  then failure (beforeExitFailure STANDARD_LIB_ERR_MSG)
                  else
                    peopleList ← sortByProbability peopleList;
                    if negb (fopen_write w OUTPUT_FILE)
                    then failure (beforeExitFailure OUT_FILE_ERROR)
                    else
                      out ← writeOutput peopleList;
                      Some {| exit_status := EXIT_SUCCESS; stderr := EmptyString;
                              written := Some (OUTPUT_FILE, out) |}
              end
        end
    end.

(** ** The program on the array, with what it writes and the files it closes *)

(** What a run has written so far: the text on [stderr], and the output
    file with its texts once [fopen] has created it. *)
Record effects : Type := {
  on_stderr : string;
  on_disk : option (string * list string)
}.

(** How a call ends: it returns a value, the program is left through
    [exit], or the behaviour is undefined (a recursion that does not end
    within the fuel counts as such). *)
Inductive result (A : Type) : Type :=
| Done (a : A) (s : effects)
| Exit (status : Z) (s : effects)
| Fault.
Arguments Done {A} a s.
Arguments Exit {A} status s.
Arguments Fault {A}.

Definition prog (A : Type) : Type := effects -> result A.

#[global] Instance prog_ret : MRet prog := fun A a s => Done a s.

#[global] Instance prog_bind : MBind prog := fun A B f m s =>
  match m s with
  | Done a s' => f a s'
  | Exit status s' => Exit status s'
  | Fault => Fault
  end.

(** A step that is undefined when it has no value. *)
Definition defined {A} (o : option A) : prog A :=
  fun s => match o with
           | Some a => Done a s
           | None => Fault
           end.

Definition exit {A} (status : Z) : prog A := fun s => Exit status s.

Definition fprintf_stderr (text : string) : prog unit :=
  fun s => Done tt {| on_stderr := String.append (on_stderr s) text; on_disk := on_disk s |}.

(** [fopen (path, "w")]: the file is created empty when it can be opened. *)
Definition fopen_w (w : world) (path : string) : prog bool :=
  fun s => if fopen_write w path
           then Done true {| on_stderr := on_stderr s; on_disk := Some (path, []) |}
           else Done false s.

(** [fprintf] to the output file. *)
Definition fprintf_file (text : string) : prog unit :=
  fun s => match on_disk s with
           | Some (path, texts) =>
               Done tt {| on_stderr := on_stderr s; on_disk := Some (path, texts ++ [text]) |}
           | None => Fault
           end.

(** The results of the three calls of [fclose], on the people file, the
    meetings file and the output file: [true] when the call returns [0],
    [false] when it returns [EOF]. *)
Record closing : Type := {
  people_closed : bool;
  meetings_closed : bool;
  output_closed : bool
}.

(** [beforeExitFailure].  [fileToClose] is [None] for [NULL], and
    otherwise the result of the [fclose] of the file; the memory
    [freePeople] releases is not part of the model. *)
Definition beforeExitFailure_io (fileToClose : option bool) (errorToPrint : string)
  : prog unit :=
  fprintf_stderr errorToPrint;;
  match fileToClose with
  | Some false => fprintf_stderr STANDARD_LIB_ERR_MSG
  | _ => mret tt
  end.

(** [argcCheck]: [0] is [FAILURE], [1] is [SUCCESS]. *)
Definition argcCheck_io (argc : Z) : prog Z :=
  if negb (argc =? ARGS_AMOUNT) then fprintf_stderr USAGE_ERROR;; mret 0
  else mret 1.

(** [readPeopleFile] with the array and [personsCounter].  Wherever the
    function leaves the program before the end of the file (a failed
    [calloc], [fillPerson] or [realloc]) it calls [beforeExitFailure] with
    the people file, which closes it; at the end of the file it closes the
    file itself. *)
Definition readPeopleFile_io (junk : nat -> Person) (h : heap) (closed : bool)
    (peopleFile : list string) : prog (list Person * nat) :=
  match readPeopleFile_array junk h peopleFile with
  | Returns (arr, personsCounter) =>
      if negb closed
      then beforeExitFailure_io None STANDARD_LIB_ERR_MSG;; exit EXIT_FAILURE
      else mret (arr, personsCounter)
  | Exits errorToPrint =>
      beforeExitFailure_io (Some closed) errorToPrint;; exit EXIT_FAILURE
  | Undefined => defined None
  end.

(** [sortById] and [sortByProbability] on the first [peopleListSize] cells
    of the array; [allocated] tells whether [calloc] serves the draft. *)
Definition sortById_io (allocated : bool) (arr : list Person) (peopleListSize : nat)
  : prog (list Person) :=
  if negb allocated
  then beforeExitFailure_io None STANDARD_LIB_ERR_MSG;; exit EXIT_FAILURE
  else defined (fst <$> mergeSort arr (calloc_Person peopleListSize) 0 peopleListSize 0
                           idCompare).

Definition sortByProbability_io (allocated : bool) (arr : list Person) (peopleListSize : nat)
  : prog (list Person) :=
  if negb allocated
  then beforeExitFailure_io None STANDARD_LIB_ERR_MSG;; exit EXIT_FAILURE
  else defined (fst <$> mergeSort arr (calloc_Person peopleListSize) 0 peopleListSize 0
                           probCompare).

(** [probUpdater] on the array [arr], whose first [peopleListSize] cells
    hold the records: the cells after them are allocated as well, and the
    search can read them. *)
Definition probUpdater_array (fuel : nat) (arr : list Person) (peopleListSize : Z)
    (line : string) : option (list Person) :=
  let '(tok1, saved1) := Libc.strtok (Some line) EmptyString in
  infectorId ← to_ulong <$> Libc.strtol tok1;
  let '(tok2, saved2) := Libc.strtok None saved1 in
  infectedId ← to_ulong <$> Libc.strtol tok2;
  infectorIdx ← binarySearchById fuel arr infectorId 0 (peopleListSize - 1);
  infectedIdx ← binarySearchById fuel arr infectedId 0 (peopleListSize - 1);
  let '(tok3, saved3) := Libc.strtok None saved2 in
  distance ← Libc.strtof tok3;
  let '(tok4, _) := Libc.strtok None saved3 in
  time ← Libc.strtof tok4;
  let prob := crna distance time in
  infector ← load_at arr infectorIdx;
  infected ← load_at arr infectedIdx;
  store arr (Z.to_nat infectedIdx)
    (set_probability infected (F32.mul (probability infector) prob)).

Fixpoint readMeetingsFile_array_loop (fuel : nat) (lines : list string)
    (arr : list Person) (peopleListSize : Z) : option (list Person) :=
  match lines with
  | [] => Some arr
  | line :: rest =>
      match probUpdater_array fuel arr peopleListSize line with
      | Some arr => readMeetingsFile_array_loop fuel rest arr peopleListSize
      | None => None
      end
  end.

(** [readMeetingsFile] on the array; [closed] is the result of the
    [fclose] of the meetings file. *)
Definition readMeetingsFile_io (fuel : nat) (closed : bool) (meetingsFile : list string)
    (arr : list Person) (peopleListSize : Z) : prog (list Person) :=
  match meetingsFile with
  | [] =>
      (if negb closed then fprintf_stderr STANDARD_LIB_ERR_MSG else mret tt);;
      mret arr
  | line :: rest =>
      sickId ← defined (to_ulong <$> Libc.strtol (Some line));
      sickPersonIndex ← defined (binarySearchById fuel arr sickId 0 (peopleListSize - 1));
      sick ← defined (load_at arr sickPersonIndex);
      arr ← defined (store arr (Z.to_nat sickPersonIndex) (set_probability sick (F32.of_Z 1)));
      arr ← defined (readMeetingsFile_array_loop fuel rest arr peopleListSize);
      if negb closed
      then beforeExitFailure_io None STANDARD_LIB_ERR_MSG;; exit EXIT_FAILURE
      else mret arr
  end.

(** [writeOutput] on the array; [closed] is the result of the [fclose] of
    the output file. *)
Fixpoint writeOutput_io_loop (arr : list Person) (k : nat) : prog unit :=
  match k with
  | O => mret tt
  | S i =>
      p ← defined (load arr i);
      fprintf_file (writeOutput_body p);;
      writeOutput_io_loop arr i
  end.

Definition writeOutput_io (closed : bool) (arr : list Person) (peopleListSize : nat)
  : prog unit :=
  writeOutput_io_loop arr peopleListSize;;
  if negb closed
  then beforeExitFailure_io None STANDARD_LIB_ERR_MSG;; exit EXIT_FAILURE
  else mret tt.

(** [main]: the value it returns. *)
Definition main_io (fuel : nat) (w : world) (junk : nat -> Person) (closed : closing)
    (argv : list string) : prog Z :=
  let argc := Z.of_nat (List.length argv) in
  r ← argcCheck_io argc;
  if r =? 0 then mret EXIT_FAILURE
  else
    people ← defined (argv !! PEOPLE_FILE_INDEX);
    match fopen_read w people with
    | None => fprintf_stderr IN_FILE_ERROR;; mret EXIT_FAILURE
    | Some peopleFile =>
        '(arr, peopleListSize) ← readPeopleFile_io junk (allocator w) (people_closed closed)
                                   peopleFile;
        arr ← sortById_io (fst (draft_allocated w)) arr peopleListSize;
        meetings ← defined (argv !! MEETINGS_FILE_INDEX);
        match fopen_read w meetings with
        | None => beforeExitFailure_io None IN_FILE_ERROR;; mret EXIT_FAILURE
        | Some meetingsFile =>
            arr ← readMeetingsFile_io fuel (meetings_closed closed) meetingsFile arr
                    (Z.of_nat peopleListSize);
            arr ← sortByProbability_io (snd (draft_allocated w)) arr peopleListSize;
            opened ← fopen_w w OUTPUT_FILE;
            if negb opened
            then beforeExitFailure_io None OUT_FILE_ERROR;; mret EXIT_FAILURE
            else writeOutput_io (output_closed closed) arr peopleListSize;;
                 mret EXIT_SUCCESS
        end
    end.

(** How the program ends when it is started with nothing written: through
    the [return] of [main] or through [exit]; [None] when its behaviour is
    undefined. *)
Definition main_array (fuel : nat) (w : world) (junk : nat -> Person) (closed : closing)
    (argv : list string) : option termination :=
  match main_io fuel w junk closed argv {| on_stderr := EmptyString; on_disk := None |} with
  | Done status s | Exit status s =>
      Some {| exit_status := status; stderr := on_stderr s; written := on_disk s |}
  | Fault => None
  end.

(** A step that writes [text] to [stderr] and nothing else. *)
Definition prints (s s' : effects) (text : string) : Prop :=
  on_stderr s' = String.append (on_stderr s) text /\ on_disk s' = on_disk s.

(** ** Definitions used by the statements *)

(** The order a comparator induces: [x] is not greater than [y]. *)
Definition not_greater (comp : compFunc) (x y : Person) : Prop := comp x y <= 0.

(** [x] is smaller than [y]. *)
Definition smaller (comp : compFunc) (x y : Person) : Prop := comp x y < 0.

(** [merge] and [mergeSort] seen on the sequences the array segments hold:
    [merge_list a b] is what [merge] leaves in [peopleList[start ..]] when
    [a] and [b] are the contents of its two sub-arrays. *)
Fixpoint merge_list (comp : compFunc) (a b : list Person) {struct a} : list Person :=
  let fix merge_aux (b : list Person) {struct b} : list Person :=
    match a, b with
    | [], _ => b
    | _, [] => a
    | x :: a', y :: b' =>
        if Z_lt_dec (comp x y) 0 then x :: merge_list comp a' b
        else y :: merge_aux b'
    end
  in merge_aux b.

Equations? msort (comp : compFunc) (l : list Person) : list Person
    by wf (List.length l) lt :=
  msort comp l with decide (split_aLen (List.length l) = 0)%nat := {
    | left _ := l
    | right _ :=
        merge_list comp (msort comp (take (split_aLen (List.length l)) l))
                        (msort comp (drop (split_aLen (List.length l)) l)) }.
Proof.
  - rewrite length_take. unfold split_aLen in *.
    assert (List.length l / 2 < List.length l)%nat as Hlt.
    { apply Nat.div_lt; [|lia]. destruct l; simpl in *; [congruence|lia]. }
    clear - Hlt. lia.
  - rewrite length_drop. unfold split_aLen in *.
    assert (0 < List.length l)%nat as Hpos.
    { destruct l; simpl in *; [congruence|lia]. }
    revert n Hpos. generalize (List.length l / 2)%nat. clear. intros; lia.
Qed.

(** What [merge] does after its [while] loop, as a function of the state
    in which the loop is left. *)
Definition merge_finish (a : list Person) (aLen : nat) (b : list Person) (bLen start : nat)
    (st : list Person * nat * nat) : option (list Person) :=
  let '(pl, aI, bI) := st in
  if decide (aI < aLen)%nat then
    for_range aI aLen
      (fun i pl => match load a i with
                   | Some x => store pl (start + i + bI) x
                   | None => None
                   end) pl
  else
    for_range bI bLen
      (fun j pl => match load b j with
                   | Some x => store pl (start + aI + j) x
                   | None => None
                   end) pl.

(** A comparator that, when it does not find [x] smaller than [y], does
    not find [y] greater than [x]. *)
Definition antisymmetric_comp (comp : compFunc) : Prop :=
  forall x y, 0 <= comp x y -> comp y x <= 0.

(** The array is in ascending order of the identifiers. *)
Definition sorted_by_id (peopleList : list Person) : Prop :=
  Sorted Z.le (id <$> peopleList).

(** A line of the meetings file as [probUpdater] reads it: the four tokens
    [strtok] yields, converted by [strtol] and [strtof]. *)
Record Meeting : Type := {
  infectorId : Z;
  infectedId : Z;
  distance : F32.float;
  durationSeconds : F32.float
}.

Definition parse_meeting (line : string) : option Meeting :=
  let '(tok1, saved1) := Libc.strtok (Some line) EmptyString in
  let '(tok2, saved2) := Libc.strtok None saved1 in
  let '(tok3, saved3) := Libc.strtok None saved2 in
  let '(tok4, _) := Libc.strtok None saved3 in
  a ← to_ulong <$> Libc.strtol tok1;
  b ← to_ulong <$> Libc.strtol tok2;
  d ← Libc.strtof tok3;
  t ← Libc.strtof tok4;
  Some {| infectorId := a; infectedId := b; distance := d; durationSeconds := t |}.

(** The update [probUpdater] makes for a meeting. *)
Definition update_probability (fuel : nat) (peopleList : list Person) (m : Meeting)
  : option (list Person) :=
  let peopleListSize := Z.of_nat (length peopleList) in
  infectorIdx ← binarySearchById fuel peopleList (infectorId m) 0 (peopleListSize - 1);
  infectedIdx ← binarySearchById fuel peopleList (infectedId m) 0 (peopleListSize - 1);
  infector ← load_at peopleList infectorIdx;
  infected ← load_at peopleList infectedIdx;
  store peopleList (Z.to_nat infectedIdx)
    (set_probability infected
       (F32.mul (probability infector) (crna (distance m) (durationSeconds m)))).

(** The identifier occurs in the array. *)
Definition has_id (peopleList : list Person) (i : Z) : bool :=
  existsb (fun p => id p =? i) peopleList.

(** The line has its four fields and both identifiers occur in the array. *)
Definition resolved (peopleList : list Person) (line : string) : bool :=
  match parse_meeting line with
  | Some m => has_id peopleList (infectorId m) && has_id peopleList (infectedId m)
  | None => false
  end.

(** The line does not name [i] as the infected person. *)
Definition infects_other (i : Z) (line : string) : bool :=
  match parse_meeting line with
  | Some m => negb (infectedId m =? i)
  | None => true
  end.

Definition is_finite (x : F32.float) : bool :=
  match x with
  | S754_zero _ | S754_finite _ _ _ => true
  | S754_infinity _ | S754_nan => false
  end.

Definition is_zero (x : F32.float) : bool :=
  match x with
  | S754_zero _ => true
  | _ => false
  end.

(** The three tokens [fillPerson] takes from a line. *)
Definition people_tokens (line : string) : option string * option string * option string :=
  let '(temp, saved1) := Libc.strtok (Some line) EmptyString in
  let '(tok2, saved2) := Libc.strtok None saved1 in
  let '(tok3, _) := Libc.strtok None saved2 in
  (temp, tok2, tok3).

(** The token begins, after blanks and a sign, with a decimal digit. *)
Definition begins_with_digit (tok : string) : bool :=
  match snd (Libc.read_sign (Libc.skip_space tok)) with
  | String c _ => Libc.isdigit c
  | EmptyString => false
  end.

(** The token begins with a decimal number: a digit, or a point and a
    digit. *)
Definition begins_with_decimal (tok : string) : bool :=
  match snd (Libc.read_sign (Libc.skip_space tok)) with
  | String "."%char (String c _) => Libc.isdigit c
  | String c _ => Libc.isdigit c
  | EmptyString => false
  end.

(** A line of the people file is malformed when a field is missing, the
    identifier does not begin with a digit or the age does not begin with
    a decimal number. *)
Definition malformed (line : string) : bool :=
  match people_tokens line with
  | (Some _, Some i, Some a) => negb (begins_with_digit i) || negb (begins_with_decimal a)
  | _ => true
  end.

(** The record [fillPerson] builds from the three tokens. *)
Definition person_of_tokens (temp tok2 tok3 : string) : Person :=
  {| name := temp; id := to_ulong (Libc.strtol_string tok2);
     age := Libc.strtof_string tok3; probability := F32.of_Z 0 |}.

Definition person_of_line (line : string) : option Person :=
  match people_tokens line with
  | (Some temp, Some tok2, Some tok3) => Some (person_of_tokens temp tok2 tok3)
  | _ => None
  end.

(** The value of a finite binary32 number, as a rational. *)
Definition to_Q (x : F32.float) : Q :=
  match x with
  | S754_finite s m e => inject_Z (cond_Zopp s (Zpos m)) * (2 # 1) ^ e
  | _ => 0
  end.

(** [0.000000001] *)
Definition epsilon_Q : Q := 1 # 1000000000.

(** The probability reaches the threshold: it is greater than or equal to
    it, or within [1e-9] of it. *)
Definition reaches (threshold : Q) (x : F32.float) : Prop :=
  match x with
  | S754_nan => False
  | S754_infinity s => s = false
  | _ => (threshold <= to_Q x)%Q \/ (Qabs (to_Q x - threshold) < epsilon_Q)%Q
  end.

(** The test [writeOutput] makes for a threshold. *)
Definition threshold_test (thr x : F32.float) : bool :=
  F32.ge x thr || F64.lt (F64.of_float (F32.fabsf (F32.sub x thr))) EPSILON.

(** The number [m * 2^(e + 149)] of units [2^-149] in a binary32 number. *)
Definition units (x : F32.float) : Z :=
  match x with
  | S754_finite s m e => cond_Zopp s (Zpos m) * 2 ^ (e + 149)
  | _ => 0
  end.

(** The fields of a record that [readMeetingsFile] does not write. *)
Definition without_probability (p : Person) : string * Z * F32.float :=
  (name p, id p, age p).

(** A field of a line: a string that is not empty and holds no separator. *)
Fixpoint unbroken (s : string) : bool :=
  match s with
  | EmptyString => true
  | String c s' => negb (Libc.is_separator c) && unbroken s'
  end.

Definition is_field (s : string) : bool :=
  match s with
  | EmptyString => false
  | String _ _ => unbroken s
  end.

(** The line of the people file made of three fields. *)
Definition people_line (n i a : string) : string :=
  String.append n (String " " (String.append i (String " " a))).

(** The probability is a binary32 number, not a NaN. *)
Definition is_number (x : F32.float) : Prop := F32.valid x = true /\ x <> S754_nan.


(** *** Sample data: the people of the end-to-end scenario *)

Definition sample_person (n : string) (i : Z) (a : Z) (p : F32.float) : Person :=
  {| name := n; id := i; age := F32.of_Z a; probability := p |}.

Definition Alice : Person := sample_person "Alice" 1 30 F32.zero.
Definition Bob : Person := sample_person "Bob" 2 40 F32.zero.
Definition Carol : Person := sample_person "Carol" 3 70 F32.zero.

(** A line of text with its newline, as [fgets] yields it. *)
Definition text_line (s : string) : string :=
  String.append s (String Libc.newline EmptyString).

Definition sample_meeting : Meeting :=
  {| infectorId := 2; infectedId := 3;
     distance := F32.of_Z 2; durationSeconds := F32.of_Z 15 |}.

(** The files of the end-to-end scenario, with every request served. *)
Definition sample_people_file : list string :=
  [text_line "Alice 1 30"; text_line "Bob 2 40"; text_line "Carol 3 70"].

Definition sample_meetings_file : list string :=
  [text_line "1"; text_line "1 2 1.0 30.0"; text_line "2 3 2.0 15.0"].

Definition sample_world : world := {|
  fopen_read := fun path =>
    if String.eqb path "People.in" then Some sample_people_file
    else if String.eqb path "Meetings.in" then Some sample_meetings_file
    else None;
  fopen_write := fun _ => true;
  allocator := [];
  draft_allocated := (true, true)
|}.

(** * Verification *)

(** ** Arrays and loops *)

Section Arrays.
Context {A : Type}.
Implicit Types (arr P X R : list A) (x : A).

Lemma store_Some arr i x :
  (i < length arr)%nat -> store arr i x = Some (<[i := x]> arr).
Proof. intros Hi. unfold store. destruct (decide _); [reflexivity | lia]. Qed.

Lemma store_inv arr i x arr' :
  store arr i x = Some arr' -> (i < length arr)%nat /\ arr' = <[i := x]> arr.
Proof. unfold store. destruct (decide _); intros [= <-]; auto. Qed.

Lemma store_length arr i x arr' :
  store arr i x = Some arr' -> length arr' = length arr.
Proof. intros [_ ->]%store_inv. apply length_insert. Qed.

(** Writing the cell that follows the part [X] of an array. *)
Lemma store_middle P X y Y x :
  store (P ++ X ++ y :: Y) (length P + length X) x = Some (P ++ (X ++ [x]) ++ Y).
Proof.
  rewrite store_Some by (rewrite !length_app; simpl; lia).
  f_equal. rewrite (app_assoc P X), <- (length_app P X).
  rewrite insert_app_r_alt by lia. rewrite Nat.sub_diag. simpl.
  rewrite <- !app_assoc. reflexivity.
Qed.

(** A loop that copies [n] cells of [src] into [dst]. *)
Lemma for_count_copy (src : list A) (f g : nat -> nat) n :
  (forall k, f (S k) = S (f k)) -> (forall k, g (S k) = S (g k)) ->
  forall i P X R,
    length X = n -> g i = length P -> (f i + n <= length src)%nat ->
    for_count n i
      (fun i dst => match load src (f i) with
                    | Some x => store dst (g i) x
                    | None => None
                    end) (P ++ X ++ R)
    = Some (P ++ take n (drop (f i) src) ++ R).
Proof.
  intros Hf Hg. induction n as [|n IH]; intros i P X R HX Hgi Hsrc.
  - destruct X; [|discriminate]. reflexivity.
  - destruct X as [|y X]; [discriminate|]. simpl in HX.
    cbn [for_count]. unfold load.
    destruct (lookup_lt_is_Some_2 src (f i)) as [x Hx]; [lia|].
    rewrite Hx, Hgi.
    pose proof (store_middle P [] y (X ++ R) x) as Hst. simpl in Hst.
    rewrite Nat.add_0_r in Hst. simpl. rewrite Hst.
    replace (P ++ x :: X ++ R) with ((P ++ [x]) ++ X ++ R)
      by (rewrite <- app_assoc; reflexivity).
    rewrite IH.
    + rewrite <- app_assoc. simpl. do 2 f_equal.
      rewrite (drop_S _ _ _ Hx). simpl. rewrite Hf. reflexivity.
    + lia.
    + rewrite Hg, Hgi, length_app. simpl. lia.
    + rewrite Hf. lia.
Qed.
End Arrays.

(** ** The ordering engine *)

Section Ordering.
Variable comp : compFunc.
Implicit Types (a b l P R : list Person) (x y : Person).

Lemma merge_list_nil_l b : merge_list comp [] b = b.
Proof. destruct b; reflexivity. Qed.

Lemma merge_list_nil_r a : merge_list comp a [] = a.
Proof. destruct a; reflexivity. Qed.

Lemma merge_list_cons x a y b :
  merge_list comp (x :: a) (y :: b) =
  if Z_lt_dec (comp x y) 0 then x :: merge_list comp a (y :: b)
  else y :: merge_list comp (x :: a) b.
Proof. reflexivity. Qed.

Lemma merge_eq peopleList a aLen b bLen start :
  merge peopleList a aLen b bLen start comp =
  merge_while comp a b aLen bLen start peopleList 0 0
    ≫= merge_finish a aLen b bLen start.
Proof.
  unfold merge. destruct (merge_while _ _ _ _ _ _ _ _ _) as [[[pl aI] bI]|]; reflexivity.
Qed.

(** One turn of the [while] loop of [merge]. *)
Lemma merge_while_eq a b aLen bLen start peopleList aI bI :
  merge_while comp a b aLen bLen start peopleList aI bI =
  if decide (aI < aLen /\ bI < bLen)%nat then
    match load a aI, load b bI with
    | Some x, Some y =>
        if Z_lt_dec (comp x y) 0 then
          store peopleList (start + aI + bI) x
            ≫= fun pl => merge_while comp a b aLen bLen start pl (S aI) bI
        else
          store peopleList (start + aI + bI) y
            ≫= fun pl => merge_while comp a b aLen bLen start pl aI (S bI)
    | _, _ => None
    end
  else Some (peopleList, aI, bI).
Proof.
  funelim (merge_while comp a b aLen bLen start peopleList aI bI).
  all: clear Heqcall;
    repeat match goal with
           | H : merge_while _ _ _ _ _ _ _ _ _ = _ |- _ => clear H
           end;
    repeat match goal with
           | H : load _ _ = _ |- _ => rewrite H; clear H
           | H : store _ _ _ = _ |- _ => rewrite H; clear H
           | H : Z_lt_dec _ _ = _ |- _ => rewrite H; clear H
           end;
    destruct (decide _) as [[? ?]|?]; try reflexivity; try lia.
  all: try (destruct (load a aI); reflexivity).
Qed.

(** The invariant of the [while] loop of [merge]: [aI + bI] cells are
    written, and what the rest of [merge] writes is the merge of the
    parts of [a] and [b] not yet consumed. *)
Lemma merge_while_finish a b aLen bLen P R :
  (aLen <= length a)%nat -> (bLen <= length b)%nat ->
  forall k aI bI X Y,
    k = ((aLen - aI) + (bLen - bI))%nat ->
    (aI <= aLen)%nat -> (bI <= bLen)%nat ->
    length X = (aI + bI)%nat -> length Y = k ->
    merge_while comp a b aLen bLen (length P) (P ++ X ++ Y ++ R) aI bI
      ≫= merge_finish a aLen b bLen (length P)
    = Some (P ++ X ++ merge_list comp (drop aI (take aLen a)) (drop bI (take bLen b)) ++ R).
Proof.
  intros Ha Hb k. induction (lt_wf k) as [k _ IH].
  intros aI bI X Y -> HaI HbI HX HY.
  rewrite merge_while_eq.
  destruct (decide (aI < aLen /\ bI < bLen)%nat) as [[Hai Hbi]|Hn].
  - unfold load.
    destruct (lookup_lt_is_Some_2 a aI) as [x Hx]; [lia|].
    destruct (lookup_lt_is_Some_2 b bI) as [y Hy]; [lia|].
    rewrite Hx, Hy. cbn.
    destruct Y as [|y0 Y]; [simpl in HY; lia|].
    assert (drop aI (take aLen a) = x :: drop (S aI) (take aLen a)) as Hda.
    { apply drop_S. rewrite lookup_take_lt by lia. exact Hx. }
    assert (drop bI (take bLen b) = y :: drop (S bI) (take bLen b)) as Hdb.
    { apply drop_S. rewrite lookup_take_lt by lia. exact Hy. }
    replace (length P + aI + bI)%nat with (length P + length X)%nat by lia.
    change ((y0 :: Y) ++ R) with (y0 :: (Y ++ R)).
    rewrite Hda, Hdb, merge_list_cons. rewrite <- Hda, <- Hdb.
    destruct (Z_lt_dec (comp x y) 0) as [Hc|Hc]; rewrite store_middle; cbn.
    + rewrite (IH ((aLen - S aI) + (bLen - bI))%nat); try lia.
      * rewrite Hdb, <- !app_assoc. reflexivity.
      * rewrite length_app. simpl. lia.
      * simpl in HY. lia.
    + rewrite (IH ((aLen - aI) + (bLen - S bI))%nat); try lia.
      * rewrite Hda, <- !app_assoc. reflexivity.
      * rewrite length_app. simpl. lia.
      * simpl in HY. lia.
  - cbn. destruct (decide (aI < aLen)%nat) as [Hai|Hai].
    + (* b is consumed: the rest of a is copied *)
      assert (bI = bLen) as -> by lia.
      rewrite drop_ge with (l := take bLen b) by (rewrite length_take; lia).
      rewrite merge_list_nil_r. unfold for_range.
      rewrite (app_assoc P X).
      rewrite (for_count_copy a (fun i => i) (fun i => (length P + i + bLen)%nat)
                 (aLen - aI) ltac:(intros; cbv beta; lia) ltac:(intros; cbv beta; lia) aI (P ++ X) Y R);
        [ | lia | rewrite length_app; lia | lia ].
      rewrite <- app_assoc. do 3 f_equal.
      rewrite take_drop_commute.
      replace (aI + (aLen - aI))%nat with aLen by lia. reflexivity.
    + (* a is consumed: the rest of b is copied *)
      assert (aI = aLen) as -> by lia.
      rewrite drop_ge with (l := take aLen a) by (rewrite length_take; lia).
      rewrite merge_list_nil_l. unfold for_range.
      rewrite (app_assoc P X).
      rewrite (for_count_copy b (fun j => j) (fun j => (length P + aLen + j)%nat)
                 (bLen - bI) ltac:(intros; cbv beta; lia) ltac:(intros; cbv beta; lia) bI (P ++ X) Y R);
        [ | lia | rewrite length_app; lia | lia ].
      rewrite <- app_assoc. do 3 f_equal.
      rewrite take_drop_commute.
      replace (bI + (bLen - bI))%nat with bLen by lia. reflexivity.
Qed.

(** [merge] on an array whose cells [start .. start + aLen + bLen - 1] are
    the part [X]: they receive the merge of the two sub-arrays. *)
Lemma merge_spec a b aLen bLen P X R :
  (aLen <= length a)%nat -> (bLen <= length b)%nat ->
  length X = (aLen + bLen)%nat ->
  merge (P ++ X ++ R) a aLen b bLen (length P) comp
  = Some (P ++ merge_list comp (take aLen a) (take bLen b) ++ R).
Proof.
  intros Ha Hb HX. rewrite merge_eq.
  apply (merge_while_finish a b aLen bLen P R Ha Hb _ 0%nat 0%nat [] X eq_refl);
    simpl; lia.
Qed.

(** One call of [mergeSort]. *)
Lemma mergeSort_eq peopleList draft d len start :
  mergeSort peopleList draft d len start comp =
  match len with
  | O => Some (peopleList, draft)
  | S _ =>
      '(pl1, draft1) ← mergeSort peopleList draft d (split_aLen len) start comp;
      '(pl2, draft2) ← mergeSort pl1 draft1 (d + split_aLen len) (split_bLen len)
                         (split_aLen len + start) comp;
      draft3 ← for_range 0 len
                 (fun i dr => match load pl2 (i + start) with
                              | Some x => store dr (d + i) x
                              | None => None
                              end) draft2;
      pl3 ← merge pl2 (drop d draft3) (split_aLen len)
              (drop (d + split_aLen len) draft3) (split_bLen len) start comp;
      Some (pl3, draft3)
  end.
Proof.
  funelim (mergeSort peopleList draft d len start comp).
  all: clear Heqcall;
    repeat match goal with
           | H : mergeSort _ _ _ _ _ _ = match _ with _ => _ end |- _ => clear H
           end.
  all: try reflexivity.
  all: repeat match goal with
              | H : mergeSort _ _ _ _ _ _ = _ |- _ =>
                  rewrite H; clear H; cbn [mbind option_bind]
              | H : for_range _ _ _ _ = _ |- _ =>
                  rewrite H; clear H; cbn [mbind option_bind]
              | H : merge _ _ _ _ _ _ _ = _ |- _ =>
                  rewrite H; clear H; cbn [mbind option_bind]
              end; reflexivity.
Qed.

Lemma msort_eq l :
  msort comp l =
  if decide (split_aLen (length l) = 0)%nat then l
  else merge_list comp (msort comp (take (split_aLen (length l)) l))
                       (msort comp (drop (split_aLen (length l)) l)).
Proof.
  funelim (msort comp l);
    match goal with H : decide _ = _ |- _ => rewrite H end; reflexivity.
Qed.

(** *** The merge of two sequences *)

Lemma merge_list_perm a b : merge_list comp a b ≡ₚ a ++ b.
Proof.
  revert b. induction a as [|x a IHa]; intros b.
  - rewrite merge_list_nil_l. reflexivity.
  - induction b as [|y b IHb].
    + rewrite merge_list_nil_r, app_nil_r. reflexivity.
    + rewrite merge_list_cons. destruct (Z_lt_dec (comp x y) 0).
      * simpl. rewrite IHa. reflexivity.
      * rewrite IHb. apply Permutation_middle.
Qed.

Lemma merge_list_HdRel (R : relation Person) z a b :
  HdRel R z a -> HdRel R z b -> HdRel R z (merge_list comp a b).
Proof.
  intros Ha Hb. destruct a as [|x a]; [rewrite merge_list_nil_l; exact Hb|].
  destruct b as [|y b]; [rewrite merge_list_nil_r; exact Ha|].
  rewrite merge_list_cons. destruct (Z_lt_dec (comp x y) 0); constructor.
  - inversion Ha; assumption.
  - inversion Hb; assumption.
Qed.

Lemma merge_list_sorted a b :
  antisymmetric_comp comp ->
  Sorted (not_greater comp) a -> Sorted (not_greater comp) b ->
  Sorted (not_greater comp) (merge_list comp a b).
Proof.
  intros Hanti. revert b. induction a as [|x a IHa]; intros b Ha Hb.
  - rewrite merge_list_nil_l. exact Hb.
  - induction b as [|y b IHb].
    + rewrite merge_list_nil_r. exact Ha.
    + rewrite merge_list_cons. destruct (Z_lt_dec (comp x y) 0) as [Hc|Hc].
      * apply Sorted_inv in Ha as [Ha Hxa]. constructor.
        -- apply IHa; assumption.
        -- apply merge_list_HdRel; [assumption|].
           constructor. unfold not_greater. lia.
      * pose proof Hb as Hb'. apply Sorted_inv in Hb' as [Hb' Hyb]. constructor.
        -- apply IHb; assumption.
        -- apply merge_list_HdRel; [|assumption].
           constructor. unfold not_greater. apply Hanti. lia.
Qed.

Lemma merge_list_app a b :
  (forall x y, x ∈ a -> y ∈ b -> smaller comp x y) ->
  merge_list comp a b = a ++ b.
Proof.
  intros H. induction a as [|x a IHa].
  - apply merge_list_nil_l.
  - destruct b as [|y b]; [rewrite merge_list_nil_r, app_nil_r; reflexivity|].
    rewrite merge_list_cons. destruct (Z_lt_dec (comp x y) 0) as [Hc|Hc].
    + simpl. f_equal. apply IHa. intros x' y' Hx' Hy'. apply H; [|assumption].
      apply elem_of_cons. right. assumption.
    + exfalso. apply Hc. apply H; apply elem_of_cons; left; reflexivity.
Qed.

(** *** The sort of a sequence *)

Lemma split_aLen_lt n : (0 < n)%nat -> (split_aLen n < n)%nat.
Proof. intros Hn. unfold split_aLen. apply Nat.div_lt; lia. Qed.

Lemma split_aLen_0 n : split_aLen n = 0%nat -> (n <= 1)%nat.
Proof.
  unfold split_aLen. intros H.
  destruct n as [|[|n]]; [lia|lia|].
  change (S (S n)) with (1 * 2 + n)%nat in H.
  rewrite Nat.div_add_l in H by lia. lia.
Qed.

(** The recursion of [msort]: both halves are shorter. *)
Lemma msort_halves l :
  split_aLen (length l) <> 0%nat ->
  (length (take (split_aLen (length l)) l) < length l)%nat /\
  (length (drop (split_aLen (length l)) l) < length l)%nat.
Proof.
  intros Hk. rewrite length_take, length_drop.
  assert (0 < length l)%nat as Hpos.
  { destruct l; [exfalso; apply Hk; reflexivity | simpl; lia]. }
  pose proof (split_aLen_lt _ Hpos). lia.
Qed.

Lemma msort_perm l : msort comp l ≡ₚ l.
Proof.
  remember (length l) as n eqn:Hn. revert l Hn.
  induction (lt_wf n) as [n _ IH]. intros l ->.
  rewrite msort_eq. destruct (decide _) as [|Hk]; [reflexivity|].
  destruct (msort_halves l Hk) as [H1 H2].
  rewrite merge_list_perm.
  rewrite (IH _ H1 _ eq_refl), (IH _ H2 _ eq_refl).
  rewrite take_drop. reflexivity.
Qed.

Lemma msort_length l : length (msort comp l) = length l.
Proof. apply Permutation_length, msort_perm. Qed.

Lemma msort_sorted l :
  antisymmetric_comp comp -> Sorted (not_greater comp) (msort comp l).
Proof.
  intros Hanti. remember (length l) as n eqn:Hn. revert l Hn.
  induction (lt_wf n) as [n _ IH]. intros l ->.
  rewrite msort_eq. destruct (decide _) as [Hk|Hk].
  - apply split_aLen_0 in Hk.
    destruct l as [|x [|y l]]; [constructor|repeat constructor|simpl in Hk; lia].
  - destruct (msort_halves l Hk) as [H1 H2].
    apply merge_list_sorted; [assumption| |].
    + apply (IH _ H1 _ eq_refl).
    + apply (IH _ H2 _ eq_refl).
Qed.

(** A sequence in which every record is smaller than every later one is
    left as it is. *)
Lemma msort_id l : StronglySorted (smaller comp) l -> msort comp l = l.
Proof.
  remember (length l) as n eqn:Hn. revert l Hn.
  induction (lt_wf n) as [n _ IH]. intros l -> Hs.
  rewrite msort_eq. destruct (decide _) as [Hk|Hk]; [reflexivity|].
  destruct (msort_halves l Hk) as [H1 H2].
  rewrite <- (take_drop (split_aLen (length l)) l) in Hs.
  rewrite (IH _ H1 _ eq_refl) by (eapply StronglySorted_app_1_l; exact Hs).
  rewrite (IH _ H2 _ eq_refl) by (eapply StronglySorted_app_1_r; exact Hs).
  rewrite merge_list_app; [apply take_drop|].
  intros x y Hx Hy. eapply StronglySorted_app_1_elem_of; eassumption.
Qed.

(** *** [mergeSort] sorts the segment it is given *)

Lemma mergeSort_spec len :
  forall P seg R draft d,
    length seg = len -> (d + len <= length draft)%nat ->
    exists draft',
      mergeSort (P ++ seg ++ R) draft d len (length P) comp
      = Some (P ++ msort comp seg ++ R, draft')
      /\ length draft' = length draft.
Proof.
  induction (lt_wf len) as [len _ IH]. intros P seg R draft d Hseg Hd.
  rewrite mergeSort_eq. destruct len as [|n].
  - destruct seg; [|discriminate]. exists draft. rewrite msort_eq. auto.
  - set (aLen := split_aLen (S n)). set (bLen := split_bLen (S n)).
    assert (aLen < S n)%nat as HaLen by (apply split_aLen_lt; lia).
    assert ((bLen < S n)%nat /\ (aLen + bLen <= S n)%nat
            /\ (aLen <> 0%nat -> aLen + bLen = S n)%nat
            /\ (aLen = 0%nat -> bLen = 0%nat)) as (HbLen & Hab & Hab' & Hab0).
    { unfold bLen, split_bLen. fold aLen. destruct (decide _); lia. }
    (* the two halves of the segment, and what follows them in it *)
    assert (exists A B C, seg = A ++ B ++ C /\ length A = aLen /\ length B = bLen)
      as (A & B & C & -> & HA & HB).
    { exists (take aLen seg), (take bLen (drop aLen seg)), (drop bLen (drop aLen seg)).
      rewrite !take_drop, length_take, length_take, length_drop. repeat split; lia. }
    (* first recursive call *)
    destruct (IH aLen HaLen P A (B ++ C ++ R) draft d HA ltac:(lia))
      as (draft1 & E1 & L1).
    rewrite <- !app_assoc. rewrite E1. cbn [mbind option_bind].
    (* second recursive call *)
    destruct (IH bLen HbLen (P ++ msort comp A) B (C ++ R) draft1 (d + aLen)%nat
                HB ltac:(lia)) as (draft2 & E2 & L2).
    rewrite length_app, msort_length, HA in E2.
    rewrite <- app_assoc in E2. rewrite (Nat.add_comm aLen).
    rewrite E2. cbn [mbind option_bind].
    (* the copy into the draft *)
    (* the copy into the draft *)
    assert (exists D1 DX D2, draft2 = D1 ++ DX ++ D2 /\ length D1 = d
                             /\ length DX = S n) as (D1 & DX & D2 & -> & HD1 & HDX).
    { exists (take d draft2), (take (S n) (drop d draft2)), (drop (S n) (drop d draft2)).
      rewrite !take_drop, length_take, length_take, length_drop. repeat split; lia. }
    set (pl2 := (P ++ msort comp A) ++ msort comp B ++ C ++ R).
    assert (length (msort comp A ++ msort comp B ++ C) = S n) as Hlen2.
    { rewrite !length_app, !msort_length. rewrite !length_app in Hseg. lia. }
    unfold for_range. rewrite Nat.sub_0_r.
    rewrite (for_count_copy pl2 (fun i => (i + length P)%nat) (fun i => (d + i)%nat) (S n)
               ltac:(intros; cbv beta; lia) ltac:(intros; cbv beta; lia)
               0%nat D1 DX D2 HDX ltac:(cbv beta; lia));
      [|unfold pl2; rewrite !length_app, !msort_length; rewrite !length_app in Hseg;
        cbv beta; lia].
    cbn [mbind option_bind]. cbv beta.
    assert (take (S n) (drop (0 + length P) pl2) = msort comp A ++ msort comp B ++ C)
      as ->.
    { unfold pl2. rewrite Nat.add_0_l, <- app_assoc. rewrite drop_app_length.
      replace (msort comp A ++ msort comp B ++ C ++ R)
        with ((msort comp A ++ msort comp B ++ C) ++ R)
        by (rewrite <- !app_assoc; reflexivity).
      rewrite take_app_length'; [reflexivity | symmetry; exact Hlen2]. }
    (* the merge *)
    assert (take aLen (drop d (D1 ++ (msort comp A ++ msort comp B ++ C) ++ D2))
            = msort comp A) as HtA.
    { rewrite <- HD1, drop_app_length, <- !app_assoc.
      apply take_app_length'. rewrite msort_length. symmetry; exact HA. }
    assert (take bLen (drop (d + aLen) (D1 ++ (msort comp A ++ msort comp B ++ C) ++ D2))
            = msort comp B) as HtB.
    { rewrite <- drop_drop, <- HD1, drop_app_length, <- !app_assoc.
      rewrite <- HA, <- (msort_length A), drop_app_length.
      apply take_app_length'. rewrite msort_length. symmetry; exact HB. }
    assert (length (D1 ++ (msort comp A ++ msort comp B ++ C) ++ D2)
            = length (D1 ++ DX ++ D2)) as HL3.
    { rewrite !(length_app D1), !(length_app _ D2), Hlen2, HDX. reflexivity. }
    revert HtA HtB HL3.
    generalize (D1 ++ (msort comp A ++ msort comp B ++ C) ++ D2).
    intros draft3 HtA HtB HL3.
    unfold pl2.
    replace ((P ++ msort comp A) ++ msort comp B ++ C ++ R)
      with (P ++ (msort comp A ++ msort comp B) ++ (C ++ R))
      by (rewrite <- !app_assoc; reflexivity).
    rewrite (merge_spec _ _ aLen bLen P (msort comp A ++ msort comp B) (C ++ R)).
    + rewrite HtA, HtB. cbn [mbind option_bind].
      exists draft3. split; [|lia].
      do 3 f_equal.
      destruct (decide (aLen = 0%nat)) as [Ha0|Ha0].
      * assert (bLen = 0%nat) as Hb0 by auto.
        destruct A; [|simpl in HA; lia]. destruct B; [|simpl in HB; lia].
        simpl. rewrite (msort_eq []). simpl.
        rewrite (msort_eq C). destruct (decide _) as [|Hk]; [reflexivity|].
        exfalso. apply Hk. simpl in Hseg. rewrite Hseg. exact Ha0.
      * assert (C = []) as ->.
        { apply nil_length_inv. rewrite !length_app in Hseg. lia. }
        rewrite !app_nil_r. rewrite (msort_eq (A ++ B)).
        rewrite app_nil_r in Hseg. rewrite Hseg. fold aLen.
        destruct (decide _) as [|_]; [contradiction|].
        rewrite <- HA at 1 2. rewrite take_app_length, drop_app_length. reflexivity.
    + pose proof (f_equal length HtA) as H. rewrite length_take, msort_length in H. lia.
    + pose proof (f_equal length HtB) as H. rewrite length_take, msort_length in H. lia.
    + rewrite length_app, !msort_length. lia.
Qed.
End Ordering.

(** ** The comparators *)

Section Floats.
Variables prec emax : Z.

Lemma SFcompare_swap x y : SFcompare y x = CompOpp <$> SFcompare x y.
Proof.
  destruct x as [sx|sx| |sx mx ex], y as [sy|sy| |sy my ey];
    try destruct sx; try destruct sy; try reflexivity; simpl.
  - rewrite (Z.compare_antisym ey ex). destruct (ey ?= ex); simpl; try reflexivity.
    rewrite (Pos.compare_cont_antisym _ _ Eq). simpl.
    rewrite CompOpp_involutive. reflexivity.
  - rewrite (Z.compare_antisym ey ex). destruct (ey ?= ex); simpl; try reflexivity.
    rewrite (Pos.compare_cont_antisym _ _ Eq). reflexivity.
Qed.

Lemma SFabs_binary_round s m e :
  SFabs (binary_round prec emax s m e) = SFabs (binary_round prec emax false m e).
Proof.
  unfold binary_round. destruct (shl_align _ _ _) as [mz ez].
  unfold binary_round_aux.
  destruct (shr_fexp _ _ _ _ _) as [mrs' e'].
  destruct (shr_fexp _ _ _ _ _) as [mrs'' e''].
  destruct (shr_m mrs''); try reflexivity.
  destruct (_ <=? _); reflexivity.
Qed.

Lemma SFabs_binary_normalize_opp m e s s' :
  SFabs (binary_normalize prec emax (- m) e s)
  = SFabs (binary_normalize prec emax m e s').
Proof.
  destruct m; simpl; [reflexivity| |]; rewrite (SFabs_binary_round true); reflexivity.
Qed.

(** [|x - y| = |y - x|], also after rounding. *)
Lemma SFabs_SFsub_swap x y :
  SFabs (SFsub prec emax x y) = SFabs (SFsub prec emax y x).
Proof.
  destruct x as [sx|sx| |sx mx ex], y as [sy|sy| |sy my ey];
    try destruct sx; try destruct sy; try reflexivity.
  all: unfold SFsub; rewrite (Z.min_comm ey ex);
    rewrite <- (SFabs_binary_normalize_opp _ _ false false); f_equal; f_equal;
    unfold cond_Zopp; lia.
Qed.
End Floats.

Lemma to_int_to_ulong z : to_int (to_ulong z) = to_int z.
Proof.
  unfold to_int, to_ulong, ULONG_MODULUS, INT_MODULUS.
  replace ((z mod 2 ^ 64) mod 2 ^ 32) with (z mod 2 ^ 32); [reflexivity|].
  change (2 ^ 64) with 18446744073709551616. change (2 ^ 32) with 4294967296.
  Z.to_euclidean_division_equations. lia.
Qed.

Lemma idCompare_antisymmetric : antisymmetric_comp idCompare.
Proof.
  intros x y. unfold idCompare. rewrite !to_int_to_ulong.
  unfold to_int, INT_MODULUS, INT_MAX.
  generalize (id x) (id y). intros a b.
  change (2 ^ 32) with 4294967296. change (2 ^ 31 - 1) with 2147483647.
  destruct (Z.leb_spec ((a - b) mod 4294967296) 2147483647);
    destruct (Z.leb_spec ((b - a) mod 4294967296) 2147483647);
    Z.to_euclidean_division_equations; lia.
Qed.

Lemma probCompare_antisymmetric : antisymmetric_comp probCompare.
Proof.
  intros x y. unfold probCompare, F32.fabsf, F32.sub, F32.gt.
  rewrite (SFabs_SFsub_swap _ _ (probability y) (probability x)).
  destruct (F64.lt _ _); [unfold EQUAL; lia|].
  rewrite (SFcompare_swap (probability x) (probability y)).
  destruct (SFcompare (probability x) (probability y)) as [[]|]; simpl;
    unfold GREATER, SMALLER; lia.
Qed.

(** *** The properties of the ordering engine *)

Lemma mergeSort_msort (comp : compFunc) (peopleList draft : list Person) :
  (length peopleList <= length draft)%nat ->
  exists draft',
    mergeSort peopleList draft 0 (length peopleList) 0 comp
    = Some (msort comp peopleList, draft').
Proof.
  intros Hd.
  destruct (mergeSort_spec comp (length peopleList) [] peopleList [] draft 0%nat
              eq_refl ltac:(simpl; lia)) as (draft' & E & _).
  simpl in E. rewrite !app_nil_r in E. exists draft'. exact E.
Qed.

(** C2.  For each of the two comparators and every array, [mergeSort] run on
    the whole array (with a draft array at least as long) returns, and the
    array it leaves is a permutation of the input in which no record is
    followed by one the comparator says it is greater than. *)
Theorem mergeSort_permutation_sorted (comp : compFunc) (peopleList draft : list Person) :
  comp = idCompare \/ comp = probCompare ->
  (length peopleList <= length draft)%nat ->
  exists sorted draft',
    mergeSort peopleList draft 0 (length peopleList) 0 comp = Some (sorted, draft')
    /\ sorted ≡ₚ peopleList
    /\ Sorted (not_greater comp) sorted.
Proof.
  intros Hcomp Hd.
  destruct (mergeSort_msort comp peopleList draft Hd) as (draft' & E).
  exists (msort comp peopleList), draft'. split; [exact E|]. split.
  - apply msort_perm.
  - apply msort_sorted.
    destruct Hcomp as [-> | ->];
      [apply idCompare_antisymmetric | apply probCompare_antisymmetric].
Qed.

Lemma mergeSort_permutation_sorted_witness :
  exists sorted draft',
    mergeSort [Carol; Alice; Bob] (calloc_Person 3) 0 3 0 idCompare = Some (sorted, draft')
    /\ sorted ≡ₚ [Carol; Alice; Bob]
    /\ Sorted (not_greater idCompare) sorted.
Proof.
  apply (mergeSort_permutation_sorted idCompare [Carol; Alice; Bob] (calloc_Person 3)).
  - left. reflexivity.
  - simpl. lia.
Defined.

(** C8, as the code has it.  The claim fails on records whose keys compare
    equal: on a tie [merge] takes the record of the second half first. *)
Lemma mergeSort_swaps_equal_keys :
  Sorted (not_greater probCompare) [Alice; Bob]
  /\ fst <$> mergeSort [Alice; Bob] (calloc_Person 2) 0 2 0 probCompare = Some [Bob; Alice]
  /\ [Bob; Alice] <> [Alice; Bob].
Proof.
  split; [|split].
  - repeat constructor; vm_compute; discriminate.
  - vm_compute. reflexivity.
  - discriminate.
Qed.

(** C8, amended.  When every record of the array is smaller, for the
    comparator ([idCompare], [probCompare] or any other), than every later
    record, [mergeSort] leaves every record at its index. *)
Theorem mergeSort_idempotent_strict (comp : compFunc) (peopleList draft : list Person) :
  StronglySorted (smaller comp) peopleList ->
  (length peopleList <= length draft)%nat ->
  exists draft',
    mergeSort peopleList draft 0 (length peopleList) 0 comp = Some (peopleList, draft').
Proof.
  intros Hs Hd.
  destruct (mergeSort_msort comp peopleList draft Hd) as (draft' & E).
  exists draft'. rewrite E, msort_id by exact Hs. reflexivity.
Qed.

Lemma mergeSort_idempotent_strict_witness :
  exists draft',
    mergeSort [Alice; Bob; Carol] (calloc_Person 3) 0 3 0 idCompare
    = Some ([Alice; Bob; Carol], draft').
Proof.
  apply (mergeSort_idempotent_strict idCompare [Alice; Bob; Carol] (calloc_Person 3)).
  - repeat constructor; vm_compute; reflexivity.
  - simpl. lia.
Defined.

(** *** The identifier comparator *)

(** [idCompare] is a three-way comparison as long as the identifiers differ
    by less than [2^31]. *)
Lemma idCompare_small_difference (a b : Person) :
  - 2 ^ 31 <= id a - id b < 2 ^ 31 ->
  idCompare a b = id a - id b.
Proof.
  intros H. unfold idCompare. rewrite to_int_to_ulong.
  unfold to_int, INT_MODULUS, INT_MAX.
  change (2 ^ 32) with 4294967296. change (2 ^ 31 - 1) with 2147483647.
  change (2 ^ 31) with 2147483648 in H.
  destruct (Z.leb_spec ((id a - id b) mod 4294967296) 2147483647);
    Z.to_euclidean_division_equations; lia.
Qed.

(** C9, on the code.  The difference of the identifiers is truncated to
    [int]: for the identifiers [3000000000] and [1] the result is negative
    although the first is the greater, and for [4294967296] and [0] it is
    zero although they differ. *)
Theorem idCompare_truncates :
  let a := sample_person "a" 3000000000 0 F32.zero in
  let b := sample_person "b" 1 0 F32.zero in
  let c := sample_person "c" 4294967296 0 F32.zero in
  let d := sample_person "d" 0 0 F32.zero in
  is_ulong (id a) /\ is_ulong (id b) /\ is_ulong (id c) /\ is_ulong (id d)
  /\ id a > id b /\ idCompare a b = -1294967297
  /\ id c <> id d /\ idCompare c d = 0.
Proof.
  unfold is_ulong, ULONG_MODULUS. cbn -[Z.pow]. repeat split; try lia; discriminate.
Qed.

(** ** The lookup engine *)

Lemma StronglySorted_lookup {A} (R : relation A) (l : list A) i j x y :
  StronglySorted R l -> (i < j)%nat -> l !! i = Some x -> l !! j = Some y -> R x y.
Proof.
  intros Hs. revert i j x y. induction Hs as [|a l Hs IH Hall]; intros i j x y Hij Hi Hj.
  - discriminate.
  - destruct j as [|j]; [lia|]. destruct i as [|i].
    + injection Hi as <-. simpl in Hj.
      rewrite Forall_forall in Hall. apply Hall.
      eapply list_elem_of_lookup_2. exact Hj.
    + simpl in Hi, Hj. apply (IH i j); [lia|assumption|assumption].
Qed.

Lemma sorted_by_id_lookup peopleList i j p q :
  sorted_by_id peopleList -> (i <= j)%nat ->
  peopleList !! i = Some p -> peopleList !! j = Some q -> id p <= id q.
Proof.
  intros Hs Hij Hi Hj.
  destruct (decide (i = j)) as [->|Hne].
  - rewrite Hi in Hj. injection Hj as ->. lia.
  - apply Sorted_StronglySorted in Hs; [|intros ? ? ?; lia].
    apply (StronglySorted_lookup Z.le (id <$> peopleList) i j); [assumption|lia| |].
    + rewrite list_lookup_fmap, Hi. reflexivity.
    + rewrite list_lookup_fmap, Hj. reflexivity.
Qed.

Lemma load_at_Some peopleList i p :
  load_at peopleList i = Some p <-> 0 <= i /\ peopleList !! Z.to_nat i = Some p.
Proof.
  unfold load_at, load. destruct (Z.leb_spec 0 i); split.
  - auto.
  - intros [_ H']. exact H'.
  - discriminate.
  - lia.
Qed.

(** The search in [start .. end_] finds an identifier that occurs there,
    within [end_ - start + 1] calls. *)
Lemma binarySearchById_range fuel :
  forall peopleList idToFind start end_ k p,
    sorted_by_id peopleList ->
    0 <= start -> start <= k <= end_ -> end_ < Z.of_nat (length peopleList) ->
    peopleList !! Z.to_nat k = Some p -> id p = idToFind ->
    (Z.to_nat (end_ - start + 1) <= fuel)%nat ->
    exists i q,
      binarySearchById fuel peopleList idToFind start end_ = Some i
      /\ start <= i <= end_
      /\ load_at peopleList i = Some q /\ id q = idToFind.
Proof.
  induction fuel as [|fuel IH]; intros pl target start end_ k p Hs H0 Hk He Hp Hid Hfuel.
  - lia.
  - cbn [binarySearchById].
    assert (start <= start + (end_ - start) ÷ 2 <= end_) as Hmid.
    { rewrite Z.quot_div_nonneg by lia.
      Z.to_euclidean_division_equations. lia. }
    revert Hmid. generalize (start + (end_ - start) ÷ 2). intros mid Hmid.
    assert (Z.to_nat mid < length pl)%nat as Hlen.
    { lia. }
    destruct (lookup_lt_is_Some_2 pl (Z.to_nat mid) Hlen) as [pm Hpm].
    assert (load_at pl mid = Some pm) as Hload by (apply load_at_Some; split; [lia|exact Hpm]).
    rewrite Hload.
    destruct (Z.eqb_spec (id pm) target) as [Heq|Hne].
    { exists mid, pm. auto. }
    destruct (Z.gtb_spec (id pm) target) as [Hgt|Hle].
    + (* the identifier is before [mid] *)
      assert (k < mid) as Hkm.
      { destruct (Z_lt_dec k mid); [assumption|].
        pose proof (sorted_by_id_lookup pl (Z.to_nat mid) (Z.to_nat k) pm p Hs
                      ltac:(lia) Hpm Hp). lia. }
      destruct (IH pl target start (mid - 1) k p Hs H0 ltac:(lia) ltac:(lia) Hp Hid
                  ltac:(lia))
        as (i & q & E & Hi & Hq).
      exists i, q. split; [exact E|]. split; [lia|exact Hq].
    + assert (mid < k) as Hkm.
      { destruct (Z_lt_dec mid k); [assumption|].
        pose proof (sorted_by_id_lookup pl (Z.to_nat k) (Z.to_nat mid) p pm Hs
                      ltac:(lia) Hp Hpm). lia. }
      destruct (IH pl target (mid + 1) end_ k p Hs ltac:(lia) ltac:(lia) He Hp Hid
                  ltac:(lia))
        as (i & q & E & Hi & Hq).
      exists i, q. split; [exact E|]. split; [lia|exact Hq].
Qed.

(** Whatever the array, an index [binarySearchById] returns holds the
    identifier searched for. *)
Lemma binarySearchById_sound fuel :
  forall peopleList idToFind start end_ i,
    binarySearchById fuel peopleList idToFind start end_ = Some i ->
    exists q, load_at peopleList i = Some q /\ id q = idToFind.
Proof.
  induction fuel as [|fuel IH]; intros pl target start end_ i; [discriminate|].
  cbn [binarySearchById].
  destruct (load_at pl _) as [pm|] eqn:Hload; [|discriminate].
  destruct (Z.eqb_spec (id pm) target) as [Heq|Hne].
  - intros [= <-]. exists pm. auto.
  - destruct (_ >? _); apply IH.
Qed.

(** C3.  In an array in ascending order of the identifiers, the search for
    an identifier that occurs in it, between the bounds [0] and
    [length - 1], returns an index (given [length] units of recursion
    depth or more) and the record at this index has exactly this
    identifier. *)
Theorem binarySearchById_finds (peopleList : list Person) (idToFind : Z) (fuel : nat) :
  sorted_by_id peopleList ->
  idToFind ∈ (id <$> peopleList) ->
  (length peopleList <= fuel)%nat ->
  exists i p,
    binarySearchById fuel peopleList idToFind 0 (Z.of_nat (length peopleList) - 1) = Some i
    /\ 0 <= i < Z.of_nat (length peopleList)
    /\ load_at peopleList i = Some p
    /\ id p = idToFind.
Proof.
  intros Hs Hin Hfuel.
  apply list_elem_of_lookup_1 in Hin as [k Hk].
  rewrite list_lookup_fmap in Hk.
  destruct (peopleList !! k) as [p|] eqn:Hp; [|discriminate].
  injection Hk as Hk. pose proof (lookup_lt_Some _ _ _ Hp) as Hlt.
  destruct (binarySearchById_range fuel peopleList idToFind 0
              (Z.of_nat (length peopleList) - 1) (Z.of_nat k) p Hs ltac:(lia) ltac:(lia)
              ltac:(lia) ltac:(rewrite Nat2Z.id; exact Hp) Hk ltac:(lia))
    as (i & q & E & Hi & Hq & Hid).
  exists i, q. repeat split; try assumption; lia.
Qed.

Lemma binarySearchById_finds_witness :
  exists i p,
    binarySearchById 3 [Alice; Bob; Carol] 3 0 (Z.of_nat (length [Alice; Bob; Carol]) - 1)
    = Some i
    /\ 0 <= i < Z.of_nat (length [Alice; Bob; Carol])
    /\ load_at [Alice; Bob; Carol] i = Some p
    /\ id p = 3.
Proof.
  apply (binarySearchById_finds [Alice; Bob; Carol] 3 3).
  - repeat constructor; vm_compute; discriminate.
  - vm_compute. do 2 right. left.
  - simpl. lia.
Defined.

(** ** The propagation engine *)

Lemma probUpdater_parse fuel peopleList line :
  probUpdater fuel peopleList line
  = parse_meeting line ≫= update_probability fuel peopleList.
Proof.
  unfold probUpdater, parse_meeting, update_probability.
  destruct (Libc.strtok (Some line) _) as [tok1 saved1].
  destruct (Libc.strtok None saved1) as [tok2 saved2].
  destruct (Libc.strtok None saved2) as [tok3 saved3].
  destruct (Libc.strtok None saved3) as [tok4 saved4].
  destruct (Libc.strtol tok1) as [a|]; [|reflexivity].
  destruct (Libc.strtol tok2) as [b|]; [|reflexivity].
  cbn.
  destruct (Libc.strtof tok3) as [d|]; cbn.
  - destruct (Libc.strtof tok4) as [t|]; cbn; [reflexivity|].
    destruct (binarySearchById fuel peopleList (to_ulong a) _ _); cbn; [|reflexivity].
    destruct (binarySearchById fuel peopleList (to_ulong b) _ _); reflexivity.
  - destruct (binarySearchById fuel peopleList (to_ulong a) _ _); cbn; [|reflexivity].
    destruct (binarySearchById fuel peopleList (to_ulong b) _ _); reflexivity.
Qed.

Lemma has_id_lookup peopleList i :
  has_id peopleList i = true -> exists k p, peopleList !! k = Some p /\ id p = i.
Proof.
  unfold has_id. rewrite existsb_exists. intros (p & Hin & Hp).
  apply Z.eqb_eq in Hp. apply list_elem_of_In, list_elem_of_lookup_1 in Hin as [k Hk].
  exists k, p. auto.
Qed.

(** The search over the whole array, for an identifier [has_id] finds. *)
Lemma binarySearchById_whole fuel peopleList idToFind :
  sorted_by_id peopleList ->
  has_id peopleList idToFind = true ->
  (length peopleList <= fuel)%nat ->
  exists i p,
    binarySearchById fuel peopleList idToFind 0 (Z.of_nat (length peopleList) - 1) = Some i
    /\ 0 <= i < Z.of_nat (length peopleList)
    /\ load_at peopleList i = Some p
    /\ id p = idToFind.
Proof.
  intros Hs Hin Hfuel. destruct (has_id_lookup _ _ Hin) as (k & p & Hp & Hk).
  pose proof (lookup_lt_Some _ _ _ Hp) as Hlt.
  destruct (binarySearchById_range fuel peopleList idToFind 0
              (Z.of_nat (length peopleList) - 1) (Z.of_nat k) p Hs ltac:(lia) ltac:(lia)
              ltac:(lia) ltac:(rewrite Nat2Z.id; exact Hp) Hk ltac:(lia))
    as (i & q & E & Hi & Hq & Hid).
  exists i, q. repeat split; try assumption; lia.
Qed.

(** The search looks at the identifiers only. *)
Lemma binarySearchById_ids fuel :
  forall pl pl' idToFind start end_,
    id <$> pl = id <$> pl' ->
    binarySearchById fuel pl idToFind start end_
    = binarySearchById fuel pl' idToFind start end_.
Proof.
  induction fuel as [|fuel IH]; intros pl pl' t s e Hids; [reflexivity|].
  cbn [binarySearchById]. unfold load_at, load.
  destruct (0 <=? _); [|reflexivity].
  pose proof (f_equal (fun l => l !! Z.to_nat (s + (e - s) ÷ 2)) Hids) as Hk.
  cbv beta in Hk. rewrite !list_lookup_fmap in Hk.
  destruct (pl !! _) as [p|], (pl' !! _) as [p'|]; try discriminate; [|reflexivity].
  injection Hk as ->.
  rewrite (IH pl pl' t s _ Hids), (IH pl pl' t _ e Hids). reflexivity.
Qed.

Lemma insert_set_probability_ids (pl : list Person) j p x :
  pl !! j = Some p -> id <$> <[j := set_probability p x]> pl = id <$> pl.
Proof.
  intros Hj. rewrite list_fmap_insert. simpl.
  apply list_insert_id. rewrite list_lookup_fmap, Hj. reflexivity.
Qed.

(** [probUpdater] on a line whose identifiers occur in the sorted array:
    the record the infected identifier resolves to receives the product,
    whatever it held; nothing else changes. *)
Lemma update_probability_spec fuel peopleList m :
  sorted_by_id peopleList -> (length peopleList <= fuel)%nat ->
  has_id peopleList (infectorId m) = true ->
  has_id peopleList (infectedId m) = true ->
  exists i j infector infected,
    binarySearchById fuel peopleList (infectorId m) 0 (Z.of_nat (length peopleList) - 1) = Some i
    /\ load_at peopleList i = Some infector /\ id infector = infectorId m
    /\ binarySearchById fuel peopleList (infectedId m) 0 (Z.of_nat (length peopleList) - 1) = Some j
    /\ load_at peopleList j = Some infected /\ id infected = infectedId m
    /\ update_probability fuel peopleList m
       = Some (<[Z.to_nat j :=
                   set_probability infected
                     (F32.mul (probability infector)
                        (crna (distance m) (durationSeconds m)))]> peopleList).
Proof.
  intros Hs Hfuel Ha Hb.
  destruct (binarySearchById_whole fuel peopleList (infectorId m) Hs Ha Hfuel)
    as (i & pa & Ei & Hi & Hpa & Hida).
  destruct (binarySearchById_whole fuel peopleList (infectedId m) Hs Hb Hfuel)
    as (j & pb & Ej & Hj & Hpb & Hidb).
  exists i, j, pa, pb. repeat split; try assumption.
  unfold update_probability. rewrite Ei, Ej. cbn. rewrite Hpa, Hpb. cbn.
  apply store_Some. lia.
Qed.

Lemma forallb_pointwise {A} (f g : A -> bool) (l : list A) :
  (forall x, f x = g x) -> forallb f l = forallb g l.
Proof. intros H. induction l as [|x l IH]; [reflexivity|]. simpl. rewrite H, IH. reflexivity. Qed.

Lemma has_id_ids pl pl' i : id <$> pl = id <$> pl' -> has_id pl i = has_id pl' i.
Proof.
  assert (forall l, has_id l i = existsb (fun z => z =? i) (id <$> l)) as H.
  { induction l as [|p l IH]; [reflexivity|].
    rewrite fmap_cons. unfold has_id in *. simpl. rewrite IH. reflexivity. }
  intros Hids. rewrite !H, Hids. reflexivity.
Qed.

Lemma resolved_ids pl pl' line : id <$> pl = id <$> pl' -> resolved pl line = resolved pl' line.
Proof.
  intros Hids. unfold resolved. destruct (parse_meeting line); [|reflexivity].
  rewrite !(has_id_ids pl pl' _ Hids). reflexivity.
Qed.

Lemma sorted_by_id_ids pl pl' : id <$> pl = id <$> pl' -> sorted_by_id pl -> sorted_by_id pl'.
Proof. unfold sorted_by_id. intros ->. auto. Qed.

Lemma length_ids (pl pl' : list Person) : id <$> pl = id <$> pl' -> length pl = length pl'.
Proof. intros H. apply (f_equal length) in H. rewrite !length_fmap in H. exact H. Qed.

(** One line of the meetings file. *)
Lemma probUpdater_spec fuel peopleList line :
  sorted_by_id peopleList -> (length peopleList <= fuel)%nat ->
  resolved peopleList line = true ->
  exists m i j infector infected,
    parse_meeting line = Some m
    /\ binarySearchById fuel peopleList (infectorId m) 0 (Z.of_nat (length peopleList) - 1) = Some i
    /\ load_at peopleList i = Some infector /\ id infector = infectorId m
    /\ binarySearchById fuel peopleList (infectedId m) 0 (Z.of_nat (length peopleList) - 1) = Some j
    /\ load_at peopleList j = Some infected /\ id infected = infectedId m
    /\ probUpdater fuel peopleList line
       = Some (<[Z.to_nat j :=
                   set_probability infected
                     (F32.mul (probability infector)
                        (crna (distance m) (durationSeconds m)))]> peopleList).
Proof.
  intros Hs Hfuel Hr. unfold resolved in Hr.
  destruct (parse_meeting line) as [m|] eqn:Hm; [|discriminate].
  apply andb_true_iff in Hr as [Ha Hb].
  destruct (update_probability_spec fuel peopleList m Hs Hfuel Ha Hb)
    as (i & j & pa & pb & H).
  exists m, i, j, pa, pb. split; [reflexivity|].
  rewrite probUpdater_parse, Hm. exact H.
Qed.

Lemma probUpdater_ids fuel peopleList line pl' :
  probUpdater fuel peopleList line = Some pl' -> id <$> pl' = id <$> peopleList.
Proof.
  rewrite probUpdater_parse. destruct (parse_meeting line) as [m|]; [|discriminate].
  cbn. unfold update_probability.
  destruct (binarySearchById _ _ (infectorId m) _ _) as [i|]; [|discriminate]. cbn.
  destruct (binarySearchById _ _ (infectedId m) _ _) as [j|]; [|discriminate]. cbn.
  destruct (load_at peopleList i) as [pa|]; [|discriminate]. cbn.
  destruct (load_at peopleList j) as [pb|] eqn:Hj; [|discriminate]. cbn.
  intros [_ ->]%store_inv. apply load_at_Some in Hj as [_ Hj].
  apply insert_set_probability_ids. exact Hj.
Qed.

Lemma readMeetingsFile_loop_app fuel l1 l2 pl :
  readMeetingsFile_loop fuel (l1 ++ l2) pl
  = readMeetingsFile_loop fuel l1 pl ≫= readMeetingsFile_loop fuel l2.
Proof.
  revert pl. induction l1 as [|line l1 IH]; intros pl; [reflexivity|].
  simpl. destruct (probUpdater fuel pl line); [apply IH|reflexivity].
Qed.

(** The loop over resolved lines runs to its end and keeps the identifiers. *)
Lemma readMeetingsFile_loop_total fuel lines :
  forall pl,
    sorted_by_id pl -> (length pl <= fuel)%nat ->
    forallb (resolved pl) lines = true ->
    exists final,
      readMeetingsFile_loop fuel lines pl = Some final /\ id <$> final = id <$> pl.
Proof.
  induction lines as [|line lines IH]; intros pl Hs Hfuel Hall.
  - exists pl. auto.
  - simpl in Hall. apply andb_true_iff in Hall as [Hr Hall].
    destruct (probUpdater_spec fuel pl line Hs Hfuel Hr)
      as (m & i & j & pa & pb & _ & _ & _ & _ & _ & _ & _ & E).
    pose proof (probUpdater_ids _ _ _ _ E) as Hids.
    simpl. rewrite E.
    destruct (IH _ (sorted_by_id_ids _ _ (eq_sym Hids) Hs)
                ltac:(rewrite (length_ids _ _ Hids); exact Hfuel)) as (final & Ef & Hf).
    + rewrite <- Hall. apply forallb_pointwise. intros l. apply resolved_ids. exact Hids.
    + exists final. split; [exact Ef|]. rewrite Hf. exact Hids.
Qed.

(** Lines that infect other identifiers leave a record as it is. *)
Lemma readMeetingsFile_loop_untouched fuel lines :
  forall pl final k p,
    forallb (infects_other (id p)) lines = true ->
    readMeetingsFile_loop fuel lines pl = Some final ->
    pl !! k = Some p ->
    final !! k = Some p.
Proof.
  induction lines as [|line lines IH]; intros pl final k p Hall Hrun Hk.
  - injection Hrun as <-. exact Hk.
  - simpl in Hall. apply andb_true_iff in Hall as [Ho Hall].
    simpl in Hrun. destruct (probUpdater fuel pl line) as [pl'|] eqn:E; [|discriminate].
    apply (IH pl' final k p Hall Hrun).
    revert E. rewrite probUpdater_parse. unfold infects_other in Ho.
    destruct (parse_meeting line) as [m|]; [|discriminate].
    cbn. unfold update_probability.
    destruct (binarySearchById _ _ (infectorId m) _ _) as [i|]; [|discriminate]. cbn.
    destruct (binarySearchById _ _ (infectedId m) _ _) as [j|] eqn:Ej; [|discriminate]. cbn.
    destruct (load_at pl i) as [pa|]; [|discriminate]. cbn.
    destruct (load_at pl j) as [pb|] eqn:Hj; [|discriminate]. cbn.
    intros [_ ->]%store_inv.
    destruct (binarySearchById_sound _ _ _ _ _ _ Ej) as (q & Hq & Hidq).
    rewrite Hj in Hq. injection Hq as <-.
    apply load_at_Some in Hj as [_ Hj].
    rewrite list_lookup_insert_ne; [exact Hk|].
    intros <-. rewrite Hj in Hk. injection Hk as <-.
    rewrite Hidq, Z.eqb_refl in Ho. discriminate.
Qed.

(** C1.  In an array in ascending order of the identifiers, with meetings
    whose identifiers occur in it: each line is processed, and the line
    [line] replaces the record its infected identifier resolves to by the
    record of the same name, identifier and age whose probability is
    [infector.probability * ((duration * 1.0) / (distance * 30.0))],
    whatever the probability was before, and changes no other record;
    when no later line names this identifier as the infected one, this is
    the record, and so the probability, at this index when the file has
    been read. *)
Theorem probUpdater_last_meeting_wins
    (fuel : nat) (peopleList : list Person) (before after : list string) (line : string)
    (m : Meeting) :
  sorted_by_id peopleList ->
  (length peopleList <= fuel)%nat ->
  forallb (resolved peopleList) (before ++ line :: after) = true ->
  parse_meeting line = Some m ->
  forallb (infects_other (infectedId m)) after = true ->
  exists (mid final : list Person) (i j : Z) (infector infected : Person),
    let value :=
      F32.mul (probability infector)
        (F32.div (F32.mul (durationSeconds m) MIN_DISTANCE) (F32.mul (distance m) MAX_TIME)) in
    let updated :=
      {| name := name infected; id := id infected; age := age infected;
         probability := value |} in
    readMeetingsFile_loop fuel before peopleList = Some mid
    /\ binarySearchById fuel mid (infectorId m) 0 (Z.of_nat (length mid) - 1) = Some i
    /\ load_at mid i = Some infector /\ id infector = infectorId m
    /\ binarySearchById fuel mid (infectedId m) 0 (Z.of_nat (length mid) - 1) = Some j
    /\ load_at mid j = Some infected /\ id infected = infectedId m
    /\ probUpdater fuel mid line = Some (<[Z.to_nat j := updated]> mid)
    /\ readMeetingsFile_loop fuel (before ++ line :: after) peopleList = Some final
    /\ load_at final j = Some updated
    /\ exists r, load_at final j = Some r /\ id r = infectedId m /\ probability r = value.
Proof.
  intros Hs Hfuel Hall Hm Hafter.
  rewrite forallb_app in Hall. apply andb_true_iff in Hall as [Hbefore Hrest].
  simpl in Hrest. apply andb_true_iff in Hrest as [Hline Hrest].
  destruct (readMeetingsFile_loop_total fuel before peopleList Hs Hfuel Hbefore)
    as (mid & Emid & Hidmid).
  pose proof (sorted_by_id_ids _ _ (eq_sym Hidmid) Hs) as Hsmid.
  assert (length mid <= fuel)%nat as Hfmid by (rewrite (length_ids _ _ Hidmid); exact Hfuel).
  rewrite (resolved_ids _ mid _ (eq_sym Hidmid)) in Hline.
  destruct (probUpdater_spec fuel mid line Hsmid Hfmid Hline)
    as (m' & i & j & pa & pb & Hm' & Ei & Hpa & Hida & Ej & Hpb & Hidb & E).
  rewrite Hm in Hm'. injection Hm' as <-.
  set (value := F32.mul (probability pa) (crna (distance m) (durationSeconds m))) in *.
  change (set_probability pb value)
    with {| name := name pb; id := id pb; age := age pb; probability := value |} in E.
  set (updated := {| name := name pb; id := id pb; age := age pb; probability := value |})
    in *.
  set (mid' := <[Z.to_nat j := updated]> mid) in *.
  pose proof (probUpdater_ids _ _ _ _ E) as Hidmid'.
  destruct (readMeetingsFile_loop_total fuel after mid') as (final & Efinal & Hidfinal).
  { apply (sorted_by_id_ids mid); [symmetry; exact Hidmid'|exact Hsmid]. }
  { rewrite (length_ids _ _ Hidmid'). exact Hfmid. }
  { rewrite <- Hrest. apply forallb_pointwise. intros l. apply resolved_ids.
    rewrite Hidmid'. exact Hidmid. }
  assert (load_at final j = Some updated) as Hfinal.
  { apply load_at_Some in Hpb as [Hj0 Hpb]. apply load_at_Some. split; [exact Hj0|].
    apply (readMeetingsFile_loop_untouched fuel after mid' final).
    - simpl. rewrite Hidb. exact Hafter.
    - exact Efinal.
    - unfold mid'. apply list_lookup_insert_eq. eapply lookup_lt_Some. exact Hpb. }
  exists mid, final, i, j, pa, pb. cbv zeta. fold (crna (distance m) (durationSeconds m)).
  fold value. fold updated. fold mid'.
  repeat split; try assumption.
  - rewrite readMeetingsFile_loop_app, Emid. cbn. rewrite E. exact Efinal.
  - exists updated. split; [exact Hfinal|]. split; [exact Hidb|reflexivity].
Qed.

Lemma probUpdater_last_meeting_wins_witness :
  exists (mid final : list Person) (i j : Z) (infector infected : Person),
    let peopleList := [set_probability Alice F32.one; Bob; Carol] in
    let before := [text_line "1 2 1.0 30.0"; text_line "1 3 1.0 3.0"] in
    let line := text_line "2 3 2.0 15.0" in
    let after := [text_line "3 1 1.0 30.0"] in
    let value :=
      F32.mul (probability infector)
        (F32.div (F32.mul (durationSeconds sample_meeting) MIN_DISTANCE)
                 (F32.mul (distance sample_meeting) MAX_TIME)) in
    let updated :=
      {| name := name infected; id := id infected; age := age infected;
         probability := value |} in
    readMeetingsFile_loop 3 before peopleList = Some mid
    /\ binarySearchById 3 mid (infectorId sample_meeting) 0 (Z.of_nat (length mid) - 1) = Some i
    /\ load_at mid i = Some infector /\ id infector = infectorId sample_meeting
    /\ binarySearchById 3 mid (infectedId sample_meeting) 0 (Z.of_nat (length mid) - 1) = Some j
    /\ load_at mid j = Some infected /\ id infected = infectedId sample_meeting
    /\ probUpdater 3 mid line = Some (<[Z.to_nat j := updated]> mid)
    /\ readMeetingsFile_loop 3 (before ++ line :: after) peopleList = Some final
    /\ load_at final j = Some updated
    /\ exists r,
         load_at final j = Some r /\ id r = infectedId sample_meeting
         /\ probability r = value.
Proof.
  apply (probUpdater_last_meeting_wins 3 [set_probability Alice F32.one; Bob; Carol]
           [text_line "1 2 1.0 30.0"; text_line "1 3 1.0 3.0"]
           [text_line "3 1 1.0 30.0"] (text_line "2 3 2.0 15.0") sample_meeting).
  - repeat constructor; vm_compute; discriminate.
  - simpl. lia.
  - vm_compute. reflexivity.
  - vm_compute. reflexivity.
  - vm_compute. reflexivity.
Defined.

(** *** Meetings at distance zero *)

Lemma crna_zero_distance dist time :
  is_zero dist = true -> is_finite (crna dist time) = false.
Proof.
  destruct dist as [s| | |]; try discriminate. intros _.
  unfold crna, F32.div, F32.mul.
  destruct (SFmul F32.prec F32.emax time MIN_DISTANCE) as [?|?| |? ? ?]; reflexivity.
Qed.

Lemma mul_not_finite x y : is_finite y = false -> is_finite (F32.mul x y) = false.
Proof.
  destruct y as [?|?| |? ? ?]; try discriminate; intros _;
    destruct x as [?|?| |? ? ?]; reflexivity.
Qed.

(** C7, as the code has it.  A meeting at distance zero raises no error:
    [probUpdater] returns, and the infected record holds an infinity.  A
    meeting of duration zero raises no error either. *)
Lemma probUpdater_zero_distance_no_error :
  let peopleList := [set_probability Alice F32.one; Bob] in
  probUpdater 2 peopleList (text_line "1 2 0 30")
  = Some [set_probability Alice F32.one; set_probability Bob (S754_infinity false)]
  /\ probUpdater 2 peopleList (text_line "1 2 1 0")
     = Some [set_probability Alice F32.one; set_probability Bob (S754_zero false)].
Proof. split; vm_compute; reflexivity. Qed.

(** C7, amended.  A meeting whose identifiers occur in the sorted array is
    processed whatever its distance and its duration, zero included:
    [probUpdater] makes the division without a guard and returns the
    updated array; with distance zero the probability it stores is an
    infinity or a NaN. *)
Theorem probUpdater_zero_unguarded
    (fuel : nat) (peopleList : list Person) (line : string) (m : Meeting) :
  sorted_by_id peopleList ->
  (length peopleList <= fuel)%nat ->
  resolved peopleList line = true ->
  parse_meeting line = Some m ->
  exists (pl' : list Person) (j : Z) (infected : Person),
    probUpdater fuel peopleList line = Some pl'
    /\ binarySearchById fuel peopleList (infectedId m) 0 (Z.of_nat (length peopleList) - 1)
       = Some j
    /\ load_at pl' j = Some infected
    /\ id infected = infectedId m
    /\ (is_zero (distance m) = true -> is_finite (probability infected) = false).
Proof.
  intros Hs Hfuel Hr Hm.
  destruct (probUpdater_spec fuel peopleList line Hs Hfuel Hr)
    as (m' & i & j & pa & pb & Hm' & Ei & Hpa & Hida & Ej & Hpb & Hidb & E).
  rewrite Hm in Hm'. injection Hm' as <-.
  eexists _, j, _. split; [exact E|]. split; [exact Ej|].
  apply load_at_Some in Hpb as [Hj0 Hpb]. split; [|split].
  - apply load_at_Some. split; [exact Hj0|].
    apply list_lookup_insert_eq. eapply lookup_lt_Some. exact Hpb.
  - exact Hidb.
  - intros Hz. simpl. apply mul_not_finite, crna_zero_distance, Hz.
Qed.

Lemma probUpdater_zero_unguarded_witness :
  exists (pl' : list Person) (j : Z) (infected : Person),
    let peopleList := [set_probability Alice F32.one; Bob] in
    let m := {| infectorId := 1; infectedId := 2;
                distance := F32.zero; durationSeconds := F32.of_Z 30 |} in
    probUpdater 2 peopleList (text_line "1 2 0 30") = Some pl'
    /\ binarySearchById 2 peopleList (infectedId m) 0 (Z.of_nat (length peopleList) - 1)
       = Some j
    /\ load_at pl' j = Some infected
    /\ id infected = infectedId m
    /\ (is_zero (distance m) = true -> is_finite (probability infected) = false).
Proof.
  apply (probUpdater_zero_unguarded 2 [set_probability Alice F32.one; Bob]
           (text_line "1 2 0 30")
           {| infectorId := 1; infectedId := 2;
              distance := F32.zero; durationSeconds := F32.of_Z 30 |}).
  - repeat constructor; vm_compute; discriminate.
  - simpl. lia.
  - vm_compute. reflexivity.
  - vm_compute. reflexivity.
Defined.

(** *** The origin *)

Lemma binarySearchById_has_id fuel peopleList idToFind start end_ i :
  binarySearchById fuel peopleList idToFind start end_ = Some i ->
  has_id peopleList idToFind = true.
Proof.
  intros E. destruct (binarySearchById_sound _ _ _ _ _ _ E) as (q & Hq & Hid).
  apply load_at_Some in Hq as [_ Hq]. unfold has_id. apply existsb_exists.
  exists q. split; [|apply Z.eqb_eq; exact Hid].
  apply list_elem_of_In. eapply list_elem_of_lookup_2. exact Hq.
Qed.

(** What [probUpdater] does when it returns: it has written the
    probability of one record. *)
Lemma probUpdater_inv fuel peopleList line pl' :
  probUpdater fuel peopleList line = Some pl' ->
  exists m j infected x,
    parse_meeting line = Some m
    /\ has_id peopleList (infectorId m) = true
    /\ has_id peopleList (infectedId m) = true
    /\ peopleList !! j = Some infected /\ id infected = infectedId m
    /\ pl' = <[j := set_probability infected x]> peopleList.
Proof.
  rewrite probUpdater_parse. destruct (parse_meeting line) as [m|]; [|discriminate].
  cbn. unfold update_probability.
  destruct (binarySearchById _ _ (infectorId m) _ _) as [i|] eqn:Ei; [|discriminate]. cbn.
  destruct (binarySearchById _ _ (infectedId m) _ _) as [j|] eqn:Ej; [|discriminate]. cbn.
  destruct (load_at peopleList i) as [pa|]; [|discriminate]. cbn.
  destruct (load_at peopleList j) as [pb|] eqn:Hj; [|discriminate]. cbn.
  intros [_ ->]%store_inv.
  destruct (binarySearchById_sound _ _ _ _ _ _ Ej) as (q & Hq & Hidq).
  rewrite Hj in Hq. injection Hq as <-.
  apply load_at_Some in Hj as [_ Hj].
  exists m, (Z.to_nat j), pb, (F32.mul (probability pa) (crna (distance m) (durationSeconds m))).
  repeat split; try assumption; try reflexivity.
  - eapply binarySearchById_has_id. exact Ei.
  - eapply binarySearchById_has_id. exact Ej.
Qed.

Lemma insert_set_probability_data (pl : list Person) j p x :
  pl !! j = Some p ->
  without_probability <$> <[j := set_probability p x]> pl = without_probability <$> pl.
Proof.
  intros Hj. rewrite list_fmap_insert.
  apply list_insert_id. rewrite list_lookup_fmap, Hj. reflexivity.
Qed.

Lemma readMeetingsFile_loop_data fuel lines :
  forall pl final,
    readMeetingsFile_loop fuel lines pl = Some final ->
    without_probability <$> final = without_probability <$> pl.
Proof.
  induction lines as [|line lines IH]; intros pl final H.
  - injection H as <-. reflexivity.
  - simpl in H. destruct (probUpdater fuel pl line) as [pl'|] eqn:E; [|discriminate].
    rewrite (IH _ _ H).
    destruct (probUpdater_inv _ _ _ _ E) as (m & j & pb & x & _ & _ & _ & Hj & _ & ->).
    apply insert_set_probability_data. exact Hj.
Qed.

(** C10.  The origin is not protected.  In an array in ascending order of
    the identifiers, [readMeetingsFile] sets the probability of the record
    the identifier of the first line resolves to to [1.0]; a meeting
    whose infected identifier is the one of the origin resolves to the
    same record and, when no later meeting names the origin as infected,
    the record holds [infector.probability * crna (distance, duration)]
    when the file has been read, as for any other infected person.  So
    with the origin [1], the meeting in which [1] infects [2] for half
    of [MAX_TIME] and the meeting in which [2] infects [1], the origin
    ends with the probability [0.5], not [1.0]. *)
Theorem origin_probability_overwritten :
  (forall (fuel : nat) (peopleList : list Person) (first : string)
          (before after : list string) (line : string) (m : Meeting),
      sorted_by_id peopleList ->
      (length peopleList <= fuel)%nat ->
      has_id peopleList (to_ulong (Libc.strtol_string first)) = true ->
      forallb (resolved peopleList) (before ++ line :: after) = true ->
      parse_meeting line = Some m ->
      infectedId m = to_ulong (Libc.strtol_string first) ->
      forallb (infects_other (infectedId m)) after = true ->
      exists (k i : Z) (origin infector : Person) (initialised mid final : list Person),
        binarySearchById fuel peopleList (to_ulong (Libc.strtol_string first)) 0
          (Z.of_nat (length peopleList) - 1) = Some k
        /\ load_at peopleList k = Some origin
        /\ readMeetingsFile fuel [first] peopleList = Some initialised
        /\ load_at initialised k
           = Some {| name := name origin; id := id origin; age := age origin;
                     probability := F32.of_Z 1 |}
        /\ readMeetingsFile fuel (first :: before) peopleList = Some mid
        /\ binarySearchById fuel mid (infectorId m) 0 (Z.of_nat (length mid) - 1) = Some i
        /\ load_at mid i = Some infector
        /\ binarySearchById fuel mid (infectedId m) 0 (Z.of_nat (length mid) - 1) = Some k
        /\ readMeetingsFile fuel (first :: before ++ line :: after) peopleList = Some final
        /\ load_at final k
           = Some {| name := name origin; id := id origin; age := age origin;
                     probability :=
                       F32.mul (probability infector)
                         (crna (distance m) (durationSeconds m)) |})
  /\ (let peopleList := [Alice; Bob] in
      let meetingsFile :=
        [text_line "1"; text_line "1 2 1.0 15.0"; text_line "2 1 1.0 30.0"] in
      readMeetingsFile 2 [text_line "1"] peopleList
      = Some [sample_person "Alice" 1 30 (F32.of_Z 1); Bob]
      /\ readMeetingsFile 2 meetingsFile peopleList
         = Some [sample_person "Alice" 1 30 (F32.of_ratio 1 2);
                 sample_person "Bob" 2 40 (F32.of_ratio 1 2)]
      /\ F32.of_ratio 1 2 <> F32.of_Z 1).
Proof.
  split.
  - intros fuel peopleList first before after line m Hs Hfuel Hid Hall Hm Horigin Hafter.
    destruct (binarySearchById_whole fuel peopleList _ Hs Hid Hfuel)
      as (k & origin & Ek & Hk & Horig & Hidorig).
    set (initialised :=
           <[Z.to_nat k := set_probability origin (F32.of_Z 1)]> peopleList).
    assert (forall lines,
               readMeetingsFile fuel (first :: lines) peopleList
               = readMeetingsFile_loop fuel lines initialised) as Hread.
    { intros lines. unfold readMeetingsFile.
      cbn [fmap option_fmap option_map Libc.strtol mbind option_bind].
      rewrite Ek. cbn [mbind option_bind]. rewrite Horig. cbn [mbind option_bind].
      rewrite store_Some by lia. reflexivity. }
    assert (id <$> initialised = id <$> peopleList) as Hids.
    { apply insert_set_probability_ids. apply load_at_Some in Horig as [_ H]. exact H. }
    pose proof (sorted_by_id_ids _ _ (eq_sym Hids) Hs) as Hs'.
    assert (length initialised <= fuel)%nat as Hfuel'
        by (rewrite (length_ids _ _ Hids); exact Hfuel).
    assert (forallb (resolved initialised) (before ++ line :: after) = true) as Hall'.
    { rewrite <- Hall. apply forallb_pointwise. intros l. apply resolved_ids. exact Hids. }
    rewrite forallb_app in Hall'. apply andb_true_iff in Hall' as [Hbefore Hrest].
    cbn [forallb] in Hrest. apply andb_true_iff in Hrest as [Hline Hrest].
    destruct (readMeetingsFile_loop_total fuel before initialised Hs' Hfuel' Hbefore)
      as (mid & Emid & Hidmid').
    assert (id <$> mid = id <$> peopleList) as Hidmid by (rewrite Hidmid'; exact Hids).
    pose proof (sorted_by_id_ids _ _ (eq_sym Hidmid) Hs) as Hsmid.
    assert (length mid <= fuel)%nat as Hfmid by (rewrite (length_ids _ _ Hidmid); exact Hfuel).
    rewrite (resolved_ids _ mid _ (eq_sym Hidmid')) in Hline.
    destruct (probUpdater_spec fuel mid line Hsmid Hfmid Hline)
      as (m' & i & j & infector & infected & Hm' & Ei & Hinf & _ & Ej & Hinfd & Hidb & Eline).
    rewrite Hm in Hm'. injection Hm' as <-.
    pose proof (probUpdater_ids _ _ _ _ Eline) as Hidmid2.
    destruct (readMeetingsFile_loop_total fuel after
                (<[Z.to_nat j :=
                     set_probability infected
                       (F32.mul (probability infector)
                          (crna (distance m) (durationSeconds m)))]> mid))
      as (final & Efinal & _).
    { apply (sorted_by_id_ids mid); [symmetry; exact Hidmid2|exact Hsmid]. }
    { rewrite (length_ids _ _ Hidmid2). exact Hfmid. }
    { rewrite <- Hrest. apply forallb_pointwise. intros l. apply resolved_ids.
      rewrite Hidmid2. exact Hidmid'. }
    assert (load_at final j
            = Some (set_probability infected
                      (F32.mul (probability infector)
                         (crna (distance m) (durationSeconds m))))) as Hfinal.
    { apply load_at_Some in Hinfd as [Hj0 Hinfd]. apply load_at_Some. split; [exact Hj0|].
      eapply (readMeetingsFile_loop_untouched fuel after).
      - simpl. rewrite Hidb. exact Hafter.
      - exact Efinal.
      - apply list_lookup_insert_eq. eapply lookup_lt_Some. exact Hinfd. }
    assert (readMeetingsFile_loop fuel (before ++ line :: after) initialised = Some final)
      as Eall.
    { rewrite readMeetingsFile_loop_app, Emid. cbn. rewrite Eline. exact Efinal. }
    assert (j = k) as ->.
    { rewrite (binarySearchById_ids fuel mid peopleList _ _ _ Hidmid) in Ej.
      rewrite (length_ids _ _ Hidmid), Horigin, Ek in Ej. injection Ej as <-. reflexivity. }
    assert (load_at initialised k = Some (set_probability origin (F32.of_Z 1))) as Hinit.
    { apply load_at_Some in Horig as [Hk0 Horig]. apply load_at_Some. split; [exact Hk0|].
      apply list_lookup_insert_eq. eapply lookup_lt_Some. exact Horig. }
    assert (name infected = name origin /\ id infected = id origin
            /\ age infected = age origin) as (Hn & Hi & Ha).
    { assert (without_probability <$> load_at mid k
              = without_probability <$> load_at initialised k) as Hd.
      { pose proof (readMeetingsFile_loop_data _ _ _ _ Emid) as Hd.
        unfold load_at, load. destruct (0 <=? k); [|reflexivity].
        rewrite <- !list_lookup_fmap, Hd. reflexivity. }
      rewrite Hinfd, Hinit in Hd. injection Hd as -> -> ->. auto. }
    exists k, i, origin, infector, initialised, mid, final.
    split; [exact Ek|]. split; [exact Horig|].
    split; [rewrite Hread; reflexivity|]. split; [exact Hinit|].
    split; [rewrite Hread; exact Emid|]. split; [exact Ei|]. split; [exact Hinf|].
    split; [exact Ej|]. split; [rewrite Hread; exact Eall|].
    rewrite Hfinal. unfold set_probability. rewrite Hn, Hi, Ha. reflexivity.
  - cbv zeta. split; [vm_compute; reflexivity|]. split; [vm_compute; reflexivity|].
    vm_compute. discriminate.
Qed.

Lemma origin_probability_overwritten_witness :
  let peopleList := [Alice; Bob] in
  let first := text_line "1" in
  let before := [text_line "1 2 1.0 15.0"] in
  let line := text_line "2 1 1.0 30.0" in
  let m := {| infectorId := 2; infectedId := 1;
              distance := F32.of_Z 1; durationSeconds := F32.of_Z 30 |} in
  exists (k i : Z) (origin infector : Person) (initialised mid final : list Person),
    binarySearchById 2 peopleList (to_ulong (Libc.strtol_string first)) 0
      (Z.of_nat (length peopleList) - 1) = Some k
    /\ load_at peopleList k = Some origin
    /\ readMeetingsFile 2 [first] peopleList = Some initialised
    /\ load_at initialised k
       = Some {| name := name origin; id := id origin; age := age origin;
                 probability := F32.of_Z 1 |}
    /\ readMeetingsFile 2 (first :: before) peopleList = Some mid
    /\ binarySearchById 2 mid (infectorId m) 0 (Z.of_nat (length mid) - 1) = Some i
    /\ load_at mid i = Some infector
    /\ binarySearchById 2 mid (infectedId m) 0 (Z.of_nat (length mid) - 1) = Some k
    /\ readMeetingsFile 2 (first :: before ++ line :: []) peopleList = Some final
    /\ load_at final k
       = Some {| name := name origin; id := id origin; age := age origin;
                 probability :=
                   F32.mul (probability infector)
                     (crna (distance m) (durationSeconds m)) |}.
Proof.
  apply (proj1 origin_probability_overwritten 2%nat [Alice; Bob] (text_line "1")
           [text_line "1 2 1.0 15.0"] [] (text_line "2 1 1.0 30.0")
           {| infectorId := 2; infectedId := 1;
              distance := F32.of_Z 1; durationSeconds := F32.of_Z 30 |}).
  - repeat constructor; vm_compute; discriminate.
  - simpl. lia.
  - vm_compute. reflexivity.
  - vm_compute. reflexivity.
  - vm_compute. reflexivity.
  - vm_compute. reflexivity.
  - reflexivity.
Defined.

(** ** The reporter *)

Lemma writeOutput_loop_spec peopleList k :
  (k <= length peopleList)%nat ->
  writeOutput_loop peopleList k = Some (writeOutput_body <$> reverse (take k peopleList)).
Proof.
  induction k as [|i IH]; intros Hk.
  - rewrite take_0. reflexivity.
  - cbn [writeOutput_loop]. unfold load.
    destruct (lookup_lt_is_Some_2 peopleList i) as [p Hp]; [lia|].
    rewrite Hp, IH by lia.
    rewrite (take_S_r _ _ _ Hp), reverse_snoc. reflexivity.
Qed.

(** Every text written is one of the three templates applied to the name
    and the identifier of the person. *)
Lemma writeOutput_body_template p :
  exists prefix,
    prefix ∈ [MEDICAL_SUPERVISION_THRESHOLD_MSG_PREFIX; REGULAR_QUARANTINE_MSG_PREFIX;
              CLEAN_MSG_PREFIX]
    /\ writeOutput_body p = render prefix (name p) (id p).
Proof.
  unfold writeOutput_body.
  destruct (_ || _).
  - eexists. split; [|reflexivity]. apply elem_of_cons. left. reflexivity.
  - destruct (_ || _).
    + eexists. split; [|reflexivity]. apply elem_of_cons. right.
      apply elem_of_cons. left. reflexivity.
    + eexists. split; [|reflexivity]. do 2 (apply elem_of_cons; right).
      apply elem_of_cons. left. reflexivity.
Qed.

(** C4.  For an array in ascending order of the probabilities,
    [writeOutput] writes one text per person, walking the array from its
    last index to its first: the text of rank [k] is the one of the person
    at the index [length - 1 - k]; it is made of one of the three
    prefixes, the name of this person, a blank, the identifier in decimal
    digits, a full stop and a newline.  The person of a text has a
    greater probability than the person of the text before only if the
    two probabilities are less than [EPSILON] apart. *)
Theorem writeOutput_descending (peopleList : list Person) :
  Sorted (not_greater probCompare) peopleList ->
  exists out,
    writeOutput peopleList = Some out
    /\ out = writeOutput_body <$> reverse peopleList
    /\ length out = length peopleList
    /\ (forall (k : nat) (p : Person),
          (k < length peopleList)%nat ->
          peopleList !! (length peopleList - 1 - k)%nat = Some p ->
          exists prefix,
            prefix ∈ [MEDICAL_SUPERVISION_THRESHOLD_MSG_PREFIX;
                      REGULAR_QUARANTINE_MSG_PREFIX; CLEAN_MSG_PREFIX]
            /\ out !! k
               = Some (String.append prefix
                         (String.append (name p)
                            (String.append " "
                               (String.append
                                  (NilZero.string_of_uint (N.to_uint (Z.to_N (id p))))
                                  (String "."%char (String "010"%char EmptyString)))))))
    /\ (forall (k : nat) (p q : Person),
          (S k < length peopleList)%nat ->
          peopleList !! (length peopleList - 1 - k)%nat = Some p ->
          peopleList !! (length peopleList - 1 - S k)%nat = Some q ->
          F32.gt (probability q) (probability p) = true ->
          F64.lt (F64.of_float (F32.fabsf (F32.sub (probability q) (probability p))))
            EPSILON = true).
Proof.
  intros Hs. exists (writeOutput_body <$> reverse peopleList).
  split; [unfold writeOutput; rewrite writeOutput_loop_spec by lia;
          rewrite firstn_all; reflexivity|].
  split; [reflexivity|].
  split; [rewrite length_fmap, length_reverse; reflexivity|].
  split.
  - intros k p Hk Hp.
    destruct (writeOutput_body_template p) as (prefix & Hprefix & Hbody).
    exists prefix. split; [exact Hprefix|].
    rewrite list_lookup_fmap, reverse_lookup by exact Hk.
    replace (length peopleList - S k)%nat with (length peopleList - 1 - k)%nat by lia.
    rewrite Hp. cbn [fmap option_fmap option_map]. rewrite Hbody. reflexivity.
  - intros k p q Hk Hp Hq Hgt.
    assert (not_greater probCompare q p) as Hqp.
    { assert (forall l i x y,
                 Sorted (not_greater probCompare) l ->
                 l !! i = Some x -> l !! S i = Some y -> not_greater probCompare x y) as Hadj.
      { intros l i x y Hl. revert i. induction Hl as [|a l Hl IH Ha]; intros i Hx Hy.
        - discriminate.
        - destruct i as [|i].
          + injection Hx as <-. simpl in Hy. destruct l as [|b l]; [discriminate|].
            injection Hy as <-. inversion Ha. assumption.
          + apply (IH i); assumption. }
      apply (Hadj peopleList (length peopleList - 1 - S k)%nat q p Hs Hq).
      replace (S (length peopleList - 1 - S k)) with (length peopleList - 1 - k)%nat by lia.
      exact Hp. }
    unfold not_greater, probCompare in Hqp. cbv zeta in Hqp.
    destruct (F64.lt _ EPSILON); [reflexivity|].
    rewrite Hgt in Hqp. unfold GREATER in Hqp. lia.
Qed.

Lemma writeOutput_descending_witness :
  exists out,
    let peopleList := [Carol; set_probability Bob F32.one] in
    writeOutput peopleList = Some out
    /\ out = writeOutput_body <$> reverse peopleList
    /\ length out = length peopleList
    /\ (forall (k : nat) (p : Person),
          (k < length peopleList)%nat ->
          peopleList !! (length peopleList - 1 - k)%nat = Some p ->
          exists prefix,
            prefix ∈ [MEDICAL_SUPERVISION_THRESHOLD_MSG_PREFIX;
                      REGULAR_QUARANTINE_MSG_PREFIX; CLEAN_MSG_PREFIX]
            /\ out !! k
               = Some (String.append prefix
                         (String.append (name p)
                            (String.append " "
                               (String.append
                                  (NilZero.string_of_uint (N.to_uint (Z.to_N (id p))))
                                  (String "."%char (String "010"%char EmptyString)))))))
    /\ (forall (k : nat) (p q : Person),
          (S k < length peopleList)%nat ->
          peopleList !! (length peopleList - 1 - k)%nat = Some p ->
          peopleList !! (length peopleList - 1 - S k)%nat = Some q ->
          F32.gt (probability q) (probability p) = true ->
          F64.lt (F64.of_float (F32.fabsf (F32.sub (probability q) (probability p))))
            EPSILON = true).
Proof.
  apply (writeOutput_descending [Carol; set_probability Bob F32.one]).
  repeat constructor; vm_compute; discriminate.
Defined.

(** ** Ingestion *)

Lemma strtol_string_no_digit tok :
  begins_with_digit tok = false -> Libc.strtol_string tok = 0.
Proof.
  unfold begins_with_digit, Libc.strtol_string.
  destruct (Libc.read_sign _) as [neg s1]. simpl.
  destruct s1 as [|c s1]; simpl.
  - intros _. destruct neg; reflexivity.
  - intros ->. destruct neg; reflexivity.
Qed.

Lemma fillPerson_tokens h line temp tok2 tok3 :
  people_tokens line = (Some temp, Some tok2, Some tok3) ->
  fillPerson h line
  = Some (if fst (allocate h) then SUCCESS (person_of_tokens temp tok2 tok3) else FAILURE,
          snd (allocate h)).
Proof.
  unfold people_tokens, fillPerson.
  destruct (Libc.strtok (Some line) _) as [t1 saved1].
  destruct (Libc.strtok None saved1) as [t2 saved2].
  destruct (Libc.strtok None saved2) as [t3 saved3].
  intros [= -> -> ->]. destruct (allocate h) as [[] h']; reflexivity.
Qed.

Lemma readPeopleFile_loop_served lines :
  forall peopleList capacity persons,
    mapM person_of_line lines = Some persons ->
    readPeopleFile_loop lines [] peopleList capacity = Returns (peopleList ++ persons).
Proof.
  induction lines as [|line lines IH]; intros pl cap persons Hm.
  - injection Hm as <-. rewrite app_nil_r. reflexivity.
  - cbn in Hm. destruct (person_of_line line) as [p|] eqn:Hp; [|discriminate].
    cbn in Hm. destruct (mapM person_of_line lines) as [ps|] eqn:Hps; [|discriminate].
    injection Hm as <-. unfold person_of_line in Hp.
    destruct (people_tokens line) as [[[temp|] [tok2|]] [tok3|]] eqn:Ht; try discriminate.
    injection Hp as <-.
    cbn [readPeopleFile_loop]. rewrite (fillPerson_tokens [] line _ _ _ Ht). cbn.
    destruct (_ =? _); cbn; rewrite (IH _ _ ps eq_refl), <- app_assoc; reflexivity.
Qed.

(** C6, as the code has it.  A line whose identifier is not a number is
    malformed, yet [fillPerson] returns [SUCCESS] with the identifier 0, and
    [readPeopleFile] stores the record. *)
Lemma fillPerson_accepts_malformed :
  let line := text_line "Bob abc 40" in
  let person := {| name := "Bob"; id := 0; age := F32.of_Z 40; probability := F32.zero |} in
  malformed line = true
  /\ fillPerson [] line = Some (SUCCESS person, [])
  /\ readPeopleFile [] [line] = Returns [person].
Proof. repeat split; vm_compute; reflexivity. Qed.

(** C6, amended.  For a line with its three fields, numeric or not:
    [fillPerson] returns [FAILURE] only when the allocation of the name
    fails; otherwise it returns [SUCCESS] with the name, the identifier
    [strtol] reads from the second token and the age [strtof] reads from the
    third, the identifier being 0 when the token does not begin with a
    digit.  When all lines have their fields and the allocator serves every
    request, [readPeopleFile] returns one record per line. *)
Theorem fillPerson_no_validation
    (h : heap) (line temp tok2 tok3 : string) (lines : list string) (persons : list Person) :
  people_tokens line = (Some temp, Some tok2, Some tok3) ->
  mapM person_of_line lines = Some persons ->
  fillPerson h line
  = Some (if fst (allocate h) then SUCCESS (person_of_tokens temp tok2 tok3) else FAILURE,
          snd (allocate h))
  /\ (begins_with_digit tok2 = false -> id (person_of_tokens temp tok2 tok3) = 0)
  /\ readPeopleFile [] lines = Returns persons
  /\ length persons = length lines.
Proof.
  intros Ht Hm. split; [apply fillPerson_tokens; exact Ht|]. split; [|split].
  - intros Hd. simpl. rewrite (strtol_string_no_digit _ Hd). reflexivity.
  - unfold readPeopleFile. cbn. apply (readPeopleFile_loop_served lines [] _ persons Hm).
  - symmetry. eapply length_mapM. exact Hm.
Qed.

Lemma fillPerson_no_validation_witness :
  let line := text_line "Bob abc 40" in
  let lines := [text_line "Alice 1 30"; line] in
  let persons := [set_probability Alice (F32.of_Z 0);
                  {| name := "Bob"; id := 0; age := F32.of_Z 40; probability := F32.zero |}] in
  fillPerson [false] line
  = Some (if fst (allocate [false]) then SUCCESS (person_of_tokens "Bob" "abc" (text_line "40"))
          else FAILURE, snd (allocate [false]))
  /\ (begins_with_digit "abc" = false -> id (person_of_tokens "Bob" "abc" (text_line "40")) = 0)
  /\ readPeopleFile [] lines = Returns persons
  /\ length persons = length lines.
Proof.
  apply (fillPerson_no_validation [false] (text_line "Bob abc 40") "Bob" "abc" (text_line "40")
           [text_line "Alice 1 30"; text_line "Bob abc 40"]).
  - vm_compute. reflexivity.
  - vm_compute. reflexivity.
Defined.

(** ** Rounding keeps the order of magnitude *)

Lemma digits2_pos_size p : digits2_pos p = Pos.size p.
Proof. induction p as [p IH|p IH|]; simpl; rewrite ?IH; reflexivity. Qed.

(** The number of binary digits of a positive number: the [d] with
    [2^(d-1) <= m < 2^d]. *)
Lemma Zdigits2_log2 m : 0 < m -> Zdigits2 m = Z.log2 m + 1.
Proof.
  destruct m as [|p|p]; try lia. intros _. simpl. rewrite digits2_pos_size.
  destruct p as [p|p|]; simpl; lia.
Qed.

Lemma Zdigits2_bounds m : 0 < m -> 2 ^ (Zdigits2 m - 1) <= m < 2 ^ Zdigits2 m.
Proof.
  intros Hm. rewrite (Zdigits2_log2 m Hm).
  replace (Z.log2 m + 1 - 1) with (Z.log2 m) by lia.
  apply Z.log2_spec. exact Hm.
Qed.

Lemma Zdigits2_pos m : 0 < m -> 0 < Zdigits2 m.
Proof. intros Hm. rewrite (Zdigits2_log2 m Hm). pose proof (Z.log2_nonneg m). lia. Qed.

Lemma Zdigits2_le m n : 0 < m -> m <= n -> Zdigits2 m <= Zdigits2 n.
Proof.
  intros Hm Hmn. rewrite !Zdigits2_log2 by lia.
  pose proof (Z.log2_le_mono m n Hmn). lia.
Qed.

Lemma Zdigits2_ge_pow2 m k : 0 <= k -> 2 ^ k <= m -> k + 1 <= Zdigits2 m.
Proof.
  intros Hk Hm. assert (0 < m) by (pose proof (Z.pow_pos_nonneg 2 k); lia).
  rewrite Zdigits2_log2 by lia.
  pose proof (Z.log2_le_mono _ _ Hm) as H'. rewrite Z.log2_pow2 in H' by lia. lia.
Qed.

Lemma Zdigits2_mul_pow2 m k : 0 < m -> 0 <= k -> Zdigits2 (m * 2 ^ k) = Zdigits2 m + k.
Proof.
  intros Hm Hk. assert (0 < 2 ^ k) by (apply Z.pow_pos_nonneg; lia).
  rewrite !Zdigits2_log2 by nia. rewrite Z.log2_mul_pow2 by lia. lia.
Qed.

Lemma Zdigits2_div_pow2 m k :
  0 < m -> 0 <= k < Zdigits2 m ->
  0 < m / 2 ^ k /\ Zdigits2 (m / 2 ^ k) = Zdigits2 m - k.
Proof.
  intros Hm Hk. rewrite (Zdigits2_log2 m Hm) in Hk.
  assert (0 < m / 2 ^ k) as Hpos.
  { apply Z.div_str_pos. split; [apply Z.pow_pos_nonneg; lia|].
    transitivity (2 ^ Z.log2 m); [apply Z.pow_le_mono_r; lia|].
    apply Z.log2_spec. exact Hm. }
  split; [exact Hpos|]. rewrite !Zdigits2_log2 by lia.
  rewrite <- Z.shiftr_div_pow2 by lia. rewrite Z.log2_shiftr by lia. lia.
Qed.

Lemma shr_m_shr_1 mrs : 0 <= shr_m mrs -> shr_m (shr_1 mrs) = shr_m mrs / 2.
Proof.
  destruct mrs as [m r s]. simpl. intros Hm.
  destruct m as [|[p|p|]|p]; try lia; simpl.
  - reflexivity.
  - rewrite Pos2Z.inj_xI. rewrite Z.mul_comm, Z.div_add_l by lia. reflexivity.
  - rewrite Pos2Z.inj_xO. rewrite Z.mul_comm, Z.div_mul by lia. reflexivity.
  - reflexivity.
Qed.

Lemma pow2_xO p : 2 ^ Z.pos p~0 = 2 ^ Z.pos p * 2 ^ Z.pos p.
Proof. rewrite <- Z.pow_add_r by lia. f_equal. lia. Qed.

Lemma pow2_xI p : 2 ^ Z.pos p~1 = 2 * (2 ^ Z.pos p * 2 ^ Z.pos p).
Proof.
  rewrite <- Z.pow_add_r, <- Z.pow_succ_r by lia. f_equal. lia.
Qed.

Lemma shr_m_iter_pos p :
  forall mrs, 0 <= shr_m mrs -> shr_m (SpecFloat.iter_pos shr_1 p mrs) = shr_m mrs / 2 ^ Zpos p.
Proof.
  assert (forall mrs, 0 <= shr_m mrs -> 0 <= shr_m (shr_1 mrs)) as Hnn.
  { intros mrs H. rewrite shr_m_shr_1 by exact H. apply Z.div_pos; lia. }
  induction p as [p IH|p IH|]; intros mrs Hm; cbn [SpecFloat.iter_pos].
  - assert (0 <= shr_m (SpecFloat.iter_pos shr_1 p (shr_1 mrs))) as H1.
    { rewrite IH by auto. apply Z.div_pos; [auto|]. apply Z.pow_pos_nonneg; lia. }
    rewrite IH by exact H1. rewrite IH by auto. rewrite shr_m_shr_1 by exact Hm.
    rewrite !Z.div_div by (try apply Z.pow_pos_nonneg; lia).
    rewrite pow2_xI. reflexivity.
  - assert (0 <= shr_m (SpecFloat.iter_pos shr_1 p mrs)) as H1.
    { rewrite IH by auto. apply Z.div_pos; [auto|]. apply Z.pow_pos_nonneg; lia. }
    rewrite IH by exact H1. rewrite IH by auto.
    rewrite !Z.div_div by (try apply Z.pow_pos_nonneg; lia).
    rewrite pow2_xO. reflexivity.
  - rewrite shr_m_shr_1 by exact Hm. reflexivity.
Qed.

Lemma shr_m_shr_record_of_loc m l : shr_m (shr_record_of_loc m l) = m.
Proof. destruct l as [|[]]; reflexivity. Qed.

Lemma round_nearest_even_bounds m l : m <= round_nearest_even m l <= m + 1.
Proof. destruct l as [|[]]; simpl; try destruct (Z.even m); lia. Qed.

Lemma Pos_iter_xO m d : Zpos (Pos.iter xO m d) = Zpos m * 2 ^ Zpos d.
Proof.
  revert m. induction d as [|d IH] using Pos.peano_ind; intros m.
  - simpl. lia.
  - rewrite Pos.iter_succ, Pos2Z.inj_xO, IH, Pos2Z.inj_succ, Z.pow_succ_r by lia. lia.
Qed.

Section Rounding.
Variables prec emax : Z.
Hypothesis prec_pos : 0 < prec.

Local Abbreviation fexp := (fexp prec emax).
Local Abbreviation emin := (emin prec emax).

Lemma fexp_mono a b : a <= b -> fexp a <= fexp b.
Proof. unfold SpecFloat.fexp. lia. Qed.

Lemma fexp_lt a : emin < a -> fexp a < a.
Proof. unfold SpecFloat.fexp. lia. Qed.

(** [shr_fexp] when the exponent is not above the target exponent: the
    mantissa is divided by the power of two that brings it there. *)
Lemma shr_fexp_spec m e l :
  0 < m -> e <= fexp (Zdigits2 m + e) ->
  let n := fexp (Zdigits2 m + e) - e in
  let '(mrs, e') := shr_fexp prec emax m e l in
  shr_m mrs = m / 2 ^ n /\ e' = e + n.
Proof.
  intros Hm He n. unfold shr_fexp, shr. fold n.
  destruct n as [|p|p] eqn:Hn; try lia.
  - rewrite shr_m_shr_record_of_loc, Z.div_1_r. lia.
  - rewrite shr_m_iter_pos by (rewrite shr_m_shr_record_of_loc; lia).
    rewrite shr_m_shr_record_of_loc. lia.
Qed.

(** The result of [binary_round_aux] on a mantissa whose exponent is not
    above the target: unless it is an infinity, it is a number in canonical
    form of at least the magnitude of the input. *)
Lemma binary_round_aux_magnitude sx mx ex lx :
  let mag := Zdigits2 (Zpos mx) + ex in
  emin < mag -> ex <= fexp mag ->
  binary_round_aux prec emax sx (Zpos mx) ex lx = S754_infinity sx
  \/ exists m e,
       binary_round_aux prec emax sx (Zpos mx) ex lx = S754_finite sx m e
       /\ mag <= Zdigits2 (Zpos m) + e
       /\ e = fexp (Zdigits2 (Zpos m) + e).
Proof.
  intros mag Hmag Hex. unfold binary_round_aux.
  pose proof (shr_fexp_spec (Zpos mx) ex lx ltac:(lia) Hex) as H1. cbv zeta in H1.
  destruct (shr_fexp prec emax (Zpos mx) ex lx) as [mrs' e'].
  destruct H1 as [Hm' He']. fold mag in Hm', He'.
  set (n1 := fexp mag - ex) in *.
  assert (0 <= n1 < Zdigits2 (Zpos mx)) as Hn1.
  { unfold n1. pose proof (fexp_lt mag Hmag). unfold mag in *. lia. }
  destruct (Zdigits2_div_pow2 (Zpos mx) n1 ltac:(lia) Hn1) as [Hpos' Hd'].
  rewrite <- Hm' in Hpos', Hd'.
  set (m1 := round_nearest_even (shr_m mrs') (loc_of_shr_record mrs')).
  pose proof (round_nearest_even_bounds (shr_m mrs') (loc_of_shr_record mrs')) as Hm1.
  fold m1 in Hm1.
  assert (0 < m1) as Hm1pos by lia.
  assert (Zdigits2 (shr_m mrs') <= Zdigits2 m1) as Hd1 by (apply Zdigits2_le; lia).
  assert (e' = fexp mag) as He'mag by (unfold n1 in He'; lia).
  assert (mag <= Zdigits2 m1 + e') as Hmag1 by (unfold mag, n1 in *; lia).
  pose proof (fexp_mono _ _ Hmag1) as Hmono.
  pose proof (shr_fexp_spec m1 e' loc_Exact Hm1pos ltac:(lia)) as H2. cbv zeta in H2.
  destruct (shr_fexp prec emax m1 e' loc_Exact) as [mrs'' e''].
  destruct H2 as [Hm'' He''].
  set (n2 := fexp (Zdigits2 m1 + e') - e') in *.
  assert (0 <= n2 < Zdigits2 m1) as Hn2.
  { unfold n2. pose proof (fexp_lt (Zdigits2 m1 + e') ltac:(lia)). lia. }
  destruct (Zdigits2_div_pow2 m1 n2 Hm1pos Hn2) as [Hpos'' Hd''].
  rewrite <- Hm'' in Hpos'', Hd''.
  destruct (shr_m mrs'') as [|m|m] eqn:Hshr; try lia.
  destruct (e'' <=? emax - prec); [right|left; reflexivity].
  exists m, e''. split; [reflexivity|].
  assert (Zdigits2 (Z.pos m) + e'' = Zdigits2 m1 + e') as Hsame by (unfold n2 in *; lia).
  split; [lia|]. rewrite Hsame. unfold n2 in He''. lia.
Qed.

Lemma binary_round_magnitude sx mx ex :
  let mag := Zdigits2 (Zpos mx) + ex in
  emin < mag ->
  binary_round prec emax sx mx ex = S754_infinity sx
  \/ exists m e,
       binary_round prec emax sx mx ex = S754_finite sx m e
       /\ mag <= Zdigits2 (Zpos m) + e
       /\ e = fexp (Zdigits2 (Zpos m) + e).
Proof.
  intros mag Hmag. unfold binary_round, shl_align.
  change (Z.pos (digits2_pos mx)) with (Zdigits2 (Zpos mx)). fold mag.
  destruct (fexp mag - ex) as [|d|d] eqn:Hd.
  - apply binary_round_aux_magnitude; fold mag; [exact Hmag|]. clearbody mag. lia.
  - apply binary_round_aux_magnitude; fold mag; [exact Hmag|]. clearbody mag. lia.
  - assert (Zdigits2 (Zpos (Pos.iter xO mx d)) + fexp mag = mag) as Hsame.
    { rewrite Pos_iter_xO, Zdigits2_mul_pow2 by lia. subst mag. lia. }
    pose proof (binary_round_aux_magnitude sx (Pos.iter xO mx d) (fexp mag) loc_Exact) as H.
    cbv zeta in H. rewrite Hsame in H. apply H; [exact Hmag|]. clearbody mag. lia.
Qed.
End Rounding.

(** ** The tiers *)

Lemma to_Q_units x :
  (match x with S754_finite _ _ e => -149 <= e | _ => True end) ->
  (to_Q x * inject_Z (2 ^ 149) == inject_Z (units x))%Q.
Proof.
  destruct x as [s|s| |s m e]; intros He; try reflexivity.
  unfold to_Q, units. rewrite inject_Z_mult.
  rewrite (Zpower_Qpower 2 (e + 149)) by lia.
  rewrite (Zpower_Qpower 2 149) by lia.
  rewrite Qpower_plus by discriminate.
  change (inject_Z 2) with (2 # 1). ring.
Qed.

Lemma to_Q_le x y :
  (match x with S754_finite _ _ e => -149 <= e | _ => True end) ->
  (match y with S754_finite _ _ e => -149 <= e | _ => True end) ->
  units x <= units y -> (to_Q x <= to_Q y)%Q.
Proof.
  intros Hx Hy Hu.
  apply (Qmult_le_r _ _ (inject_Z (2 ^ 149))); [reflexivity|].
  rewrite (to_Q_units x Hx), (to_Q_units y Hy).
  rewrite <- Zle_Qle. exact Hu.
Qed.

Lemma valid_finite s m e :
  F32.valid (S754_finite s m e) = true ->
  -149 <= e <= 104 /\ Zdigits2 (Zpos m) <= 24 /\ (-149 < e -> Zdigits2 (Zpos m) = 24).
Proof.
  unfold F32.valid, valid_binary, bounded, canonical_mantissa, fexp, emin,
    F32.prec, F32.emax.
  rewrite andb_true_iff, Z.eqb_eq, Z.leb_le.
  change (Z.pos (digits2_pos m)) with (Zdigits2 (Zpos m)). lia.
Qed.

Lemma shl_align_fst mx ex ez :
  ez <= ex -> Zpos (fst (shl_align mx ex ez)) = Zpos mx * 2 ^ (ex - ez).
Proof.
  intros He. unfold shl_align. destruct (ez - ex) as [|d|d] eqn:Hd; try lia.
  - replace (ex - ez) with 0 by lia. simpl. lia.
  - simpl. rewrite Pos_iter_xO. f_equal. f_equal. lia.
Qed.

Lemma not_lt_EPSILON m e :
  -28 <= Zdigits2 (Zpos m) + e ->
  F64.lt (F64.of_float (S754_finite false m e)) EPSILON = false.
Proof.
  intros Hmag. unfold F64.of_float.
  destruct (binary_round_magnitude F64.prec F64.emax ltac:(reflexivity) false m e)
    as [-> | (m' & e' & -> & Hmag' & He')].
  - unfold emin, F64.prec, F64.emax. lia.
  - reflexivity.
  - unfold F64.lt, SFltb, EPSILON, SFcompare.
    unfold fexp, emin, F64.prec, F64.emax in He'.
    destruct (Z.compare_spec e' (-82)); try reflexivity; lia.
Qed.

Section Threshold.
Variables (mt : positive) (et : Z).
Hypothesis mt_normal : 2 ^ 23 < Zpos mt < 2 ^ 24.
Hypothesis et_range : -28 <= et <= 104.

Local Abbreviation thr := (S754_finite false mt et).
Local Abbreviation below := (S754_finite false (Pos.pred mt) et).

(** A valid number is at the threshold or above it, or at most at the
    binary32 number just below it. *)
Lemma threshold_cases s m e :
  F32.valid (S754_finite s m e) = true ->
  (F32.ge (S754_finite s m e) thr = true
   /\ units thr <= units (S754_finite s m e))
  \/ (F32.ge (S754_finite s m e) thr = false
      /\ units (S754_finite s m e) <= units below
      /\ (s = true \/ e < et \/ (e = et /\ Zpos m < Zpos mt))).
Proof.
  intros Hv. destruct (valid_finite s m e Hv) as (He & Hd & Hn).
  pose proof (Zdigits2_bounds (Zpos m) ltac:(lia)) as Hm.
  assert (Zpos (Pos.pred mt) = Zpos mt - 1) as Hpred.
  { rewrite Pos2Z.inj_pred by (change (2 ^ 23) with 8388608 in mt_normal; lia). lia. }
  assert (0 < 2 ^ (et + 149)) as Hpt by (apply Z.pow_pos_nonneg; lia).
  assert (0 < 2 ^ (e + 149)) as Hpe by (apply Z.pow_pos_nonneg; lia).
  assert (Zpos m < 2 ^ 24) as Hm24.
  { eapply Z.lt_le_trans; [apply Hm|]. apply Z.pow_le_mono_r; lia. }
  unfold F32.ge, SFcompare, units. rewrite Hpred.
  destruct s.
  { right. split; [reflexivity|]. split; [|auto].
    unfold cond_Zopp. change (2 ^ 23) with 8388608 in mt_normal. nia. }
  unfold cond_Zopp.
  destruct (Z.compare_spec e et) as [-> | Hlt | Hgt].
  - change (Pos.compare_cont Eq m mt) with (Pos.compare m mt).
    destruct (Pos.compare_spec m mt) as [-> | Hlt | Hgt].
    + left. split; [reflexivity|lia].
    + right. split; [reflexivity|]. split; [nia|]. right. right. split; [reflexivity|lia].
    + left. split; [reflexivity|nia].
  - right. split; [reflexivity|]. split; [|auto].
    assert (2 ^ (et + 149) = 2 ^ (et - e) * 2 ^ (e + 149)) as Hsplit.
    { rewrite <- Z.pow_add_r by lia. f_equal. lia. }
    assert (2 <= 2 ^ (et - e)) as H2.
    { change 2 with (2 ^ 1) at 1. apply Z.pow_le_mono_r; lia. }
    rewrite Hsplit. change (2 ^ 23) with 8388608 in mt_normal.
    change (2 ^ 24) with 16777216 in Hm24. nia.
  - left. split; [reflexivity|].
    assert (2 ^ (e + 149) = 2 ^ (e - et) * 2 ^ (et + 149)) as Hsplit.
    { rewrite <- Z.pow_add_r by lia. f_equal. lia. }
    assert (2 <= 2 ^ (e - et)) as H2.
    { change 2 with (2 ^ 1) at 1. apply Z.pow_le_mono_r; lia. }
    rewrite Hsplit. rewrite (Hn ltac:(lia)) in Hm.
    change (2 ^ (24 - 1)) with 8388608 in Hm. change (2 ^ 24) with 16777216 in mt_normal.
    nia.
Qed.

(** Below the threshold, the rounded difference is no smaller than half a
    unit in the last place of the threshold: the second part of the test
    fails. *)
Lemma sub_below_threshold s m e :
  F32.valid (S754_finite s m e) = true ->
  s = true \/ e < et \/ (e = et /\ Zpos m < Zpos mt) ->
  F64.lt (F64.of_float (F32.fabsf (F32.sub (S754_finite s m e) thr))) EPSILON = false.
Proof.
  intros Hv Hcase. destruct (valid_finite s m e Hv) as (He & Hd & Hn).
  pose proof (Zdigits2_bounds (Zpos m) ltac:(lia)) as Hm.
  assert (Zpos m < 2 ^ 24) as Hm24.
  { eapply Z.lt_le_trans; [apply Hm|]. apply Z.pow_le_mono_r; lia. }
  unfold F32.sub, SFsub. set (ez := Z.min e et).
  rewrite !shl_align_fst by (unfold ez; lia).
  set (M := cond_Zopp s (Zpos m * 2 ^ (e - ez)) - cond_Zopp false (Zpos mt * 2 ^ (et - ez))).
  assert (exists P : positive,
             (M = Zpos P \/ M = Zneg P) /\ et <= Zdigits2 (Zpos P) + ez)
    as (P & HP & Hmag).
  { assert (forall k, 0 <= k -> 2 ^ k <= - M -> et <= k + 1 + ez ->
              exists P : positive,
                (M = Zpos P \/ M = Zneg P) /\ et <= Zdigits2 (Zpos P) + ez) as Hgen.
    { intros k Hk Hlow Hket. clearbody M.
      assert (0 < - M) by (pose proof (Z.pow_pos_nonneg 2 k); lia).
      apply Zdigits2_ge_pow2 in Hlow; [|lia].
      exists (Z.to_pos (- M)). rewrite <- Pos2Z.opp_pos, !Z2Pos.id by lia.
      split; [right; lia|lia]. }
    assert (0 < 2 ^ (e - ez)) as HA by (apply Z.pow_pos_nonneg; unfold ez; lia).
    assert (0 < 2 ^ (et - ez)) as HB by (apply Z.pow_pos_nonneg; unfold ez; lia).
    change (2 ^ 23) with 8388608 in mt_normal. change (2 ^ 24) with 16777216 in *.
    destruct s.
    - (* a negative number *)
      apply (Hgen (23 + (et - ez))); [unfold ez; lia| |lia].
      rewrite Z.pow_add_r by (unfold ez; lia). change (2 ^ 23) with 8388608.
      unfold M, cond_Zopp. nia.
    - destruct Hcase as [Hs | [Hlt | [-> Hlt]]]; [discriminate| |].
      + (* a smaller exponent *)
        assert (ez = e) as Hez by (unfold ez; lia).
        assert (2 ^ (et - ez) = 2 * 2 ^ (et - ez - 1)) as Hsplit.
        { rewrite <- Z.pow_succ_r by lia. f_equal. lia. }
        assert (0 < 2 ^ (et - ez - 1)) as HB' by (apply Z.pow_pos_nonneg; lia).
        apply (Hgen (et - ez - 1)); [lia| |lia].
        unfold M, cond_Zopp. rewrite Hsplit.
        replace (e - ez) with 0 by lia. change (2 ^ 0) with 1. nia.
      + (* the same exponent, a smaller mantissa *)
        assert (ez = et) as Hez by (unfold ez; lia).
        apply (Hgen 0); [lia| |lia].
        unfold M, cond_Zopp. rewrite Hez, Z.sub_diag. change (2 ^ 0) with 1. lia. }
  assert (emin F32.prec F32.emax < Zdigits2 (Z.pos P) + ez) as Hemin.
  { unfold emin, F32.prec, F32.emax. lia. }
  destruct HP as [-> | ->]; cbn [binary_normalize].
  - destruct (binary_round_magnitude F32.prec F32.emax ltac:(reflexivity) false P ez Hemin)
      as [-> | (m' & e' & -> & Hmag' & _)]; [reflexivity|].
    cbn [F32.fabsf SFabs]. apply not_lt_EPSILON. lia.
  - destruct (binary_round_magnitude F32.prec F32.emax ltac:(reflexivity) true P ez Hemin)
      as [-> | (m' & e' & -> & Hmag' & _)]; [reflexivity|].
    cbn [F32.fabsf SFabs]. apply not_lt_EPSILON. lia.
Qed.

Variable q : Q.
Hypothesis q_le_thr : (q <= to_Q thr)%Q.
Hypothesis below_lt_q : (to_Q below + epsilon_Q <= q)%Q.

Lemma not_reaches_below (v : Q) :
  (v <= to_Q below)%Q -> ~ ((q <= v)%Q \/ (Qabs (v - q) < epsilon_Q)%Q).
Proof.
  intros Hv [Hle | Habs].
  - unfold epsilon_Q in *. lra.
  - apply Qabs_Qlt_condition in Habs. unfold epsilon_Q in *. lra.
Qed.

(** The test of [writeOutput] against the threshold [thr] decides whether
    the exact value reaches [q]. *)
Lemma threshold_test_reaches x :
  F32.valid x = true -> (threshold_test thr x = true <-> reaches q x).
Proof.
  intros Hv. destruct x as [s|s| |s m e].
  - (* zero *)
    assert (threshold_test thr (S754_zero s) = false) as ->.
    { unfold threshold_test. cbn [F32.ge SFcompare F32.sub SFsub F32.fabsf SFabs negb orb].
      apply not_lt_EPSILON.
      assert (24 <= Zdigits2 (Zpos mt)) by (apply (Zdigits2_ge_pow2 _ 23); lia). lia. }
    split; [discriminate|]. intros H. exfalso. revert H. apply not_reaches_below.
    cbn [to_Q]. apply Qmult_le_0_compat; [|apply Qpower_0_le; discriminate].
    change 0%Q with (inject_Z 0). rewrite <- Zle_Qle. cbn. lia.
  - destruct s; cbn; split; try discriminate; reflexivity.
  - cbn. split; [discriminate|contradiction].
  - destruct (valid_finite s m e Hv) as (He & _).
    assert (Zpos (Pos.pred mt) = Zpos mt - 1) as Hpred.
    { rewrite Pos2Z.inj_pred by (change (2 ^ 23) with 8388608 in mt_normal; lia). lia. }
    destruct (threshold_cases s m e Hv)
      as [[Hge Hu] | (Hge & Hu & Hcase)].
    + unfold threshold_test. rewrite Hge. cbn [orb]. split; [intros _|reflexivity].
      left. eapply Qle_trans; [exact q_le_thr|].
      apply to_Q_le; [lia|lia|exact Hu].
    + unfold threshold_test. rewrite Hge, (sub_below_threshold s m e Hv Hcase). cbn [orb].
      split; [discriminate|]. intros H. exfalso. revert H. apply not_reaches_below.
      apply to_Q_le; [lia|lia|exact Hu].
Qed.
End Threshold.

(** The thresholds [0.3f] and [0.1f] against the numbers [0.3] and [0.1]. *)
Lemma MEDICAL_SUPERVISION_THRESHOLD_test x :
  F32.valid x = true ->
  (threshold_test MEDICAL_SUPERVISION_THRESHOLD x = true <-> reaches (3 # 10) x).
Proof.
  apply (threshold_test_reaches 10066330 (-25)); try lia; vm_compute; discriminate.
Qed.

Lemma REGULAR_QUARANTINE_THRESHOLD_test x :
  F32.valid x = true ->
  (threshold_test REGULAR_QUARANTINE_THRESHOLD x = true <-> reaches (1 # 10) x).
Proof.
  apply (threshold_test_reaches 13421773 (-27)); try lia; vm_compute; discriminate.
Qed.

(** C5.  For a person whose probability is a binary32 number: when the
    probability is greater than or equal to 0.3 or within 1e-9 of it, the
    text written is the hospitalization message (which is not the
    quarantine message); otherwise, when it is greater than or equal to 0.1
    or within 1e-9 of it, the quarantine message; otherwise the message of
    the tier without serious risk. *)
Theorem writeOutput_tiers (p : Person) :
  F32.valid (probability p) = true ->
  (reaches (3 # 10) (probability p) ->
   writeOutput_body p = MEDICAL_SUPERVISION_THRESHOLD_MSG (name p) (id p))
  /\ (~ reaches (3 # 10) (probability p) -> reaches (1 # 10) (probability p) ->
      writeOutput_body p = REGULAR_QUARANTINE_MSG (name p) (id p))
  /\ (~ reaches (3 # 10) (probability p) -> ~ reaches (1 # 10) (probability p) ->
      writeOutput_body p = CLEAN_MSG (name p) (id p))
  /\ MEDICAL_SUPERVISION_THRESHOLD_MSG (name p) (id p)
     <> REGULAR_QUARANTINE_MSG (name p) (id p).
Proof.
  intros Hv.
  pose proof (MEDICAL_SUPERVISION_THRESHOLD_test _ Hv) as H3.
  pose proof (REGULAR_QUARANTINE_THRESHOLD_test _ Hv) as H1.
  unfold writeOutput_body. fold (threshold_test MEDICAL_SUPERVISION_THRESHOLD (probability p)).
  fold (threshold_test REGULAR_QUARANTINE_THRESHOLD (probability p)).
  destruct (threshold_test MEDICAL_SUPERVISION_THRESHOLD (probability p));
    destruct (threshold_test REGULAR_QUARANTINE_THRESHOLD (probability p)).
  all: repeat split; try reflexivity; try discriminate.
  all: intros; exfalso;
    repeat match goal with
           | H : _ <-> _ |- _ => destruct H
           end; auto; match goal with H : _ -> false = true |- _ => discriminate H; auto end.
Qed.

Lemma writeOutput_tiers_witness :
  let p := set_probability Bob MEDICAL_SUPERVISION_THRESHOLD in
  (reaches (3 # 10) (probability p) ->
   writeOutput_body p = MEDICAL_SUPERVISION_THRESHOLD_MSG (name p) (id p))
  /\ (~ reaches (3 # 10) (probability p) -> reaches (1 # 10) (probability p) ->
      writeOutput_body p = REGULAR_QUARANTINE_MSG (name p) (id p))
  /\ (~ reaches (3 # 10) (probability p) -> ~ reaches (1 # 10) (probability p) ->
      writeOutput_body p = CLEAN_MSG (name p) (id p))
  /\ MEDICAL_SUPERVISION_THRESHOLD_MSG (name p) (id p)
     <> REGULAR_QUARANTINE_MSG (name p) (id p).
Proof.
  apply (writeOutput_tiers (set_probability Bob MEDICAL_SUPERVISION_THRESHOLD)).
  vm_compute. reflexivity.
Defined.

(** ** The end-to-end scenario *)

(** Alice is the origin; she meets Bob at distance 1.0 for 30.0 seconds,
    and Bob meets Carol at distance 2.0 for 15.0 seconds. *)
Lemma run_scenario :
  run 3 [text_line "Alice 1 30"; text_line "Bob 2 40"; text_line "Carol 3 70"]
        [text_line "1"; text_line "1 2 1.0 30.0"; text_line "2 3 2.0 15.0"]
  = Some [MEDICAL_SUPERVISION_THRESHOLD_MSG "Alice" 1;
          MEDICAL_SUPERVISION_THRESHOLD_MSG "Bob" 2;
          REGULAR_QUARANTINE_MSG "Carol" 3].
Proof. vm_compute. reflexivity. Qed.

(** With an empty meetings file nobody is at risk. *)
Lemma run_no_meeting :
  run 3 [text_line "Alice 1 30"; text_line "Bob 2 40"; text_line "Carol 3 70"] []
  = Some [CLEAN_MSG "Alice" 1; CLEAN_MSG "Bob" 2; CLEAN_MSG "Carol" 3].
Proof. vm_compute. reflexivity. Qed.

(** * Further properties *)

(** ** More on the ordering engine *)

Section OrderingMore.
Variable comp : compFunc.
Implicit Types (a b l P R : list Person) (x y : Person).

(** On ties throughout, [merge] puts the second sub-array first. *)
Lemma merge_list_ties a b :
  (forall x y, x ∈ a -> y ∈ b -> 0 <= comp x y) ->
  merge_list comp a b = b ++ a.
Proof.
  intros H. induction b as [|y b IHb].
  - apply merge_list_nil_r.
  - destruct a as [|x a]; [rewrite merge_list_nil_l, app_nil_r; reflexivity|].
    rewrite merge_list_cons. destruct (Z_lt_dec (comp x y) 0) as [Hc|Hc].
    + exfalso. pose proof (H x y ltac:(apply elem_of_cons; left; reflexivity)
                             ltac:(apply elem_of_cons; left; reflexivity)). lia.
    + simpl. f_equal. apply IHb. intros x' y' Hx' Hy'. apply H; [assumption|].
      apply elem_of_cons. right. assumption.
Qed.

Lemma msort_ties l :
  (forall x y, x ∈ l -> y ∈ l -> 0 <= comp x y) -> msort comp l = reverse l.
Proof.
  remember (length l) as n eqn:Hn. revert l Hn.
  induction (lt_wf n) as [n _ IH]. intros l -> H.
  rewrite msort_eq. destruct (decide _) as [Hk|Hk].
  - apply split_aLen_0 in Hk.
    destruct l as [|x [|y l]]; [reflexivity|reflexivity|simpl in Hk; lia].
  - destruct (msort_halves l Hk) as [H1 H2].
    assert (forall x, x ∈ take (split_aLen (length l)) l -> x ∈ l) as Ht.
    { intros x Hx. rewrite <- (take_drop (split_aLen (length l)) l).
      apply elem_of_app. left. exact Hx. }
    assert (forall x, x ∈ drop (split_aLen (length l)) l -> x ∈ l) as Hd.
    { intros x Hx. rewrite <- (take_drop (split_aLen (length l)) l).
      apply elem_of_app. right. exact Hx. }
    rewrite (IH _ H1 _ eq_refl) by auto.
    rewrite (IH _ H2 _ eq_refl) by auto.
    rewrite merge_list_ties.
    + rewrite <- reverse_app, take_drop. reflexivity.
    + intros x y Hx Hy. rewrite elem_of_reverse in Hx, Hy. auto.
Qed.

(** Stores keep the length of the array: so do the loops of [merge]. *)
Lemma for_count_length {A} (body : nat -> list A -> option (list A)) n :
  (forall i s s', body i s = Some s' -> length s' = length s) ->
  forall i s s', for_count n i body s = Some s' -> length s' = length s.
Proof.
  intros Hb. induction n as [|n IH]; intros i s s' H.
  - injection H as <-. reflexivity.
  - cbn [for_count] in H. destruct (body i s) as [s1|] eqn:E; [|discriminate].
    rewrite (IH _ _ _ H). eapply Hb. exact E.
Qed.

(** The last turn of a counted loop. *)
Lemma for_count_S_r {St} (body : nat -> St -> option St) n :
  forall i s,
    for_count (S n) i body s = for_count n i body s ≫= body (i + n)%nat.
Proof.
  induction n as [|n IH]; intros i s.
  - cbn. rewrite Nat.add_0_r. destruct (body i s); reflexivity.
  - change (for_count (S (S n)) i body s)
      with (match body i s with
            | Some s' => for_count (S n) (S i) body s'
            | None => None
            end).
    change (for_count (S n) i body s)
      with (match body i s with
            | Some s' => for_count n (S i) body s'
            | None => None
            end).
    destruct (body i s) as [s1|]; [|reflexivity].
    rewrite (IH (S i) s1).
    replace (S i + n)%nat with (i + S n)%nat by lia. reflexivity.
Qed.

Lemma copy_body_length {A} (src : list A) (f g : nat -> nat) i (s s' : list A) :
  match load src (f i) with
  | Some x => store s (g i) x
  | None => None
  end = Some s' -> length s' = length s.
Proof.
  destruct (load src (f i)); [|discriminate]. apply store_length.
Qed.

Lemma merge_while_length a b aLen bLen start :
  forall k peopleList aI bI st,
    k = ((aLen - aI) + (bLen - bI))%nat ->
    merge_while comp a b aLen bLen start peopleList aI bI = Some st ->
    length (fst (fst st)) = length peopleList.
Proof.
  intros k. induction (lt_wf k) as [k _ IH]. intros pl aI bI st -> H.
  rewrite merge_while_eq in H.
  destruct (decide (aI < aLen /\ bI < bLen)%nat) as [[Hai Hbi]|Hn].
  - destruct (load a aI) as [x|]; [|discriminate].
    destruct (load b bI) as [y|]; [|discriminate].
    destruct (Z_lt_dec (comp x y) 0).
    + destruct (store pl (start + aI + bI) x) as [pl'|] eqn:E; [|discriminate].
      cbn in H. rewrite (IH ((aLen - S aI) + (bLen - bI))%nat ltac:(lia) _ _ _ _ eq_refl H).
      eapply store_length. exact E.
    + destruct (store pl (start + aI + bI) y) as [pl'|] eqn:E; [|discriminate].
      cbn in H. rewrite (IH ((aLen - aI) + (bLen - S bI))%nat ltac:(lia) _ _ _ _ eq_refl H).
      eapply store_length. exact E.
  - injection H as <-. reflexivity.
Qed.

Lemma merge_length peopleList a aLen b bLen start pl' :
  merge peopleList a aLen b bLen start comp = Some pl' -> length pl' = length peopleList.
Proof.
  rewrite merge_eq.
  destruct (merge_while _ _ _ _ _ _ _ _ _) as [[[pl aI] bI]|] eqn:E; [|discriminate].
  apply (merge_while_length _ _ _ _ _ _ _ _ _ _ eq_refl) in E. simpl in E.
  cbn. unfold for_range. rewrite <- E.
  destruct (decide _); apply for_count_length; intros i s s';
    [apply (copy_body_length a (fun i => i) (fun i => (start + i + bI)%nat))
    |apply (copy_body_length b (fun j => j) (fun j => (start + aI + j)%nat))].
Qed.

(** [mergeSort] keeps the lengths of both arrays, and when it returns the
    cells [start .. start + len - 1] of the array and [d .. d + len - 1] of
    the draft exist. *)
Lemma mergeSort_bounds len :
  forall peopleList draft d start pl' draft',
    mergeSort peopleList draft d len start comp = Some (pl', draft') ->
    length pl' = length peopleList /\ length draft' = length draft
    /\ ((0 < len)%nat ->
        (start + len <= length peopleList)%nat /\ (d + len <= length draft)%nat).
Proof.
  induction (lt_wf len) as [len _ IH]. intros pl draft d start pl' draft' H.
  rewrite mergeSort_eq in H. destruct len as [|n].
  - injection H as <- <-. repeat split; lia.
  - set (aLen := split_aLen (S n)) in *. set (bLen := split_bLen (S n)) in *.
    assert (aLen < S n)%nat as HaLen by (apply split_aLen_lt; lia).
    assert (bLen < S n)%nat as HbLen.
    { unfold bLen, split_bLen. fold aLen. destruct (decide _); [lia|].
      assert (0 < aLen)%nat by lia. lia. }
    destruct (mergeSort pl draft d aLen start comp) as [[pl1 draft1]|] eqn:E1;
      [|discriminate].
    cbn [mbind option_bind] in H.
    destruct (mergeSort pl1 draft1 (d + aLen) bLen (aLen + start) comp)
      as [[pl2 draft2]|] eqn:E2; [|discriminate].
    cbn [mbind option_bind] in H.
    destruct (for_range 0 (S n) _ draft2) as [draft3|] eqn:E3; [|discriminate].
    cbn [mbind option_bind] in H.
    destruct (merge pl2 _ aLen _ bLen start comp) as [pl3|] eqn:E4; [|discriminate].
    cbn [mbind option_bind] in H. injection H as <- <-.
    destruct (IH _ HaLen _ _ _ _ _ _ E1) as (L1 & D1 & _).
    destruct (IH _ HbLen _ _ _ _ _ _ E2) as (L2 & D2 & _).
    apply merge_length in E4.
    unfold for_range in E3. rewrite Nat.sub_0_r in E3.
    pose proof (for_count_length _ _
                  (fun i s s' => copy_body_length pl2 (fun i => (i + start)%nat)
                                   (fun i => (d + i)%nat) i s s') _ _ _ E3) as L3.
    rewrite for_count_S_r in E3.
    destruct (for_count n 0 _ draft2) as [dr|] eqn:E3'; [|discriminate].
    pose proof (for_count_length _ _
                  (fun i s s' => copy_body_length pl2 (fun i => (i + start)%nat)
                                   (fun i => (d + i)%nat) i s s') _ _ _ E3') as L3'.
    cbn [mbind option_bind] in E3. unfold load in E3.
    destruct (pl2 !! (0 + n + start)%nat) as [x|] eqn:Hx; [|discriminate].
    apply lookup_lt_Some in Hx. apply store_inv in E3 as [Hst _].
    split; [lia|]. split; [lia|]. intros _. lia.
Qed.
End OrderingMore.

(** X1.  For a comparator that, when it does not find [x] smaller than
    [y], does not find [y] greater than [x] (as [idCompare] and
    [probCompare] are): [merge] on two sub-arrays in order writes into the
    cells [start .. start + aLen + bLen - 1] a permutation of their
    records in which no record is followed by one it is greater than, and
    leaves every other cell as it is. *)
Theorem merge_sorted_segments (comp : compFunc) (a b P X R : list Person) (aLen bLen : nat) :
  antisymmetric_comp comp ->
  (aLen <= length a)%nat -> (bLen <= length b)%nat -> length X = (aLen + bLen)%nat ->
  Sorted (not_greater comp) (take aLen a) -> Sorted (not_greater comp) (take bLen b) ->
  exists M,
    merge (P ++ X ++ R) a aLen b bLen (length P) comp = Some (P ++ M ++ R)
    /\ M ≡ₚ take aLen a ++ take bLen b
    /\ Sorted (not_greater comp) M.
Proof.
  intros Hanti Ha Hb HX Hsa Hsb.
  exists (merge_list comp (take aLen a) (take bLen b)). split; [|split].
  - apply merge_spec; assumption.
  - apply merge_list_perm.
  - apply merge_list_sorted; assumption.
Qed.

Lemma merge_sorted_segments_witness :
  exists M,
    merge ([Carol] ++ [Carol; Carol; Carol] ++ [Carol]) [Alice; Carol; Bob] 2 [Bob] 1
      (length [Carol]) idCompare = Some ([Carol] ++ M ++ [Carol])
    /\ M ≡ₚ take 2 [Alice; Carol; Bob] ++ take 1 [Bob]
    /\ Sorted (not_greater idCompare) M.
Proof.
  apply (merge_sorted_segments idCompare [Alice; Carol; Bob] [Bob] [Carol]
           [Carol; Carol; Carol] [Carol] 2 1).
  - apply idCompare_antisymmetric.
  - simpl. lia.
  - simpl. lia.
  - reflexivity.
  - repeat constructor; vm_compute; discriminate.
  - repeat constructor.
Defined.

(** X2.  [mergeSort] on the segment [start .. start + length - 1], with
    the draft array from the offset [d]: the segment receives a
    permutation of its records in order, the cells before and after it are
    left as they are, and the draft keeps its length. *)
Theorem mergeSort_sorts_segment (comp : compFunc) (P seg R draft : list Person) (d : nat) :
  antisymmetric_comp comp ->
  (d + length seg <= length draft)%nat ->
  exists sorted draft',
    mergeSort (P ++ seg ++ R) draft d (length seg) (length P) comp
    = Some (P ++ sorted ++ R, draft')
    /\ sorted ≡ₚ seg
    /\ Sorted (not_greater comp) sorted
    /\ length draft' = length draft.
Proof.
  intros Hanti Hd.
  destruct (mergeSort_spec comp (length seg) P seg R draft d eq_refl Hd) as (draft' & E & L).
  exists (msort comp seg), draft'. split; [exact E|]. split; [apply msort_perm|].
  split; [apply msort_sorted; exact Hanti|exact L].
Qed.

Lemma mergeSort_sorts_segment_witness :
  exists sorted draft',
    mergeSort ([Carol] ++ [Carol; Bob; Alice] ++ [Alice]) (calloc_Person 4) 1
      (length [Carol; Bob; Alice]) (length [Carol]) probCompare
    = Some ([Carol] ++ sorted ++ [Alice], draft')
    /\ sorted ≡ₚ [Carol; Bob; Alice]
    /\ Sorted (not_greater probCompare) sorted
    /\ length draft' = length (calloc_Person 4).
Proof.
  apply (mergeSort_sorts_segment probCompare [Carol] [Carol; Bob; Alice] [Alice]
           (calloc_Person 4) 1).
  - apply probCompare_antisymmetric.
  - simpl. lia.
Defined.

(** X3.  [mergeSort] stays within its arrays exactly when the length is
    zero or both arrays hold the cells of the segment: [start + length]
    cells in the array and [d + length] cells in the draft.  With fewer
    cells a read or a write falls outside an array. *)
Theorem mergeSort_defined_iff (comp : compFunc) (peopleList draft : list Person)
    (d len start : nat) :
  is_Some (mergeSort peopleList draft d len start comp)
  <-> (len = 0%nat
       \/ ((start + len <= length peopleList)%nat /\ (d + len <= length draft)%nat)).
Proof.
  split.
  - intros [[pl' draft'] H]. destruct (mergeSort_bounds comp len _ _ _ _ _ _ H) as (_ & _ & Hb).
    destruct len; [left; reflexivity|right; apply Hb; lia].
  - intros [-> | [Hp Hd]].
    + rewrite mergeSort_eq. eexists. reflexivity.
    + rewrite <- (take_drop start peopleList).
      rewrite <- (take_drop len (drop start peopleList)).
      assert (length (take start peopleList) = start) as HP by (rewrite length_take; lia).
      assert (length (take len (drop start peopleList)) = len) as HS.
      { rewrite length_take, length_drop. lia. }
      destruct (mergeSort_spec comp len (take start peopleList)
                  (take len (drop start peopleList)) (drop len (drop start peopleList))
                  draft d HS Hd) as (draft' & E & _).
      rewrite HP in E. rewrite E. eexists. reflexivity.
Qed.

(** X4.  When no record of the array compares smaller than another (all
    the keys tie), [mergeSort] reverses the array: on a tie [merge] takes
    the record of the second half first. *)
Theorem mergeSort_reverses_ties (comp : compFunc) (peopleList draft : list Person) :
  (forall x y, x ∈ peopleList -> y ∈ peopleList -> 0 <= comp x y) ->
  (length peopleList <= length draft)%nat ->
  exists draft',
    mergeSort peopleList draft 0 (length peopleList) 0 comp
    = Some (reverse peopleList, draft').
Proof.
  intros Hties Hd.
  destruct (mergeSort_msort comp peopleList draft Hd) as (draft' & E).
  exists draft'. rewrite E, msort_ties by exact Hties. reflexivity.
Qed.

Lemma mergeSort_reverses_ties_witness :
  exists draft',
    mergeSort [Alice; Bob; Carol] (calloc_Person 3) 0 (length [Alice; Bob; Carol]) 0
      probCompare
    = Some (reverse [Alice; Bob; Carol], draft').
Proof.
  apply (mergeSort_reverses_ties probCompare [Alice; Bob; Carol] (calloc_Person 3)).
  - intros x y Hx Hy. apply list_elem_of_In in Hx, Hy. simpl in Hx, Hy.
    destruct Hx as [<- | [<- | [<- | []]]], Hy as [<- | [<- | [<- | []]]];
      vm_compute; discriminate.
  - simpl. lia.
Defined.

(** ** More on the comparators *)

(** [idCompare] is the difference of the identifiers reduced modulo [2^32]
    into the range of [int]. *)
Lemma idCompare_mod (a b : Person) :
  - 2 ^ 31 <= idCompare a b < 2 ^ 31
  /\ (idCompare a b - (id a - id b)) mod 2 ^ 32 = 0.
Proof.
  unfold idCompare. rewrite to_int_to_ulong.
  unfold to_int, INT_MODULUS, INT_MAX.
  change (2 ^ 32) with 4294967296. change (2 ^ 31 - 1) with 2147483647.
  change (2 ^ 31) with 2147483648.
  destruct (Z.leb_spec ((id a - id b) mod 4294967296) 2147483647);
    Z.to_euclidean_division_equations; lia.
Qed.

(** X5.  [idCompare] finds two records equal exactly when their
    identifiers differ by a multiple of [2^32]. *)
Theorem idCompare_zero_iff (a b : Person) :
  idCompare a b = 0 <-> (id a - id b) mod 2 ^ 32 = 0.
Proof.
  destruct (idCompare_mod a b) as [Hr Hm]. revert Hr Hm.
  change (2 ^ 32) with 4294967296. change (2 ^ 31) with 2147483648.
  generalize (idCompare a b) (id a - id b). intros c d Hr Hm.
  split; intros H; Z.to_euclidean_division_equations; lia.
Qed.

(** X6.  For identifiers below [2^31], [idCompare] is a three-way
    comparison: negative, zero or positive as the first identifier is
    smaller than, equal to or greater than the second. *)
Theorem idCompare_three_way (a b : Person) :
  0 <= id a < 2 ^ 31 -> 0 <= id b < 2 ^ 31 ->
  (idCompare a b < 0 <-> id a < id b)
  /\ (idCompare a b = 0 <-> id a = id b)
  /\ (0 < idCompare a b <-> id b < id a).
Proof.
  intros Ha Hb. rewrite idCompare_small_difference by lia. lia.
Qed.

Lemma idCompare_three_way_witness :
  (idCompare Carol Alice < 0 <-> id Carol < id Alice)
  /\ (idCompare Carol Alice = 0 <-> id Carol = id Alice)
  /\ (0 < idCompare Carol Alice <-> id Alice < id Carol).
Proof.
  apply (idCompare_three_way Carol Alice); simpl; lia.
Defined.

(** An array [mergeSort] has ordered with [idCompare] is in ascending order
    of the identifiers when these are below [2^31]. *)
Lemma Sorted_idCompare_sorted_by_id (l : list Person) :
  Forall (fun p => 0 <= id p < 2 ^ 31) l ->
  Sorted (not_greater idCompare) l -> sorted_by_id l.
Proof.
  intros Hb Hs. unfold sorted_by_id. induction Hs as [|x l Hs IH Hhd].
  - constructor.
  - apply Forall_cons in Hb as [Hx Hl]. rewrite fmap_cons. constructor; [auto|].
    destruct Hhd as [|y l Hxy]; constructor.
    apply Forall_cons in Hl as [Hy _].
    unfold not_greater in Hxy. rewrite idCompare_small_difference in Hxy by lia. lia.
Qed.

Lemma length_calloc_Person n : length (calloc_Person n) = n.
Proof. apply length_replicate. Qed.

(** X7.  For an array whose identifiers are below [2^31], [sortById]
    returns a permutation of the array in ascending order of the
    identifiers: the order [binarySearchById] relies on. *)
Theorem sortById_ascending (peopleList : list Person) :
  Forall (fun p => 0 <= id p < 2 ^ 31) peopleList ->
  exists sorted,
    sortById peopleList = Some sorted
    /\ sorted ≡ₚ peopleList
    /\ sorted_by_id sorted.
Proof.
  intros Hb. unfold sortById.
  destruct (mergeSort_msort idCompare peopleList (calloc_Person (length peopleList)))
    as (draft' & E); [rewrite length_calloc_Person; lia|].
  rewrite E. exists (msort idCompare peopleList). split; [reflexivity|].
  split; [apply msort_perm|].
  apply Sorted_idCompare_sorted_by_id.
  - rewrite msort_perm. exact Hb.
  - apply msort_sorted, idCompare_antisymmetric.
Qed.

Lemma sortById_ascending_witness :
  exists sorted,
    sortById [Carol; Alice; Bob] = Some sorted
    /\ sorted ≡ₚ [Carol; Alice; Bob]
    /\ sorted_by_id sorted.
Proof.
  apply (sortById_ascending [Carol; Alice; Bob]).
  repeat constructor; simpl; lia.
Defined.

(** *** The probability comparator *)

Lemma SFcompare_Eq_sub_zero prec emax x y :
  is_finite x = true -> is_finite y = true ->
  SFcompare x y = Some Eq -> is_zero (SFsub prec emax x y) = true.
Proof.
  destruct x as [sx|sx| |sx mx ex], y as [sy|sy| |sy my ey]; try discriminate; intros _ _.
  - destruct sx, sy; reflexivity.
  - destruct sy; discriminate.
  - destruct sx; discriminate.
  - cbn [SFcompare].
    assert (ex = ey /\ mx = my /\ sx = sy -> is_zero (SFsub prec emax (S754_finite sx mx ex)
                                          (S754_finite sy my ey)) = true) as Hsame.
    { intros (-> & -> & ->). unfold SFsub. rewrite Z.min_id.
      unfold shl_align. rewrite Z.sub_diag. cbn [fst].
      replace (cond_Zopp sy (Z.pos my) - cond_Zopp sy (Z.pos my)) with 0 by lia.
      reflexivity. }
    change (Pos.compare_cont Eq mx my) with (Pos.compare mx my).
    destruct sx, sy; try discriminate.
    + destruct (Z.compare_spec ex ey) as [He| |]; try discriminate.
      destruct (Pos.compare_spec mx my) as [Hm| |]; try discriminate.
      intros _. apply Hsame. auto.
    + destruct (Z.compare_spec ex ey) as [He| |]; try discriminate.
      destruct (Pos.compare_spec mx my) as [Hm| |]; try discriminate.
      intros _. apply Hsame. auto.
Qed.

Lemma lt_EPSILON_zero x :
  is_zero x = true -> F64.lt (F64.of_float (F32.fabsf x)) EPSILON = true.
Proof. destruct x; try discriminate. reflexivity. Qed.

Lemma SFcompare_finite x y :
  is_finite x = true -> is_finite y = true -> exists c, SFcompare x y = Some c.
Proof.
  destruct x as [sx|sx| |sx mx ex], y as [sy|sy| |sy my ey]; try discriminate; intros _ _;
    eexists; reflexivity.
Qed.

Lemma SFsub_self prec emax x : is_finite x = true -> is_zero (SFsub prec emax x x) = true.
Proof.
  intros Hx. apply SFcompare_Eq_sub_zero; [exact Hx|exact Hx|].
  destruct x as [s|s| |s m e]; try discriminate.
  - reflexivity.
  - cbn [SFcompare]. rewrite Z.compare_refl.
    change (Pos.compare_cont Eq m m) with (Pos.compare m m). rewrite Pos.compare_refl.
    destruct s; reflexivity.
Qed.

(** X8.  On records whose probabilities are finite, [probCompare] finds a
    record equal to itself and to a record of the same probability, and
    exchanging the two records changes the sign of the result. *)
Theorem probCompare_finite (a b : Person) :
  is_finite (probability a) = true -> is_finite (probability b) = true ->
  probCompare a a = EQUAL
  /\ probCompare b a = - probCompare a b
  /\ (probability a = probability b -> probCompare a b = EQUAL).
Proof.
  intros Ha Hb. split; [|split].
  - unfold probCompare. rewrite lt_EPSILON_zero; [reflexivity|].
    apply SFsub_self. exact Ha.
  - unfold probCompare, F32.fabsf, F32.sub.
    rewrite (SFabs_SFsub_swap _ _ (probability b) (probability a)).
    destruct (F64.lt _ _) eqn:Hlt; [reflexivity|].
    unfold F32.gt. rewrite (SFcompare_swap (probability a) (probability b)).
    destruct (SFcompare (probability a) (probability b)) as [[]|] eqn:Hc; try reflexivity.
    + pose proof (SFcompare_Eq_sub_zero F32.prec F32.emax _ _ Ha Hb Hc) as Hz.
      apply lt_EPSILON_zero in Hz. unfold F32.fabsf in Hz. rewrite Hz in Hlt. discriminate.
    + destruct (SFcompare_finite _ _ Ha Hb) as [c Hc']. rewrite Hc in Hc'. discriminate.
  - intros Heq. unfold probCompare. rewrite <- Heq.
    rewrite lt_EPSILON_zero; [reflexivity|].
    apply SFsub_self. exact Ha.
Qed.

Lemma probCompare_finite_witness :
  probCompare Alice Alice = EQUAL
  /\ probCompare (set_probability Bob F32.one) Alice
     = - probCompare Alice (set_probability Bob F32.one)
  /\ (probability Alice = probability (set_probability Bob F32.one) ->
      probCompare Alice (set_probability Bob F32.one) = EQUAL).
Proof.
  apply (probCompare_finite Alice (set_probability Bob F32.one)); reflexivity.
Defined.

(** X9.  When one of the two probabilities is a NaN, [probCompare] returns
    [SMALLER]: a NaN is smaller than every record, itself included, and
    every record is smaller than it. *)
Theorem probCompare_nan (a b : Person) :
  probability a = S754_nan \/ probability b = S754_nan ->
  probCompare a b = SMALLER.
Proof.
  unfold probCompare. intros [-> | ->].
  - reflexivity.
  - destruct (probability a) as [s|s| |s m e]; try reflexivity; destruct s; reflexivity.
Qed.

Lemma probCompare_nan_witness :
  probCompare (set_probability Alice S754_nan) (set_probability Alice S754_nan) = SMALLER.
Proof.
  apply (probCompare_nan (set_probability Alice S754_nan) (set_probability Alice S754_nan)).
  left. reflexivity.
Defined.

(** ** More on the lookup engine *)

(** The search in [start .. end_] finds an identifier that occurs there
    within a number of calls logarithmic in the size of the range. *)
Lemma binarySearchById_range_log fuel :
  forall peopleList idToFind start end_ k p,
    sorted_by_id peopleList ->
    0 <= start -> start <= k <= end_ -> end_ < Z.of_nat (length peopleList) ->
    peopleList !! Z.to_nat k = Some p -> id p = idToFind ->
    end_ - start + 1 < 2 ^ Z.of_nat fuel ->
    exists i q,
      binarySearchById fuel peopleList idToFind start end_ = Some i
      /\ start <= i <= end_
      /\ load_at peopleList i = Some q /\ id q = idToFind.
Proof.
  induction fuel as [|fuel IH]; intros pl target start end_ k p Hs H0 Hk He Hp Hid Hfuel.
  - simpl in Hfuel. lia.
  - cbn [binarySearchById].
    rewrite Nat2Z.inj_succ, Z.pow_succ_r in Hfuel by lia.
    assert (start <= start + (end_ - start) ÷ 2 <= end_
            /\ 2 * (start + (end_ - start) ÷ 2 - start) <= end_ - start
            /\ 2 * (end_ - (start + (end_ - start) ÷ 2)) <= end_ - start + 1) as Hmid.
    { rewrite Z.quot_div_nonneg by lia.
      Z.to_euclidean_division_equations. lia. }
    revert Hmid. generalize (start + (end_ - start) ÷ 2). intros mid (Hmid & Hl & Hr).
    assert (Z.to_nat mid < length pl)%nat as Hlen.
    { lia. }
    destruct (lookup_lt_is_Some_2 pl (Z.to_nat mid) Hlen) as [pm Hpm].
    assert (load_at pl mid = Some pm) as Hload by (apply load_at_Some; split; [lia|exact Hpm]).
    rewrite Hload.
    destruct (Z.eqb_spec (id pm) target) as [Heq|Hne].
    { exists mid, pm. auto. }
    destruct (Z.gtb_spec (id pm) target) as [Hgt|Hle].
    + assert (k < mid) as Hkm.
      { destruct (Z_lt_dec k mid); [assumption|].
        pose proof (sorted_by_id_lookup pl (Z.to_nat mid) (Z.to_nat k) pm p Hs
                      ltac:(lia) Hpm Hp). lia. }
      destruct (IH pl target start (mid - 1) k p Hs H0 ltac:(lia) ltac:(lia) Hp Hid
                  ltac:(lia))
        as (i & q & E & Hi & Hq).
      exists i, q. split; [exact E|]. split; [lia|exact Hq].
    + assert (mid < k) as Hkm.
      { destruct (Z_lt_dec mid k); [assumption|].
        pose proof (sorted_by_id_lookup pl (Z.to_nat k) (Z.to_nat mid) p pm Hs
                      ltac:(lia) Hp Hpm). lia. }
      destruct (IH pl target (mid + 1) end_ k p Hs ltac:(lia) ltac:(lia) He Hp Hid
                  ltac:(lia))
        as (i & q & E & Hi & Hq).
      exists i, q. split; [exact E|]. split; [lia|exact Hq].
Qed.

(** X10.  In an array in ascending order of the identifiers, the search
    for an identifier that occurs in it returns within [fuel] calls as
    soon as the length of the array is below [2^fuel]: the depth of the
    recursion is logarithmic in the length. *)
Theorem binarySearchById_logarithmic (peopleList : list Person) (idToFind : Z) (fuel : nat) :
  sorted_by_id peopleList ->
  idToFind ∈ (id <$> peopleList) ->
  Z.of_nat (length peopleList) < 2 ^ Z.of_nat fuel ->
  exists i p,
    binarySearchById fuel peopleList idToFind 0 (Z.of_nat (length peopleList) - 1) = Some i
    /\ load_at peopleList i = Some p
    /\ id p = idToFind.
Proof.
  intros Hs Hin Hfuel.
  apply list_elem_of_lookup_1 in Hin as [k Hk].
  rewrite list_lookup_fmap in Hk.
  destruct (peopleList !! k) as [p|] eqn:Hp; [|discriminate].
  injection Hk as Hk. pose proof (lookup_lt_Some _ _ _ Hp) as Hlt.
  destruct (binarySearchById_range_log fuel peopleList idToFind 0
              (Z.of_nat (length peopleList) - 1) (Z.of_nat k) p Hs ltac:(lia) ltac:(lia)
              ltac:(lia) ltac:(rewrite Nat2Z.id; exact Hp) Hk ltac:(lia))
    as (i & q & E & Hi & Hq & Hid).
  exists i, q. auto.
Qed.

Lemma binarySearchById_logarithmic_witness :
  exists i p,
    binarySearchById 2 [Alice; Bob; Carol] 3 0 (Z.of_nat (length [Alice; Bob; Carol]) - 1)
    = Some i
    /\ load_at [Alice; Bob; Carol] i = Some p
    /\ id p = 3.
Proof.
  apply (binarySearchById_logarithmic [Alice; Bob; Carol] 3 2).
  - repeat constructor; vm_compute; discriminate.
  - vm_compute. do 2 right. left.
  - vm_compute. reflexivity.
Defined.

(** X11.  The array [binarySearchById] reads is the whole block
    [peopleList] points to: the records and, after them, the cells that
    are allocated and not yet filled.  Whatever the block (in order or
    not) and the bounds, the function returns no index for an identifier
    that no cell of the block holds: it has no case for an identifier
    that is not found, its recursion does not end or it reads outside the
    block.  An index it returns is the one of a cell that holds the
    identifier, a record or a cell after the records: with no record at
    all, the identifier [0] is found in the first of the cells [calloc]
    has zeroed. *)
Theorem binarySearchById_absent (fuel : nat) (peopleList spare : list Person)
    (idToFind start end_ : Z) :
  (idToFind ∉ (id <$> peopleList ++ spare) ->
   binarySearchById fuel (peopleList ++ spare) idToFind start end_ = None)
  /\ (forall i,
        binarySearchById fuel (peopleList ++ spare) idToFind start end_ = Some i ->
        (Z.of_nat (length peopleList) <= i ->
         exists q, spare !! (Z.to_nat i - length peopleList)%nat = Some q /\ id q = idToFind)
        /\ (i < Z.of_nat (length peopleList) ->
            exists q, peopleList !! Z.to_nat i = Some q /\ id q = idToFind))
  /\ binarySearchById (S fuel) ([] ++ calloc_Person (Z.to_nat ALLOC_SIZE)) 0 0 (0 - 1) = Some 0.
Proof.
  split; [|split].
  - intros Hnot.
    destruct (binarySearchById fuel (peopleList ++ spare) idToFind start end_) as [i|] eqn:E;
      [|reflexivity].
    exfalso. apply Hnot.
    destruct (binarySearchById_sound _ _ _ _ _ _ E) as (q & Hq & Hid).
    apply load_at_Some in Hq as [_ Hq]. rewrite <- Hid.
    apply list_elem_of_fmap_2. eapply list_elem_of_lookup_2. exact Hq.
  - intros i E.
    destruct (binarySearchById_sound _ _ _ _ _ _ E) as (q & Hq & Hid).
    apply load_at_Some in Hq as [Hi Hq]. split; intros Hlen; exists q.
    + rewrite lookup_app_r in Hq by lia. auto.
    + rewrite lookup_app_l in Hq by lia. auto.
  - reflexivity.
Qed.

Lemma binarySearchById_absent_witness :
  binarySearchById 10 ([Alice; Carol] ++ [zero_Person]) 2 0 1 = None.
Proof.
  apply (proj1 (binarySearchById_absent 10 [Alice; Carol] [zero_Person] 2 0 1)).
  intros H. apply list_elem_of_In in H. simpl in H.
  destruct H as [H | [H | [H | []]]]; discriminate.
Defined.

(** ** More on the propagation engine *)

(** What [readMeetingsFile] does before its loop, when it returns. *)
Lemma readMeetingsFile_inv fuel line rest peopleList final :
  readMeetingsFile fuel (line :: rest) peopleList = Some final ->
  exists i sick,
    has_id peopleList (to_ulong (Libc.strtol_string line)) = true
    /\ peopleList !! i = Some sick /\ id sick = to_ulong (Libc.strtol_string line)
    /\ readMeetingsFile_loop fuel rest (<[i := set_probability sick (F32.of_Z 1)]> peopleList)
       = Some final.
Proof.
  unfold readMeetingsFile. cbn.
  destruct (binarySearchById _ _ _ _ _) as [i|] eqn:Ei; [|discriminate]. cbn.
  destruct (load_at peopleList i) as [sick|] eqn:Hi; [|discriminate]. cbn.
  destruct (store _ _ _) as [pl|] eqn:Est; [|discriminate]. cbn.
  apply store_inv in Est as [_ ->]. intros H.
  destruct (binarySearchById_sound _ _ _ _ _ _ Ei) as (q & Hq & Hidq).
  rewrite Hi in Hq. injection Hq as <-.
  apply load_at_Some in Hi as [_ Hi].
  exists (Z.to_nat i), sick. split; [eapply binarySearchById_has_id; exact Ei|].
  auto.
Qed.

Lemma readMeetingsFile_data fuel meetingsFile peopleList final :
  readMeetingsFile fuel meetingsFile peopleList = Some final ->
  without_probability <$> final = without_probability <$> peopleList.
Proof.
  intros H. destruct meetingsFile as [|line rest].
  - injection H as <-. reflexivity.
  - destruct (readMeetingsFile_inv _ _ _ _ _ H) as (i & sick & _ & Hi & _ & Hl).
    rewrite (readMeetingsFile_loop_data _ _ _ _ Hl).
    apply insert_set_probability_data. exact Hi.
Qed.

Lemma without_probability_ids (pl pl' : list Person) :
  without_probability <$> pl = without_probability <$> pl' -> id <$> pl = id <$> pl'.
Proof.
  intros Hd.
  assert (forall l : list Person,
             id <$> l
             = (fun x : string * Z * F32.float => snd (fst x)) <$> (without_probability <$> l))
    as Hid.
  { intros l. rewrite <- list_fmap_compose. reflexivity. }
  rewrite !Hid, Hd. reflexivity.
Qed.

(** X12.  [readMeetingsFile] writes probabilities only: when it returns,
    the array has the same number of records with the same names,
    identifiers and ages at the same indices, and it is still in ascending
    order of the identifiers if it was. *)
Theorem readMeetingsFile_keeps_data (fuel : nat) (meetingsFile : list string)
    (peopleList final : list Person) :
  readMeetingsFile fuel meetingsFile peopleList = Some final ->
  without_probability <$> final = without_probability <$> peopleList
  /\ length final = length peopleList
  /\ (sorted_by_id peopleList -> sorted_by_id final).
Proof.
  intros H. pose proof (readMeetingsFile_data _ _ _ _ H) as Hd.
  split; [exact Hd|]. split.
  - apply (f_equal length) in Hd. rewrite !length_fmap in Hd. exact Hd.
  - apply sorted_by_id_ids. symmetry. apply without_probability_ids. exact Hd.
Qed.

Lemma readMeetingsFile_keeps_data_witness :
  let peopleList := [Alice; Bob; Carol] in
  let final := [set_probability Alice F32.one; set_probability Bob F32.one; Carol] in
  without_probability <$> final = without_probability <$> peopleList
  /\ length final = length peopleList
  /\ (sorted_by_id peopleList -> sorted_by_id final).
Proof.
  apply (readMeetingsFile_keeps_data 3 [text_line "1"; text_line "1 2 1.0 30.0"]
           [Alice; Bob; Carol]
           [set_probability Alice F32.one; set_probability Bob F32.one; Carol]).
  vm_compute. reflexivity.
Defined.

(** [readMeetingsFile] returns when the first line names an identifier
    of the sorted array and every other line is resolved. *)
Lemma readMeetingsFile_returns fuel line rest peopleList :
  sorted_by_id peopleList -> (length peopleList <= fuel)%nat ->
  has_id peopleList (to_ulong (Libc.strtol_string line)) = true ->
  forallb (resolved peopleList) rest = true ->
  is_Some (readMeetingsFile fuel (line :: rest) peopleList).
Proof.
  intros Hs Hfuel Hid Hall.
  destruct (binarySearchById_whole fuel peopleList _ Hs Hid Hfuel)
    as (i & sick & Ei & Hi & Hsick & _).
  unfold readMeetingsFile. cbn [fmap option_fmap option_map Libc.strtol mbind option_bind].
  rewrite Ei. cbn [mbind option_bind]. rewrite Hsick. cbn [mbind option_bind].
  rewrite store_Some by lia. cbn [mbind option_bind].
  apply load_at_Some in Hsick as [_ Hsick].
  pose proof (insert_set_probability_ids peopleList (Z.to_nat i) sick (F32.of_Z 1) Hsick)
    as Hids.
  destruct (readMeetingsFile_loop_total fuel rest
              (<[Z.to_nat i := set_probability sick (F32.of_Z 1)]> peopleList))
    as (final & E & _).
  - eapply sorted_by_id_ids; [symmetry; exact Hids|exact Hs].
  - rewrite length_insert. exact Hfuel.
  - rewrite <- Hall. apply forallb_pointwise. intros l. apply resolved_ids. exact Hids.
  - rewrite E. eexists. reflexivity.
Qed.

(** X14.  A record that is not the origin and that no line of the meetings
    file names as the infected person is the same after
    [readMeetingsFile], probability included. *)
Theorem readMeetingsFile_untouched (fuel : nat) (line : string) (rest : list string)
    (peopleList final : list Person) (k : nat) (p : Person) :
  readMeetingsFile fuel (line :: rest) peopleList = Some final ->
  peopleList !! k = Some p ->
  id p <> to_ulong (Libc.strtol_string line) ->
  forallb (infects_other (id p)) rest = true ->
  final !! k = Some p.
Proof.
  intros H Hk Hne Hother.
  destruct (readMeetingsFile_inv _ _ _ _ _ H) as (i & sick & _ & Hi & Hsick & Hl).
  apply (readMeetingsFile_loop_untouched fuel rest _ final k p Hother Hl).
  rewrite list_lookup_insert_ne; [exact Hk|].
  intros <-. rewrite Hk in Hi. injection Hi as <-. congruence.
Qed.

Lemma readMeetingsFile_untouched_witness :
  [set_probability Alice F32.one; set_probability Bob F32.one; Carol] !! 2%nat = Some Carol.
Proof.
  apply (readMeetingsFile_untouched 3 (text_line "1") [text_line "1 2 1.0 30.0"]
           [Alice; Bob; Carol]
           [set_probability Alice F32.one; set_probability Bob F32.one; Carol] 2 Carol).
  - vm_compute. reflexivity.
  - reflexivity.
  - vm_compute. discriminate.
  - vm_compute. reflexivity.
Defined.

(** X15.  When no line of the meetings file names the origin as the
    infected person, the record of the origin holds the probability 1.0
    after [readMeetingsFile]. *)
Theorem readMeetingsFile_origin (fuel : nat) (line : string) (rest : list string)
    (peopleList final : list Person) :
  readMeetingsFile fuel (line :: rest) peopleList = Some final ->
  forallb (infects_other (to_ulong (Libc.strtol_string line))) rest = true ->
  exists i sick,
    peopleList !! i = Some sick
    /\ id sick = to_ulong (Libc.strtol_string line)
    /\ final !! i = Some (set_probability sick (F32.of_Z 1)).
Proof.
  intros H Hother.
  destruct (readMeetingsFile_inv _ _ _ _ _ H) as (i & sick & _ & Hi & Hsick & Hl).
  exists i, sick. split; [exact Hi|]. split; [exact Hsick|].
  apply (readMeetingsFile_loop_untouched fuel rest _ final i
           (set_probability sick (F32.of_Z 1))
           ltac:(simpl; rewrite Hsick; exact Hother) Hl).
  apply list_lookup_insert_eq. eapply lookup_lt_Some. exact Hi.
Qed.

Lemma readMeetingsFile_origin_witness :
  exists i sick,
    [Alice; Bob; Carol] !! i = Some sick
    /\ id sick = to_ulong (Libc.strtol_string (text_line "1"))
    /\ [set_probability Alice F32.one; set_probability Bob F32.one; Carol] !! i
       = Some (set_probability sick (F32.of_Z 1)).
Proof.
  apply (readMeetingsFile_origin 3 (text_line "1") [text_line "1 2 1.0 30.0"]
           [Alice; Bob; Carol]
           [set_probability Alice F32.one; set_probability Bob F32.one; Carol]).
  - vm_compute. reflexivity.
  - vm_compute. reflexivity.
Defined.

(** *** Meetings of duration zero *)

(** A binary32 number that is not zero, multiplied by [MAX_TIME], is not
    zero: it is a finite number or an infinity. *)
Lemma mul_MAX_TIME_not_zero s m e :
  F32.valid (S754_finite s m e) = true ->
  F32.mul (S754_finite s m e) MAX_TIME = S754_infinity s
  \/ exists m' e', F32.mul (S754_finite s m e) MAX_TIME = S754_finite s m' e'.
Proof.
  intros Hv. destruct (valid_finite s m e Hv) as (He & Hd & _).
  unfold F32.mul, MAX_TIME. cbn [SFmul]. rewrite xorb_false_r.
  pose proof (Zdigits2_pos (Zpos m) ltac:(lia)) as Hpos.
  assert (Zdigits2 (Zpos m) + 23 <= Zdigits2 (Zpos (m * 15728640))) as Hdig.
  { rewrite <- (Zdigits2_mul_pow2 (Zpos m) 23) by lia.
    apply Zdigits2_le; [|rewrite Pos2Z.inj_mul; change (2 ^ 23) with 8388608; lia].
    change (2 ^ 23) with 8388608. lia. }
  destruct (binary_round_aux_magnitude F32.prec F32.emax ltac:(reflexivity)
              s (m * 15728640) (e + -19) loc_Exact)
    as [-> | (m' & e' & -> & _)].
  - unfold emin, F32.prec, F32.emax. lia.
  - unfold fexp, emin, F32.prec, F32.emax. lia.
  - left. reflexivity.
  - right. exists m', e'. reflexivity.
Qed.

(** X16.  For a meeting of duration zero at a distance that is a binary32
    number, not zero and not a NaN, [crna] returns a zero, and the
    probability [probUpdater] stores, the product with a finite
    probability of the infector, is a zero. *)
Theorem crna_zero_duration (dist time prob : F32.float) :
  F32.valid dist = true -> dist <> S754_nan -> is_zero dist = false ->
  is_zero time = true ->
  is_zero (crna dist time) = true
  /\ (is_finite prob = true -> is_zero (F32.mul prob (crna dist time)) = true).
Proof.
  intros Hv Hnan Hnz Hz.
  assert (is_zero (crna dist time) = true) as Hc.
  { destruct time as [st| | |]; try discriminate.
    unfold crna. change (F32.mul (S754_zero st) MIN_DISTANCE) with (S754_zero (xorb st false)).
    destruct dist as [sd|sd| |sd md ed]; try discriminate.
    - reflexivity.
    - congruence.
    - destruct (mul_MAX_TIME_not_zero sd md ed Hv) as [-> | (m' & e' & ->)]; reflexivity. }
  split; [exact Hc|]. intros Hp.
  destruct (crna dist time) as [sc| | |]; try discriminate.
  destruct prob as [sp|sp| |sp mp ep]; try discriminate; reflexivity.
Qed.

Lemma crna_zero_duration_witness :
  is_zero (crna (F32.of_Z 2) F32.zero) = true
  /\ (is_finite F32.one = true -> is_zero (F32.mul F32.one (crna (F32.of_Z 2) F32.zero)) = true).
Proof.
  apply (crna_zero_duration (F32.of_Z 2) F32.zero F32.one).
  - vm_compute. reflexivity.
  - vm_compute. discriminate.
  - vm_compute. reflexivity.
  - reflexivity.
Defined.

(** *** The multiplication by [MIN_DISTANCE] *)

Lemma mul_MIN_DISTANCE (x : F32.float) :
  F32.valid x = true -> F32.mul x MIN_DISTANCE = x.
Proof.
  destruct x as [s|s| |s m e]; intros Hv.
  - cbn. rewrite xorb_false_r. reflexivity.
  - cbn. rewrite xorb_false_r. reflexivity.
  - reflexivity.
  - unfold F32.mul, MIN_DISTANCE. cbn [SFmul]. rewrite xorb_false_r.
    pose proof Hv as Hv'.
    unfold F32.valid, valid_binary, bounded, canonical_mantissa in Hv'.
    apply andb_true_iff in Hv' as [Hcan Hemax].
    apply Z.eqb_eq in Hcan. apply Z.leb_le in Hemax.
    change (Z.pos (digits2_pos m)) with (Zdigits2 (Zpos m)) in Hcan.
    unfold binary_round_aux.
    assert (shr_fexp F32.prec F32.emax (Z.pos (m * 8388608)) (e + -23) loc_Exact
            = ({| shr_m := Zpos m; shr_r := false; shr_s := false |}, e)) as ->.
    { unfold shr_fexp.
      assert (Zdigits2 (Z.pos (m * 8388608)) = Zdigits2 (Zpos m) + 23) as ->.
      { rewrite Pos2Z.inj_mul. change (Z.pos 8388608) with (2 ^ 23).
        apply Zdigits2_mul_pow2; lia. }
      replace (Zdigits2 (Z.pos m) + 23 + (e + -23)) with (Zdigits2 (Zpos m) + e) by lia.
      rewrite Hcan. replace (e - (e + -23)) with 23 by lia.
      rewrite Pos.mul_comm. cbn. f_equal. lia. }
    cbn [shr_m loc_of_shr_record round_nearest_even].
    unfold shr_fexp. rewrite Hcan, Z.sub_diag. cbn [shr shr_record_of_loc shr_m].
    apply Z.leb_le in Hemax. rewrite Hemax. reflexivity.
Qed.

(** X17.  For a duration that is a binary32 number, [crna] returns [time /
    (dist * 30.0f)]: the product of the duration and [MIN_DISTANCE] is the
    duration itself, without rounding. *)
Theorem crna_quotient (dist time : F32.float) :
  F32.valid time = true ->
  crna dist time = F32.div time (F32.mul dist MAX_TIME).
Proof.
  intros Hv. unfold crna. rewrite (mul_MIN_DISTANCE time Hv). reflexivity.
Qed.

Lemma crna_quotient_witness :
  crna (F32.of_Z 2) (F32.of_Z 15) = F32.div (F32.of_Z 15) (F32.mul (F32.of_Z 2) MAX_TIME).
Proof.
  apply (crna_quotient (F32.of_Z 2) (F32.of_Z 15)). vm_compute. reflexivity.
Defined.

(** ** Sorting by probability, then reporting *)

Lemma sortByProbability_msort (peopleList : list Person) :
  sortByProbability peopleList = Some (msort probCompare peopleList).
Proof.
  unfold sortByProbability.
  destruct (mergeSort_msort probCompare peopleList (calloc_Person (length peopleList)))
    as (draft' & E); [rewrite length_calloc_Person; lia|].
  rewrite E. reflexivity.
Qed.

Lemma writeOutput_total (peopleList : list Person) :
  writeOutput peopleList = Some (writeOutput_body <$> reverse peopleList).
Proof.
  unfold writeOutput. rewrite writeOutput_loop_spec by lia.
  rewrite firstn_all. reflexivity.
Qed.


Lemma probCompare_same (a b : Person) :
  is_finite (probability a) = true -> probability a = probability b ->
  probCompare a b = EQUAL.
Proof.
  intros Ha Heq. unfold probCompare. rewrite <- Heq.
  rewrite lt_EPSILON_zero; [reflexivity|]. apply SFsub_self. exact Ha.
Qed.

(** X19.  When all the records have the same finite probability (no
    meeting has changed any, for one), [sortByProbability] reverses the
    array and [writeOutput] then writes the texts in the order of the
    array before the sort. *)
Theorem writeOutput_equal_probabilities (peopleList : list Person) (x : F32.float) :
  is_finite x = true ->
  Forall (fun p => probability p = x) peopleList ->
  sortByProbability peopleList = Some (reverse peopleList)
  /\ sortByProbability peopleList ≫= writeOutput = Some (writeOutput_body <$> peopleList).
Proof.
  intros Hx Hall.
  assert (sortByProbability peopleList = Some (reverse peopleList)) as E.
  { rewrite sortByProbability_msort. f_equal. apply msort_ties.
    intros a b Ha Hb. rewrite Forall_forall in Hall.
    rewrite probCompare_same; [unfold EQUAL; lia| |].
    - rewrite (Hall a Ha). exact Hx.
    - rewrite (Hall a Ha), (Hall b Hb). reflexivity. }
  split; [exact E|]. rewrite E. cbn [mbind option_bind].
  rewrite writeOutput_total, reverse_involutive. reflexivity.
Qed.

Lemma writeOutput_equal_probabilities_witness :
  sortByProbability [Alice; Bob; Carol] = Some (reverse [Alice; Bob; Carol])
  /\ sortByProbability [Alice; Bob; Carol] ≫= writeOutput
     = Some (writeOutput_body <$> [Alice; Bob; Carol]).
Proof.
  apply (writeOutput_equal_probabilities [Alice; Bob; Carol] F32.zero).
  - reflexivity.
  - repeat constructor.
Defined.

(** ** The order of the texts and the tiers *)

Lemma cond_Zopp_mul s m k : cond_Zopp s (m * k) = cond_Zopp s m * k.
Proof. destruct s; simpl; lia. Qed.

(** On binary32 numbers, [SFcompare] is the order of the numbers of units. *)
Lemma SFcompare_units s1 m1 e1 s2 m2 e2 :
  F32.valid (S754_finite s1 m1 e1) = true -> F32.valid (S754_finite s2 m2 e2) = true ->
  SFcompare (S754_finite s1 m1 e1) (S754_finite s2 m2 e2)
  = Some (units (S754_finite s1 m1 e1) ?= units (S754_finite s2 m2 e2)).
Proof.
  intros Hv1 Hv2.
  destruct (valid_finite s1 m1 e1 Hv1) as (He1 & Hd1 & Hn1).
  destruct (valid_finite s2 m2 e2 Hv2) as (He2 & Hd2 & Hn2).
  pose proof (Zdigits2_bounds (Zpos m1) ltac:(lia)) as Hm1.
  pose proof (Zdigits2_bounds (Zpos m2) ltac:(lia)) as Hm2.
  assert (Zpos m1 < 2 ^ 24) as Hm1'.
  { eapply Z.lt_le_trans; [apply Hm1|]. apply Z.pow_le_mono_r; lia. }
  assert (Zpos m2 < 2 ^ 24) as Hm2'.
  { eapply Z.lt_le_trans; [apply Hm2|]. apply Z.pow_le_mono_r; lia. }
  assert (0 < 2 ^ (e1 + 149)) as HK1 by (apply Z.pow_pos_nonneg; lia).
  assert (0 < 2 ^ (e2 + 149)) as HK2 by (apply Z.pow_pos_nonneg; lia).
  assert (e1 < e2 -> Zpos m1 * 2 ^ (e1 + 149) < Zpos m2 * 2 ^ (e2 + 149)) as Hlt.
  { intros Hlt.
    assert (2 ^ (e2 + 149) = 2 ^ (e2 - e1) * 2 ^ (e1 + 149)) as ->.
    { rewrite <- Z.pow_add_r by lia. f_equal. lia. }
    assert (2 <= 2 ^ (e2 - e1)) as H2.
    { change 2 with (2 ^ 1) at 1. apply Z.pow_le_mono_r; lia. }
    rewrite (Hn2 ltac:(lia)) in Hm2.
    change (2 ^ (24 - 1)) with 8388608 in Hm2. change (2 ^ 24) with 16777216 in *.
    assert (Zpos m1 < Zpos m2 * 2 ^ (e2 - e1)) as Hs by nia.
    rewrite Z.mul_assoc. apply Z.mul_lt_mono_pos_r; assumption. }
  assert (e2 < e1 -> Zpos m2 * 2 ^ (e2 + 149) < Zpos m1 * 2 ^ (e1 + 149)) as Hgt.
  { intros Hgt.
    assert (2 ^ (e1 + 149) = 2 ^ (e1 - e2) * 2 ^ (e2 + 149)) as ->.
    { rewrite <- Z.pow_add_r by lia. f_equal. lia. }
    assert (2 <= 2 ^ (e1 - e2)) as H2.
    { change 2 with (2 ^ 1) at 1. apply Z.pow_le_mono_r; lia. }
    rewrite (Hn1 ltac:(lia)) in Hm1.
    change (2 ^ (24 - 1)) with 8388608 in Hm1. change (2 ^ 24) with 16777216 in *.
    assert (Zpos m2 < Zpos m1 * 2 ^ (e1 - e2)) as Hs by nia.
    rewrite Z.mul_assoc. apply Z.mul_lt_mono_pos_r; assumption. }
  cbn [SFcompare units]. f_equal. symmetry.
  change (Pos.compare_cont Eq m1 m2) with (Pos.compare m1 m2).
  destruct s1, s2; cbn [cond_Zopp].
  - destruct (Z.compare_spec e1 e2) as [-> | H | H].
    + destruct (Pos.compare_spec m1 m2) as [-> | Hm | Hm]; cbn [CompOpp].
      * apply Z.compare_eq_iff. reflexivity.
      * apply Z.compare_gt_iff. nia.
      * apply Z.compare_lt_iff. nia.
    + apply Z.compare_gt_iff. specialize (Hlt H). lia.
    + apply Z.compare_lt_iff. specialize (Hgt H). lia.
  - apply Z.compare_lt_iff. nia.
  - apply Z.compare_gt_iff. nia.
  - destruct (Z.compare_spec e1 e2) as [-> | H | H].
    + destruct (Pos.compare_spec m1 m2) as [-> | Hm | Hm].
      * apply Z.compare_eq_iff. reflexivity.
      * apply Z.compare_lt_iff. nia.
      * apply Z.compare_gt_iff. nia.
    + apply Z.compare_lt_iff. auto.
    + apply Z.compare_gt_iff. auto.
Qed.

Section ThresholdOrder.
Variables (mt : positive) (et : Z).
Hypothesis mt_normal : 2 ^ 23 < Zpos mt < 2 ^ 24.
Hypothesis et_range : -28 <= et <= 104.

Local Abbreviation thr := (S754_finite false mt et).
Local Abbreviation below := (S754_finite false (Pos.pred mt) et).

Lemma units_below : units below + 2 ^ (et + 149) = units thr.
Proof.
  unfold units, cond_Zopp.
  rewrite Pos2Z.inj_pred by (change (2 ^ 23) with 8388608 in mt_normal; lia). lia.
Qed.

(** A number that passes the test of a threshold is at the threshold or
    above it. *)
Lemma threshold_test_true x :
  F32.valid x = true -> x <> S754_nan -> threshold_test thr x = true ->
  x = S754_infinity false
  \/ exists s m e, x = S754_finite s m e /\ units thr <= units x.
Proof.
  intros Hv Hnan Ht. destruct x as [s|s| |s m e].
  - exfalso. revert Ht. unfold threshold_test.
    cbn [F32.ge SFcompare F32.sub SFsub F32.fabsf SFabs negb orb].
    rewrite not_lt_EPSILON; [discriminate|].
    assert (24 <= Zdigits2 (Zpos mt)) by (apply (Zdigits2_ge_pow2 _ 23); lia). lia.
  - destruct s; [discriminate|]. left. reflexivity.
  - congruence.
  - right. exists s, m, e. split; [reflexivity|].
    destruct (threshold_cases mt et mt_normal et_range s m e Hv) as [[_ Hu] | (Hge & _ & Hcase)];
      [exact Hu|].
    exfalso. unfold threshold_test in Ht.
    rewrite Hge, (sub_below_threshold mt et mt_normal et_range s m e Hv Hcase) in Ht.
    discriminate.
Qed.

(** A number that fails the test is below the threshold. *)
Lemma threshold_test_false x :
  F32.valid x = true -> x <> S754_nan -> threshold_test thr x = false ->
  x = S754_infinity true \/ is_zero x = true
  \/ exists s m e, x = S754_finite s m e /\ units x <= units below.
Proof.
  intros Hv Hnan Ht. destruct x as [s|s| |s m e].
  - right. left. reflexivity.
  - destruct s; [left; reflexivity|discriminate].
  - congruence.
  - right. right. exists s, m, e. split; [reflexivity|].
    destruct (threshold_cases mt et mt_normal et_range s m e Hv) as [[Hge _] | (_ & Hu & _)];
      [|exact Hu].
    unfold threshold_test in Ht. rewrite Hge in Ht. discriminate.
Qed.

(** At the threshold or above it, a number is positive and of the order of
    magnitude of the threshold at least. *)
Lemma above_threshold_magnitude s m e :
  F32.valid (S754_finite s m e) = true ->
  units thr <= units (S754_finite s m e) ->
  s = false /\ et + 24 <= Zdigits2 (Zpos m) + e.
Proof.
  intros Hv Hu. destruct (valid_finite s m e Hv) as (He & _).
  unfold units in Hu. cbn [cond_Zopp] in Hu.
  assert (0 < 2 ^ (et + 149)) as HKt by (apply Z.pow_pos_nonneg; lia).
  assert (0 < 2 ^ (e + 149)) as HK by (apply Z.pow_pos_nonneg; lia).
  destruct s; [cbn [cond_Zopp] in Hu; nia|]. split; [reflexivity|].
  cbn [cond_Zopp] in Hu.
  assert (2 ^ (23 + (et + 149)) <= Zpos m * 2 ^ (e + 149)) as Hlow.
  { rewrite Z.pow_add_r by lia. change (2 ^ 23) with 8388608 in *. nia. }
  apply Zdigits2_ge_pow2 in Hlow; [|lia].
  rewrite Zdigits2_mul_pow2 in Hlow by lia. lia.
Qed.

(** The difference of a number at the threshold or above it and a number
    below it is not smaller than [EPSILON]. *)
Lemma sub_across_threshold sa ma ea sb mb eb :
  F32.valid (S754_finite sa ma ea) = true -> F32.valid (S754_finite sb mb eb) = true ->
  units thr <= units (S754_finite sa ma ea) ->
  units (S754_finite sb mb eb) <= units below ->
  F64.lt (F64.of_float (F32.fabsf (F32.sub (S754_finite sa ma ea) (S754_finite sb mb eb))))
    EPSILON = false.
Proof.
  intros Hva Hvb Hua Hub.
  destruct (valid_finite sa ma ea Hva) as (Hea & _).
  destruct (valid_finite sb mb eb Hvb) as (Heb & _).
  pose proof units_below as Hbelow.
  unfold F32.sub, SFsub. set (ez := Z.min ea eb).
  rewrite !shl_align_fst by (unfold ez; lia).
  set (M := cond_Zopp sa (Zpos ma * 2 ^ (ea - ez)) - cond_Zopp sb (Zpos mb * 2 ^ (eb - ez))).
  assert (0 < 2 ^ (ez + 149)) as HK by (apply Z.pow_pos_nonneg; unfold ez; lia).
  assert (M * 2 ^ (ez + 149)
          = units (S754_finite sa ma ea) - units (S754_finite sb mb eb)) as HM.
  { unfold M, units. rewrite !cond_Zopp_mul.
    replace (2 ^ (ea + 149)) with (2 ^ (ea - ez) * 2 ^ (ez + 149))
      by (rewrite <- Z.pow_add_r by (unfold ez; lia); f_equal; lia).
    replace (2 ^ (eb + 149)) with (2 ^ (eb - ez) * 2 ^ (ez + 149))
      by (rewrite <- Z.pow_add_r by (unfold ez; lia); f_equal; lia).
    ring. }
  assert (2 ^ (et + 149) <= M * 2 ^ (ez + 149)) as Hdiff by lia.
  assert (0 < 2 ^ (et + 149)) as HKt by (apply Z.pow_pos_nonneg; lia).
  assert (0 < M) as HMpos by nia.
  assert (et + 1 <= Zdigits2 M + ez) as Hmag.
  { destruct (Z_le_gt_dec ez et) as [Hle|Hgt].
    - assert (2 ^ (et - ez) <= M) as Hlow.
      { replace (2 ^ (et + 149)) with (2 ^ (et - ez) * 2 ^ (ez + 149)) in Hdiff
          by (rewrite <- Z.pow_add_r by (unfold ez in *; lia); f_equal; lia).
        nia. }
      apply Zdigits2_ge_pow2 in Hlow; lia.
    - pose proof (Zdigits2_pos M HMpos). lia. }
  clearbody M. destruct M as [|P|P]; try lia.
  cbn [binary_normalize].
  destruct (binary_round_magnitude F32.prec F32.emax ltac:(reflexivity) false P ez)
    as [-> | (m' & e' & -> & Hmag' & _)].
  - unfold emin, F32.prec, F32.emax. lia.
  - reflexivity.
  - cbn [F32.fabsf SFabs]. apply not_lt_EPSILON. lia.
Qed.

(** A number that passes the test is greater, for [probCompare], than a
    number that fails it. *)
Lemma threshold_test_separates a b :
  F32.valid a = true -> F32.valid b = true -> a <> S754_nan -> b <> S754_nan ->
  threshold_test thr a = true -> threshold_test thr b = false ->
  F64.lt (F64.of_float (F32.fabsf (F32.sub a b))) EPSILON = false
  /\ F32.gt a b = true.
Proof.
  intros Hva Hvb Hna Hnb Ha Hb.
  destruct (threshold_test_true a Hva Hna Ha) as [-> | (sa & ma & ea & -> & Hua)];
    destruct (threshold_test_false b Hvb Hnb Hb)
      as [-> | [Hz | (sb & mb & eb & -> & Hub)]].
  - split; reflexivity.
  - destruct b; try discriminate. split; reflexivity.
  - split; reflexivity.
  - destruct (above_threshold_magnitude sa ma ea Hva Hua) as [-> Hmag].
    split; reflexivity.
  - destruct b; try discriminate.
    destruct (above_threshold_magnitude sa ma ea Hva Hua) as [-> Hmag].
    split; [|reflexivity]. cbn [F32.sub SFsub F32.fabsf SFabs].
    apply not_lt_EPSILON. lia.
  - split; [apply sub_across_threshold; assumption|].
    unfold F32.gt. rewrite SFcompare_units by assumption.
    pose proof units_below as Hbelow.
    assert (0 < 2 ^ (et + 149)) as HKt by (apply Z.pow_pos_nonneg; lia).
    assert (units (S754_finite sb mb eb) < units (S754_finite sa ma ea)) as Hlt by lia.
    apply Z.compare_gt_iff in Hlt. rewrite Hlt. reflexivity.
Qed.
End ThresholdOrder.

(** *** The tiers in the output *)

Lemma probCompare_separates (mt : positive) (et : Z) (p q : Person) :
  2 ^ 23 < Zpos mt < 2 ^ 24 -> -28 <= et <= 104 ->
  is_number (probability p) -> is_number (probability q) ->
  threshold_test (S754_finite false mt et) (probability p) = true ->
  threshold_test (S754_finite false mt et) (probability q) = false ->
  probCompare p q = GREATER.
Proof.
  intros Hmt Het [Hvp Hnp] [Hvq Hnq] Hp Hq.
  destruct (threshold_test_separates mt et Hmt Het _ _ Hvp Hvq Hnp Hnq Hp Hq) as [Hlt Hgt].
  unfold probCompare. rewrite Hlt, Hgt. reflexivity.
Qed.

(** In an array in ascending order, the records that follow one that
    passes the test of a threshold pass it. *)
Lemma Sorted_threshold_test (mt : positive) (et : Z) (l : list Person) :
  2 ^ 23 < Zpos mt < 2 ^ 24 -> -28 <= et <= 104 ->
  forall x,
    Forall (fun p => is_number (probability p)) (x :: l) ->
    Sorted (not_greater probCompare) (x :: l) ->
    threshold_test (S754_finite false mt et) (probability x) = true ->
    Forall (fun p => threshold_test (S754_finite false mt et) (probability p) = true) l.
Proof.
  intros Hmt Het. induction l as [|y l IH]; intros x Hn Hs Hx; [constructor|].
  apply Sorted_inv in Hs as [Hs Hhd]. apply HdRel_inv in Hhd.
  apply Forall_cons in Hn as [Hnx Hn]. pose proof Hn as Hn'.
  apply Forall_cons in Hn' as [Hny _].
  assert (threshold_test (S754_finite false mt et) (probability y) = true) as Hy.
  { destruct (threshold_test (S754_finite false mt et) (probability y)) eqn:E; [reflexivity|].
    pose proof (probCompare_separates mt et x y Hmt Het Hnx Hny Hx E) as Hc.
    unfold not_greater in Hhd. rewrite Hc in Hhd. unfold GREATER in Hhd. lia. }
  constructor; [exact Hy|]. apply (IH y); assumption.
Qed.

Lemma writeOutput_body_tests p :
  writeOutput_body p
  = if threshold_test MEDICAL_SUPERVISION_THRESHOLD (probability p)
    then MEDICAL_SUPERVISION_THRESHOLD_MSG (name p) (id p)
    else if threshold_test REGULAR_QUARANTINE_THRESHOLD (probability p)
         then REGULAR_QUARANTINE_MSG (name p) (id p)
         else CLEAN_MSG (name p) (id p).
Proof. reflexivity. Qed.

(** An array in ascending order is made of the records without serious
    risk, then those to quarantine, then those to hospitalize. *)
Lemma Sorted_tiers (l : list Person) :
  Forall (fun p => is_number (probability p)) l ->
  Sorted (not_greater probCompare) l ->
  exists clean quarantine hospital,
    l = clean ++ quarantine ++ hospital
    /\ Forall (fun p => writeOutput_body p = CLEAN_MSG (name p) (id p)) clean
    /\ Forall (fun p => writeOutput_body p = REGULAR_QUARANTINE_MSG (name p) (id p)) quarantine
    /\ Forall (fun p => writeOutput_body p = MEDICAL_SUPERVISION_THRESHOLD_MSG (name p) (id p))
         hospital.
Proof.
  assert (2 ^ 23 < Z.pos 10066330 < 2 ^ 24 /\ -28 <= -25 <= 104) as [Hm3 He3] by (split; lia).
  assert (2 ^ 23 < Z.pos 13421773 < 2 ^ 24 /\ -28 <= -27 <= 104) as [Hm1 He1] by (split; lia).
  induction l as [|x l IH]; intros Hn Hs.
  - exists [], [], []. repeat split; constructor.
  - pose proof Hs as Hs'. apply Sorted_inv in Hs' as [Hsl _].
    pose proof Hn as Hn'. apply Forall_cons in Hn' as [_ Hnl].
    destruct (threshold_test MEDICAL_SUPERVISION_THRESHOLD (probability x)) eqn:E3.
    + (* every record from here on is hospitalized *)
      pose proof (Sorted_threshold_test 10066330 (-25) l Hm3 He3 x Hn Hs E3) as Hall.
      exists [], [], (x :: l). split; [reflexivity|]. split; [constructor|].
      split; [constructor|]. constructor.
      * rewrite writeOutput_body_tests, E3. reflexivity.
      * eapply Forall_impl; [exact Hall|]. intros p Hp. cbv beta in Hp.
        rewrite writeOutput_body_tests.
        change (S754_finite false 10066330 (-25)) with MEDICAL_SUPERVISION_THRESHOLD in Hp.
        rewrite Hp. reflexivity.
    + destruct (IH Hnl Hsl) as (c & q & h & -> & Hc & Hq & Hh).
      destruct (threshold_test REGULAR_QUARANTINE_THRESHOLD (probability x)) eqn:E1.
      * (* no later record is without serious risk *)
        pose proof (Sorted_threshold_test 13421773 (-27) _ Hm1 He1 x Hn Hs E1) as Hall.
        assert (c = []) as ->.
        { destruct c as [|y c]; [reflexivity|]. exfalso.
          apply Forall_cons in Hall as [Hy _]. apply Forall_cons in Hc as [Hcy _].
          change (S754_finite false 13421773 (-27)) with REGULAR_QUARANTINE_THRESHOLD in Hy.
          rewrite writeOutput_body_tests, Hy in Hcy.
          destruct (threshold_test MEDICAL_SUPERVISION_THRESHOLD (probability y));
            vm_compute in Hcy; discriminate. }
        exists [], (x :: q), h. split; [reflexivity|]. split; [constructor|].
        split; [|exact Hh]. constructor; [|exact Hq].
        rewrite writeOutput_body_tests, E3, E1. reflexivity.
      * exists (x :: c), q, h. split; [reflexivity|]. split; [|auto].
        constructor; [|exact Hc]. rewrite writeOutput_body_tests, E3, E1. reflexivity.
Qed.

(** X20.  For an array in ascending order for [probCompare] whose
    probabilities are binary32 numbers, none a NaN, [writeOutput] writes
    the texts by tier: first the hospitalizations, then the quarantines,
    then the texts of the people without serious risk. *)
Theorem writeOutput_grouped (peopleList : list Person) :
  Forall (fun p => is_number (probability p)) peopleList ->
  Sorted (not_greater probCompare) peopleList ->
  exists hospital quarantine clean,
    reverse peopleList = hospital ++ quarantine ++ clean
    /\ writeOutput peopleList
       = Some (((fun p => MEDICAL_SUPERVISION_THRESHOLD_MSG (name p) (id p)) <$> hospital)
               ++ ((fun p => REGULAR_QUARANTINE_MSG (name p) (id p)) <$> quarantine)
               ++ ((fun p => CLEAN_MSG (name p) (id p)) <$> clean)).
Proof.
  intros Hn Hs. destruct (Sorted_tiers peopleList Hn Hs) as (c & q & h & -> & Hc & Hq & Hh).
  exists (reverse h), (reverse q), (reverse c). split.
  - rewrite !reverse_app, <- app_assoc. reflexivity.
  - rewrite writeOutput_total, !reverse_app, <- app_assoc, !fmap_app.
    f_equal. f_equal; [|f_equal].
    + apply Forall_fmap_ext. apply Forall_reverse. exact Hh.
    + apply Forall_fmap_ext. apply Forall_reverse. exact Hq.
    + apply Forall_fmap_ext. apply Forall_reverse. exact Hc.
Qed.

Lemma writeOutput_grouped_witness :
  exists hospital quarantine clean,
    reverse [Carol; set_probability Alice REGULAR_QUARANTINE_THRESHOLD;
             set_probability Bob F32.one]
    = hospital ++ quarantine ++ clean
    /\ writeOutput [Carol; set_probability Alice REGULAR_QUARANTINE_THRESHOLD;
                    set_probability Bob F32.one]
       = Some (((fun p => MEDICAL_SUPERVISION_THRESHOLD_MSG (name p) (id p)) <$> hospital)
               ++ ((fun p => REGULAR_QUARANTINE_MSG (name p) (id p)) <$> quarantine)
               ++ ((fun p => CLEAN_MSG (name p) (id p)) <$> clean)).
Proof.
  apply (writeOutput_grouped [Carol; set_probability Alice REGULAR_QUARANTINE_THRESHOLD;
                              set_probability Bob F32.one]).
  - repeat constructor; vm_compute; discriminate.
  - repeat constructor; vm_compute; discriminate.
Defined.

(** ** More on ingestion *)

Lemma span_token_field t r :
  unbroken t = true ->
  Libc.span_token (String.append t (String " " r)) = (t, r).
Proof.
  induction t as [|c t IH]; intros Hu.
  - reflexivity.
  - simpl in Hu. apply andb_true_iff in Hu as [Hc Ht].
    cbn [String.append Libc.span_token].
    apply negb_true_iff in Hc. rewrite Hc, (IH Ht). reflexivity.
Qed.

Lemma span_token_last t :
  unbroken t = true -> Libc.span_token t = (t, EmptyString).
Proof.
  induction t as [|c t IH]; intros Hu.
  - reflexivity.
  - simpl in Hu. apply andb_true_iff in Hu as [Hc Ht].
    cbn [Libc.span_token]. apply negb_true_iff in Hc. rewrite Hc, (IH Ht). reflexivity.
Qed.

Lemma strtok_field (str : option string) (saved t r : string) :
  is_field t = true ->
  Libc.strtok (Some (String.append t (String " " r))) saved = (Some t, r)
  /\ Libc.strtok None (String.append t (String " " r)) = (Some t, r).
Proof.
  intros Hf. unfold Libc.strtok.
  destruct t as [|c t]; [discriminate|]. simpl in Hf.
  pose proof Hf as Hf'. apply andb_true_iff in Hf' as [Hc _]. apply negb_true_iff in Hc.
  cbn [String.append Libc.skip_separators]. rewrite Hc.
  change (String c (String.append t (String " " r)))
    with (String.append (String c t) (String " " r)).
  rewrite span_token_field by exact Hf. split; reflexivity.
Qed.

Lemma strtok_last_field (t : string) :
  is_field t = true -> Libc.strtok None t = (Some t, EmptyString).
Proof.
  intros Hf. unfold Libc.strtok.
  destruct t as [|c t]; [discriminate|]. simpl in Hf.
  pose proof Hf as Hf'. apply andb_true_iff in Hf' as [Hc _]. apply negb_true_iff in Hc.
  cbn [Libc.skip_separators]. rewrite Hc.
  rewrite span_token_last by exact Hf. reflexivity.
Qed.

Lemma people_tokens_people_line n i a :
  is_field n = true -> is_field i = true -> is_field a = true ->
  people_tokens (people_line n i a) = (Some n, Some i, Some a).
Proof.
  intros Hn Hi Ha. unfold people_tokens, people_line.
  rewrite (proj1 (strtok_field None EmptyString n _ Hn)).
  rewrite (proj2 (strtok_field None EmptyString i _ Hi)).
  rewrite (strtok_last_field a Ha). reflexivity.
Qed.

(** *** Decimal numbers *)

Ltac read_digit :=
  cbn [NilEmpty.string_of_uint Libc.read_digits Pos.of_uint_acc Pos.of_uint];
  match goal with
  | |- context [Libc.isdigit ?c] => change (Libc.isdigit c) with true
  end;
  cbv iota.

Lemma read_digits_of_uint_acc d :
  forall acc n,
    exists n',
      Libc.read_digits (Zpos acc) n (NilEmpty.string_of_uint d)
      = (Zpos (Pos.of_uint_acc d acc), n', EmptyString).
Proof.
  induction d as [|d IH|d IH|d IH|d IH|d IH|d IH|d IH|d IH|d IH|d IH]; intros acc n;
    [eexists; reflexivity|..].
  all: read_digit.
  all: match goal with
       | |- context [Pos.of_uint_acc _ ?a] => destruct (IH a (n + 1)) as [n' E]
       end.
  all: exists n'; rewrite <- E; f_equal;
    match goal with
    | |- context [Libc.digit_value ?c] =>
        let v := eval vm_compute in (Libc.digit_value c) in
        change (Libc.digit_value c) with v
    end; lia.
Qed.

Lemma read_digits_of_uint d :
  forall n,
    exists n',
      Libc.read_digits 0 n (NilEmpty.string_of_uint d)
      = (Z.of_N (Pos.of_uint d), n', EmptyString).
Proof.
  induction d as [|d IH|d IH|d IH|d IH|d IH|d IH|d IH|d IH|d IH|d IH]; intros n;
    [eexists; reflexivity|..].
  { read_digit. destruct (IH (n + 1)) as [n' E]. exists n'. rewrite <- E. reflexivity. }
  all: read_digit.
  all: match goal with
       | |- context [Pos.of_uint_acc ?d' ?a] =>
           destruct (read_digits_of_uint_acc d' a (n + 1)) as [n' E]
       end.
  all: exists n'; cbn [Z.of_N]; rewrite <- E; reflexivity.
Qed.

Lemma unbroken_string_of_uint d : unbroken (NilEmpty.string_of_uint d) = true.
Proof. induction d; simpl; auto. Qed.

Lemma to_uint_not_Nil n : N.to_uint n <> Decimal.Nil.
Proof.
  destruct n as [|p]; [discriminate|]. apply DecimalPos.Unsigned.to_uint_nonnil.
Qed.

Lemma is_field_print_lu z : is_field (Libc.print_lu z) = true.
Proof.
  unfold Libc.print_lu. pose proof (to_uint_not_Nil (Z.to_N z)) as Hn.
  destruct (N.to_uint (Z.to_N z)) as [|d|d|d|d|d|d|d|d|d|d]; [contradiction|..];
    simpl; apply unbroken_string_of_uint.
Qed.

(** [strtol] reads back the decimal digits [%lu] writes, up to [LONG_MAX]. *)
Lemma strtol_string_print_lu z :
  0 <= z -> Libc.strtol_string (Libc.print_lu z) = Z.min LONG_MAX z.
Proof.
  intros Hz. unfold Libc.print_lu, Libc.strtol_string.
  pose proof (to_uint_not_Nil (Z.to_N z)) as Hn.
  pose proof (DecimalN.Unsigned.of_to (Z.to_N z)) as Hof. unfold N.of_uint in Hof.
  destruct (read_digits_of_uint (N.to_uint (Z.to_N z)) 0) as [n' E].
  rewrite Hof, Z2N.id in E by exact Hz.
  assert (NilZero.string_of_uint (N.to_uint (Z.to_N z))
          = NilEmpty.string_of_uint (N.to_uint (Z.to_N z))) as ->.
  { destruct (N.to_uint (Z.to_N z)); [contradiction|reflexivity..]. }
  assert (Libc.read_sign (Libc.skip_space (NilEmpty.string_of_uint (N.to_uint (Z.to_N z))))
          = (false, NilEmpty.string_of_uint (N.to_uint (Z.to_N z)))) as ->.
  { destruct (N.to_uint (Z.to_N z)); [contradiction|reflexivity..]. }
  rewrite E. unfold Libc.clamp_long, LONG_MIN, LONG_MAX. lia.
Qed.

(** *** Lines and records *)

(** X21.  On a line made of a name, the decimal digits of an identifier
    [i] as [%lu] writes them and an age, each a field without blank,
    separated by one blank: [fillPerson] returns [FAILURE] when the
    allocation of the name fails, and otherwise [SUCCESS] with the name,
    the identifier [i] when [i <= LONG_MAX] and [LONG_MAX] above it
    ([strtol] reads the identifier), the age [strtof] reads and the
    probability 0. *)
Theorem fillPerson_reads_fields (h : heap) (n a : string) (i : Z) :
  is_field n = true -> is_field a = true -> 0 <= i ->
  fillPerson h (people_line n (Libc.print_lu i) a)
  = Some (if fst (allocate h)
          then SUCCESS {| name := n; id := Z.min LONG_MAX i; age := Libc.strtof_string a;
                          probability := F32.of_Z 0 |}
          else FAILURE,
          snd (allocate h)).
Proof.
  intros Hn Ha Hi.
  rewrite (fillPerson_tokens h _ n (Libc.print_lu i) a)
    by (apply people_tokens_people_line; auto using is_field_print_lu).
  unfold person_of_tokens. rewrite strtol_string_print_lu by exact Hi.
  assert (to_ulong (Z.min LONG_MAX i) = Z.min LONG_MAX i) as ->; [|reflexivity].
  unfold to_ulong, ULONG_MODULUS, LONG_MAX. apply Z.mod_small. lia.
Qed.

Lemma fillPerson_reads_fields_witness :
  fillPerson [] (people_line "Dave" (Libc.print_lu 18446744073709551615) (text_line "41.5"))
  = Some (if fst (allocate [])
          then SUCCESS {| name := "Dave"; id := Z.min LONG_MAX 18446744073709551615;
                          age := Libc.strtof_string (text_line "41.5");
                          probability := F32.of_Z 0 |}
          else FAILURE,
          snd (allocate [])).
Proof.
  apply (fillPerson_reads_fields [] "Dave" (text_line "41.5") 18446744073709551615).
  - reflexivity.
  - reflexivity.
  - lia.
Defined.






(** *** The array and its capacity *)

Lemma length_realloc_Person arr capacity junk :
  (length arr <= capacity)%nat -> length (realloc_Person arr capacity junk) = capacity.
Proof.
  intros H. unfold realloc_Person.
  rewrite length_app, length_take, length_fmap, length_seq. lia.
Qed.

Lemma take_realloc_Person arr capacity junk n :
  (n <= length arr)%nat -> (length arr <= capacity)%nat ->
  take n (realloc_Person arr capacity junk) = take n arr.
Proof.
  intros Hn Hc. unfold realloc_Person.
  rewrite take_ge with (l := arr) by exact Hc.
  apply take_app_le. exact Hn.
Qed.

(** The invariant of the loop: [personsCounter] is below the capacity, so
    that the record is stored within the array, and the filled cells are the
    records read so far. *)
Lemma readPeopleFile_array_loop_filled junk lines :
  forall h arr personsCounter capacity,
    (personsCounter < length arr)%nat -> Z.of_nat (length arr) = capacity ->
    filled (readPeopleFile_array_loop junk lines h arr personsCounter capacity)
    = readPeopleFile_loop lines h (take personsCounter arr) capacity
    /\ forall arr' n,
         readPeopleFile_array_loop junk lines h arr personsCounter capacity = Returns (arr', n) ->
         (n < length arr')%nat.
Proof.
  induction lines as [|line lines IH]; intros h arr c cap Hc Hcap.
  - cbn. split; [reflexivity|]. intros arr' n [= <- <-]. exact Hc.
  - cbn [readPeopleFile_array_loop readPeopleFile_loop].
    destruct (fillPerson h line) as [[[|person] h1]|]; [split; [reflexivity|discriminate]| |
                                                       split; [reflexivity|discriminate]].
    rewrite store_Some by exact Hc. cbv zeta.
    assert (take (S c) (<[c := person]> arr) = take c arr ++ [person]) as Htake.
    { rewrite (take_S_r _ _ person) by (apply list_lookup_insert_eq; exact Hc).
      rewrite take_insert_ge by lia. reflexivity. }
    assert (length (take c arr ++ [person]) = S c) as Hlen.
    { rewrite length_app, length_take. simpl. lia. }
    rewrite Hlen.
    destruct (Z.eqb_spec (Z.of_nat (S c)) cap) as [Heq|Hne].
    + unfold allocateMore. destruct (allocate h1) as [[] h2];
        [|split; [reflexivity|discriminate]].
      assert (length (<[c := person]> arr) <= Z.to_nat (cap * ALLOC_SIZE))%nat as Hle.
      { rewrite length_insert. unfold ALLOC_SIZE. lia. }
      destruct (IH h2 (realloc_Person (<[c := person]> arr) (Z.to_nat (cap * ALLOC_SIZE)) junk)
                  (S c) (cap * ALLOC_SIZE)) as [E B].
      * rewrite length_realloc_Person by exact Hle. unfold ALLOC_SIZE. lia.
      * rewrite length_realloc_Person by exact Hle. unfold ALLOC_SIZE. lia.
      * split; [|exact B]. rewrite E.
        rewrite take_realloc_Person by (try exact Hle; rewrite length_insert; lia).
        rewrite Htake. reflexivity.
    + destruct (IH h1 (<[c := person]> arr) (S c) cap) as [E B].
      * rewrite length_insert. lia.
      * rewrite length_insert. exact Hcap.
      * split; [|exact B]. rewrite E, Htake. reflexivity.
Qed.

(** X23.  [readPeopleFile] on the array with its capacity (two cells at
    first, doubled by [allocateMore] each time the array is full, whatever
    the new cells hold): no record is stored outside the array, the filled
    cells are the records of the lines as on the sequence of records, and
    on return at least one cell is free. *)
Theorem readPeopleFile_array_refines (junk : nat -> Person) (h : heap)
    (peopleFile : list string) :
  filled (readPeopleFile_array junk h peopleFile) = readPeopleFile h peopleFile
  /\ forall arr personsCounter,
       readPeopleFile_array junk h peopleFile = Returns (arr, personsCounter) ->
       (personsCounter < length arr)%nat.
Proof.
  unfold readPeopleFile_array, readPeopleFile.
  destruct (allocate h) as [[] h1]; cbn [negb]; [|split; [reflexivity|discriminate]].
  apply (readPeopleFile_array_loop_filled junk peopleFile h1
           (calloc_Person (Z.to_nat ALLOC_SIZE)) 0 ALLOC_SIZE).
  - simpl. lia.
  - reflexivity.
Qed.

(** ** The numbers the program computes are binary32 numbers *)

Lemma Zdigits2_nonneg m : 0 <= m -> 0 <= Zdigits2 m.
Proof. destruct m; simpl; lia. Qed.

Lemma Zdigits2_div_pos m k :
  0 < m -> 0 <= k -> 0 < m / 2 ^ k -> Zdigits2 (m / 2 ^ k) = Zdigits2 m - k.
Proof.
  intros Hm Hk Hq.
  destruct (Z_lt_ge_dec k (Zdigits2 m)) as [Hlt|Hge].
  - apply Zdigits2_div_pow2; lia.
  - exfalso. pose proof (Zdigits2_bounds m Hm) as [_ Hb].
    assert (m < 2 ^ k).
    { eapply Z.lt_le_trans; [exact Hb|]. apply Z.pow_le_mono_r; lia. }
    rewrite Z.div_small in Hq by lia. lia.
Qed.

Lemma Zdigits2_mul m n : 0 < m -> 0 < n -> Zdigits2 m + Zdigits2 n - 1 <= Zdigits2 (m * n).
Proof.
  intros Hm Hn.
  pose proof (Zdigits2_bounds m Hm) as [Hlm _].
  pose proof (Zdigits2_bounds n Hn) as [Hln _].
  pose proof (Zdigits2_pos m Hm). pose proof (Zdigits2_pos n Hn).
  assert (2 ^ (Zdigits2 m - 1 + (Zdigits2 n - 1)) <= m * n) as Hlow.
  { rewrite Z.pow_add_r by lia.
    apply Z.mul_le_mono_nonneg; try assumption; apply Z.pow_nonneg; lia. }
  apply Zdigits2_ge_pow2 in Hlow; lia.
Qed.

Section Validity.
Variables prec emax : Z.
Hypothesis prec_pos : 0 < prec.

Local Abbreviation fexp := (fexp prec emax).
Local Abbreviation emin := (emin prec emax).

Lemma fexp_ge_emin a : emin <= fexp a.
Proof. unfold SpecFloat.fexp. lia. Qed.

Lemma fexp_le_emin a : a <= fexp a -> fexp a = emin.
Proof. unfold SpecFloat.fexp. lia. Qed.

(** [shr_fexp] for a mantissa that is not negative. *)
Lemma shr_fexp_nonneg m e l :
  0 <= m -> e <= fexp (Zdigits2 m + e) ->
  let n := fexp (Zdigits2 m + e) - e in
  let '(mrs, e') := shr_fexp prec emax m e l in
  shr_m mrs = m / 2 ^ n /\ e' = e + n.
Proof.
  intros Hm He n. unfold shr_fexp, shr. fold n.
  destruct n as [|p|p] eqn:Hn; try lia.
  - rewrite shr_m_shr_record_of_loc, Z.div_1_r. lia.
  - rewrite shr_m_iter_pos by (rewrite shr_m_shr_record_of_loc; lia).
    rewrite shr_m_shr_record_of_loc. lia.
Qed.

(** [binary_round_aux] returns a number in canonical form, a zero or an
    infinity when the exponent it is given is not above the target
    exponent. *)
Lemma binary_round_aux_valid sx mx ex lx :
  0 <= mx -> ex <= fexp (Zdigits2 mx + ex) ->
  valid_binary prec emax (binary_round_aux prec emax sx mx ex lx) = true.
Proof.
  intros Hmx Hex. unfold binary_round_aux.
  set (mag := Zdigits2 mx + ex) in *.
  pose proof (shr_fexp_nonneg mx ex lx Hmx Hex) as H1. cbv zeta in H1.
  destruct (shr_fexp prec emax mx ex lx) as [mrs' e'].
  destruct H1 as [Hm' He']. fold mag in Hm', He'.
  set (n1 := fexp mag - ex) in *.
  assert (0 <= n1) as Hn1 by (unfold n1; lia).
  assert (0 < 2 ^ n1) as Hp1 by (apply Z.pow_pos_nonneg; lia).
  assert (0 <= shr_m mrs') as Hm'0 by (rewrite Hm'; apply Z.div_pos; lia).
  assert (e' = fexp mag) as He'mag by (unfold n1 in He'; lia).
  set (m1 := round_nearest_even (shr_m mrs') (loc_of_shr_record mrs')).
  pose proof (round_nearest_even_bounds (shr_m mrs') (loc_of_shr_record mrs')) as Hm1.
  fold m1 in Hm1.
  assert (0 <= m1) as Hm1nn by lia.
  (* the exponent is still not above the target *)
  assert (e' <= fexp (Zdigits2 m1 + e')) as He'1.
  { destruct (Z.eq_dec (shr_m mrs') 0) as [Hz|Hnz].
    - (* everything was shifted out: the target is the least exponent *)
      assert (fexp mag = emin) as Hemin.
      { apply fexp_le_emin. destruct (Z.eq_dec mx 0) as [->|Hmxnz].
        - unfold mag in *. simpl in *. exact Hex.
        - assert (0 < mx) as Hmxpos by lia.
          pose proof (Zdigits2_bounds mx Hmxpos) as [Hlow _].
          pose proof (Zdigits2_pos mx Hmxpos).
          assert (mx < 2 ^ n1) as Hsmall.
          { rewrite Hz in Hm'. symmetry in Hm'.
            apply Z.div_small_iff in Hm'; lia. }
          assert (Zdigits2 mx - 1 < n1).
          { apply (Z.pow_lt_mono_r_iff 2); lia. }
          unfold mag, n1 in *. lia. }
      rewrite He'mag, Hemin. apply fexp_ge_emin.
    - assert (0 < shr_m mrs') as Hpos by lia.
      assert (0 < mx) as Hmxpos.
      { destruct (Z.eq_dec mx 0) as [->|]; [|lia]. rewrite Z.div_0_l in Hm' by lia. lia. }
      rewrite Hm' in Hpos.
      pose proof (Zdigits2_div_pos mx n1 Hmxpos Hn1 Hpos) as Hd. rewrite <- Hm' in Hd.
      assert (Zdigits2 (shr_m mrs') <= Zdigits2 m1) as Hle by (apply Zdigits2_le; lia).
      rewrite He'mag at 1. apply fexp_mono. unfold mag, n1 in *. lia. }
  pose proof (shr_fexp_nonneg m1 e' loc_Exact Hm1nn He'1) as H2. cbv zeta in H2.
  destruct (shr_fexp prec emax m1 e' loc_Exact) as [mrs'' e''].
  destruct H2 as [Hm'' He''].
  set (n2 := fexp (Zdigits2 m1 + e') - e') in *.
  assert (0 <= n2) as Hn2 by (unfold n2; lia).
  destruct (shr_m mrs'') as [|m|m] eqn:Hshr; [reflexivity| |].
  - destruct (e'' <=? emax - prec) eqn:Hle; [|reflexivity].
    cbn [valid_binary]. unfold bounded, canonical_mantissa. rewrite Hle, andb_true_r.
    apply Z.eqb_eq. change (Z.pos (digits2_pos m)) with (Zdigits2 (Zpos m)).
    assert (0 < m1) as Hm1pos.
    { destruct (Z.eq_dec m1 0) as [Hz|]; [|lia]. rewrite Hz, Z.div_0_l in Hm''; [lia|].
      apply Z.pow_nonzero; lia. }
    assert (0 < m1 / 2 ^ n2) as Hq by lia.
    pose proof (Zdigits2_div_pos m1 n2 Hm1pos Hn2 Hq) as Hd.
    rewrite Hm'', Hd.
    replace (Zdigits2 m1 - n2 + e'') with (Zdigits2 m1 + e') by lia.
    unfold n2 in He''. lia.
  - exfalso. assert (0 <= m1 / 2 ^ n2) by (apply Z.div_pos; [lia|apply Z.pow_pos_nonneg; lia]).
    lia.
Qed.

Lemma binary_round_valid sx mx ex :
  valid_binary prec emax (binary_round prec emax sx mx ex) = true.
Proof.
  unfold binary_round, shl_align.
  change (Z.pos (digits2_pos mx)) with (Zdigits2 (Zpos mx)).
  set (mag := Zdigits2 (Zpos mx) + ex).
  destruct (fexp mag - ex) as [|d|d] eqn:Hd.
  - apply binary_round_aux_valid; [lia|]. fold mag. lia.
  - apply binary_round_aux_valid; [lia|]. fold mag. lia.
  - apply binary_round_aux_valid; [lia|].
    rewrite Pos_iter_xO, Zdigits2_mul_pow2 by lia.
    replace (Zdigits2 (Z.pos mx) + Z.pos d + fexp mag) with mag by (unfold mag in *; lia).
    lia.
Qed.

Lemma binary_normalize_valid m e szero :
  valid_binary prec emax (binary_normalize prec emax m e szero) = true.
Proof. destruct m; [reflexivity|apply binary_round_valid..]. Qed.

(** The quotient and the exponent [SFdiv_core_binary] computes are such
    that the rounding returns a number in canonical form. *)
Lemma SFdiv_core_binary_valid sx m1 e1 m2 e2 :
  0 < m1 -> 0 < m2 ->
  let '(q, e', l) := SFdiv_core_binary prec emax m1 e1 m2 e2 in
  valid_binary prec emax (binary_round_aux prec emax sx q e' l) = true.
Proof.
  intros Hm1 Hm2. unfold SFdiv_core_binary.
  set (d1 := Zdigits2 m1). set (d2 := Zdigits2 m2).
  set (M := d1 + e1 - (d2 + e2)).
  set (e' := Z.min (fexp M) (e1 - e2)).
  set (s := e1 - e2 - e').
  assert (0 <= s) as Hs by (unfold s, e'; lia).
  assert (match s with
          | 0 => m1
          | Z.pos _ => Z.shiftl m1 s
          | Z.neg _ => 0
          end = m1 * 2 ^ s) as ->.
  { destruct s as [|p|p] eqn:Es; [lia| |lia]. apply Z.shiftl_mul_pow2. lia. }
  assert (0 < 2 ^ s) as Hps by (apply Z.pow_pos_nonneg; lia).
  pose proof (Z_div_mod (m1 * 2 ^ s) m2 ltac:(lia)) as Hdm.
  destruct (Z.div_eucl (m1 * 2 ^ s) m2) as [q r]. destruct Hdm as [Hq Hr].
  assert (0 <= q) as Hq0 by nia.
  apply binary_round_aux_valid; [exact Hq0|].
  pose proof (Zdigits2_bounds m1 Hm1) as [Hl1 Hu1]. fold d1 in Hl1, Hu1.
  pose proof (Zdigits2_bounds m2 Hm2) as [Hl2 Hu2]. fold d2 in Hl2, Hu2.
  pose proof (Zdigits2_pos m1 Hm1) as Hd1. fold d1 in Hd1.
  pose proof (Zdigits2_pos m2 Hm2) as Hd2. fold d2 in Hd2.
  destruct (Z_le_gt_dec (d1 + s) d2) as [Hsmall|Hbig].
  - (* the quotient may be zero: the exponent is the least one *)
    assert (e' <= emin) as He'.
    { assert (M <= e') by (unfold M, s in *; lia).
      assert (e' <= fexp M) by (unfold e'; lia).
      unfold SpecFloat.fexp in *. lia. }
    pose proof (fexp_ge_emin (Zdigits2 q + e')). lia.
  - assert (2 ^ (d1 + s - 1 - d2) <= q) as Hlow.
    { assert (2 ^ (d1 + s - 1 - d2) * 2 ^ d2 <= m1 * 2 ^ s) as Hprod.
      { rewrite <- Z.pow_add_r by lia.
        replace (d1 + s - 1 - d2 + d2) with (d1 - 1 + s) by lia.
        rewrite Z.pow_add_r by lia. apply Z.mul_le_mono_nonneg_r; lia. }
      assert (0 < 2 ^ (d1 + s - 1 - d2)) by (apply Z.pow_pos_nonneg; lia).
      nia. }
    apply Zdigits2_ge_pow2 in Hlow; [|lia].
    assert (e' <= fexp M) by (unfold e'; lia).
    transitivity (fexp M); [assumption|]. apply fexp_mono. unfold M, s in *. lia.
Qed.
End Validity.

Lemma F32_mul_valid (x y : F32.float) :
  F32.valid x = true -> F32.valid y = true -> F32.valid (F32.mul x y) = true.
Proof.
  intros Hx Hy.
  destruct x as [sx|sx| |sx mx ex], y as [sy|sy| |sy my ey]; try reflexivity.
  unfold F32.valid, F32.mul. cbn [SFmul].
  apply binary_round_aux_valid; [reflexivity|lia|].
  destruct (valid_finite sx mx ex Hx) as (Hex & Hdx & Hnx).
  destruct (valid_finite sy my ey Hy) as (Hey & Hdy & Hny).
  pose proof (Zdigits2_mul (Zpos mx) (Zpos my) ltac:(lia) ltac:(lia)) as Hd.
  pose proof (Zdigits2_pos (Zpos mx) ltac:(lia)).
  pose proof (Zdigits2_pos (Zpos my) ltac:(lia)).
  rewrite Pos2Z.inj_mul. unfold fexp, emin, F32.prec, F32.emax. lia.
Qed.

Lemma F32_div_valid (x y : F32.float) : F32.valid (F32.div x y) = true.
Proof.
  destruct x as [sx|sx| |sx mx ex], y as [sy|sy| |sy my ey]; try reflexivity.
  unfold F32.valid, F32.div. cbn [SFdiv].
  pose proof (SFdiv_core_binary_valid F32.prec F32.emax ltac:(reflexivity) (xorb sx sy)
                (Zpos mx) ex (Zpos my) ey ltac:(lia) ltac:(lia)) as H.
  destruct (SFdiv_core_binary F32.prec F32.emax (Z.pos mx) ex (Z.pos my) ey) as [[q e'] l].
  exact H.
Qed.

Lemma crna_valid (dist time : F32.float) : F32.valid (crna dist time) = true.
Proof. apply F32_div_valid. Qed.

Lemma read_digits_nonneg s :
  forall acc n, 0 <= acc -> 0 <= fst (fst (Libc.read_digits acc n s)).
Proof.
  induction s as [|c s IH]; intros acc n Hacc; [exact Hacc|].
  cbn [Libc.read_digits]. destruct (Libc.isdigit c) eqn:Hc; [|exact Hacc].
  apply IH. unfold Libc.isdigit in Hc. apply andb_true_iff in Hc as [H1 _].
  apply Nat.leb_le in H1. unfold Libc.digit_value. lia.
Qed.

Lemma round_decimal_valid neg m e : 0 <= m -> F32.valid (Libc.round_decimal neg m e) = true.
Proof.
  intros Hm. unfold Libc.round_decimal, F32.valid.
  destruct (Z.eqb_spec m 0) as [|Hnz]; [reflexivity|].
  destruct (Z.leb_spec 0 e) as [He|He]; [apply binary_normalize_valid; reflexivity|].
  pose proof (SFdiv_core_binary_valid F32.prec F32.emax ltac:(reflexivity) neg
                m 0 (10 ^ (- e)) 0 ltac:(lia)) as H.
  destruct (SFdiv_core_binary F32.prec F32.emax m 0 (10 ^ (- e)) 0) as [[q e'] l].
  apply H. apply Z.pow_pos_nonneg; lia.
Qed.

Lemma strtof_decimal_valid neg s : F32.valid (Libc.strtof_decimal neg s) = true.
Proof.
  unfold Libc.strtof_decimal.
  pose proof (read_digits_nonneg s 0 0 ltac:(lia)) as H1.
  destruct (Libc.read_digits 0 0 s) as [[ip n1] s1]. cbn [fst] in H1.
  assert (forall acc s', 0 <= acc ->
            let '(m, n2, s2) := Libc.read_digits acc 0 s' in
            F32.valid (if n1 + n2 =? 0 then F32.zero
                       else Libc.round_decimal neg m
                              (Libc.read_exponent_after "e"%char s2 - n2)) = true) as Hgen.
  { intros acc s' Hacc. pose proof (read_digits_nonneg s' acc 0 Hacc) as H2.
    destruct (Libc.read_digits acc 0 s') as [[m n2] s2]. cbn [fst] in H2.
    destruct (_ =? _); [reflexivity|]. apply round_decimal_valid. exact H2. }
  assert (F32.valid (if n1 + 0 =? 0 then F32.zero
                     else Libc.round_decimal neg ip
                            (Libc.read_exponent_after "e"%char s1 - 0)) = true) as Hplain.
  { destruct (_ =? _); [reflexivity|]. apply round_decimal_valid. exact H1. }
  destruct s1 as [|c s1']; [exact Hplain|].
  destruct (Ascii.eqb_spec c "."%char) as [->|Hc].
  - specialize (Hgen ip s1' H1). destruct (Libc.read_digits ip 0 s1') as [[m n2] s2].
    exact Hgen.
  - destruct c as [[] [] [] [] [] [] [] []]; try exact Hplain. contradiction.
Qed.

Lemma strtof_string_valid s : F32.valid (Libc.strtof_string s) = true.
Proof.
  unfold Libc.strtof_string. destruct (Libc.read_sign _) as [neg s1].
  destruct (Libc.has_prefix_ci "inf" s1); [reflexivity|].
  destruct (Libc.has_prefix_ci "nan" s1); [reflexivity|].
  destruct (Libc.has_prefix_ci "0x" s1); [|apply strtof_decimal_valid].
  unfold Libc.strtof_hex.
  destruct (Libc.read_xdigits 0 0 _) as [[ip n1] s2].
  destruct s2 as [|c s2'].
  - destruct (_ =? _); [reflexivity|]. apply binary_normalize_valid. reflexivity.
  - assert (forall (r : Z * Z * string),
               F32.valid
                 match (let '(m, n2, s3) := r in
                        if n1 + n2 =? 0 then None
                        else Some (binary_normalize F32.prec F32.emax (cond_Zopp neg m)
                                     (Libc.read_exponent_after "p"%char s3 - 4 * n2) neg))
                 with
                 | Some x => x
                 | None => S754_zero neg
                 end = true) as Hgen.
    { intros [[m n2] s3]. destruct (_ =? _); [reflexivity|].
      apply binary_normalize_valid. reflexivity. }
    pose proof (Hgen (ip, 0, String c s2')) as Hplain.
    destruct (Ascii.eqb_spec c "."%char) as [->|Hc].
    + apply Hgen.
    + destruct c as [[] [] [] [] [] [] [] []]; try exact Hplain. contradiction.
Qed.

Lemma probUpdater_valid fuel peopleList line pl' :
  Forall (fun p => F32.valid (probability p) = true) peopleList ->
  probUpdater fuel peopleList line = Some pl' ->
  Forall (fun p => F32.valid (probability p) = true) pl'.
Proof.
  intros Hall. rewrite probUpdater_parse.
  destruct (parse_meeting line) as [m|]; [|discriminate].
  cbn. unfold update_probability.
  destruct (binarySearchById _ _ (infectorId m) _ _) as [i|]; [|discriminate]. cbn.
  destruct (binarySearchById _ _ (infectedId m) _ _) as [j|]; [|discriminate]. cbn.
  destruct (load_at peopleList i) as [pa|] eqn:Hi; [|discriminate]. cbn.
  destruct (load_at peopleList j) as [pb|]; [|discriminate]. cbn.
  intros [_ ->]%store_inv. apply Forall_insert; [exact Hall|].
  cbn [probability set_probability]. apply F32_mul_valid; [|apply crna_valid].
  apply load_at_Some in Hi as [_ Hi]. rewrite Forall_lookup in Hall.
  apply (Hall _ _ Hi).
Qed.

Lemma readMeetingsFile_loop_valid fuel lines :
  forall pl final,
    Forall (fun p => F32.valid (probability p) = true) pl ->
    readMeetingsFile_loop fuel lines pl = Some final ->
    Forall (fun p => F32.valid (probability p) = true) final.
Proof.
  induction lines as [|line lines IH]; intros pl final Hall H.
  - injection H as <-. exact Hall.
  - simpl in H. destruct (probUpdater fuel pl line) as [pl'|] eqn:E; [|discriminate].
    apply (IH pl' final); [|exact H]. eapply probUpdater_valid; eassumption.
Qed.


(** X26.  The probabilities stay binary32 numbers: when every probability
    of the array is one (a finite number in canonical form, a zero, an
    infinity or a NaN), so is every probability after [readMeetingsFile],
    whatever the meetings file holds. *)
Theorem readMeetingsFile_valid_probabilities (fuel : nat) (meetingsFile : list string)
    (peopleList final : list Person) :
  Forall (fun p => F32.valid (probability p) = true) peopleList ->
  readMeetingsFile fuel meetingsFile peopleList = Some final ->
  Forall (fun p => F32.valid (probability p) = true) final.
Proof.
  intros Hall H. destruct meetingsFile as [|line rest].
  - injection H as <-. exact Hall.
  - destruct (readMeetingsFile_inv _ _ _ _ _ H) as (i & sick & _ & Hi & _ & Hl).
    apply (readMeetingsFile_loop_valid fuel rest
             (<[i := set_probability sick (F32.of_Z 1)]> peopleList) final); [|exact Hl].
    apply Forall_insert; [exact Hall|]. reflexivity.
Qed.

Lemma readMeetingsFile_valid_probabilities_witness :
  Forall (fun p => F32.valid (probability p) = true)
    [set_probability Alice F32.one; Bob; set_probability Carol (S754_infinity false)].
Proof.
  apply (readMeetingsFile_valid_probabilities 3 [text_line "1"; text_line "1 3 0 30"]
           [Alice; Bob; Carol]
           [set_probability Alice F32.one; Bob; set_probability Carol (S754_infinity false)]).
  - repeat constructor.
  - vm_compute. reflexivity.
Defined.


(** ** The program *)




Lemma sortById_msort (peopleList : list Person) :
  sortById peopleList = Some (msort idCompare peopleList).
Proof.
  unfold sortById.
  destruct (mergeSort_msort idCompare peopleList (calloc_Person (length peopleList)))
    as (draft' & E); [rewrite length_calloc_Person; lia|].
  rewrite E. reflexivity.
Qed.



(** ** The program on the array *)

(** *** Steps of the program *)

Ltac run_prog :=
  cbv [mbind prog_bind mret prog_ret fprintf_stderr exit beforeExitFailure_io];
  cbn [negb on_stderr on_disk people_closed meetings_closed output_closed].

Lemma bind_result {A B} (m : prog A) (f : A -> prog B) (s : effects) :
  (m ≫= f) s
  = match m s with
    | Done a s' => f a s'
    | Exit status s' => Exit status s'
    | Fault => Fault
    end.
Proof. reflexivity. Qed.

Lemma bind_defined {A B} (o : option A) (f : A -> prog B) (s : effects) :
  (defined o ≫= f) s
  = match o with
    | Some a => f a s
    | None => Fault
    end.
Proof. destruct o; reflexivity. Qed.

Lemma bind_defined_Some {A B} (o : option A) (a : A) (f : A -> prog B) (s : effects) :
  o = Some a -> (defined o ≫= f) s = f a s.
Proof. intros ->. reflexivity. Qed.

Lemma bind_defined_inv {A B} (o : option A) (f : A -> prog B) (s : effects) :
  (defined o ≫= f) s <> Fault -> exists a, o = Some a /\ (defined o ≫= f) s = f a s.
Proof. destruct o as [a|]; [exists a; auto|]. intros H. destruct H. reflexivity. Qed.

Lemma append_assoc (a b c : string) :
  String.append (String.append a b) c = String.append a (String.append b c).
Proof. induction a as [|x a IH]; [reflexivity|]. simpl. rewrite IH. reflexivity. Qed.

Lemma prints_stderr s text :
  prints s {| on_stderr := String.append (on_stderr s) text; on_disk := on_disk s |} text.
Proof. split; reflexivity. Qed.

(** *** The records and the cells after them *)

Lemma load_at_app peopleList spare i p :
  load_at peopleList i = Some p -> load_at (peopleList ++ spare) i = Some p.
Proof.
  rewrite !load_at_Some. intros [Hi Hp]. split; [exact Hi|].
  apply lookup_app_l_Some. exact Hp.
Qed.

(** A search that returns on the records returns the same index on the
    array that holds them. *)
Lemma binarySearchById_app fuel :
  forall peopleList spare idToFind start end_ i,
    binarySearchById fuel peopleList idToFind start end_ = Some i ->
    binarySearchById fuel (peopleList ++ spare) idToFind start end_ = Some i.
Proof.
  induction fuel as [|fuel IH]; intros pl spare target start end_ i; [discriminate|].
  cbn [binarySearchById].
  destruct (load_at pl _) as [pm|] eqn:Hload; [|discriminate].
  rewrite (load_at_app _ spare _ _ Hload).
  destruct (id pm =? target); [auto|].
  destruct (id pm >? target); apply IH.
Qed.

Lemma store_app {A} (arr spare arr' : list A) i x :
  store arr i x = Some arr' -> store (arr ++ spare) i x = Some (arr' ++ spare).
Proof.
  intros [Hi ->]%store_inv. rewrite store_Some by (rewrite length_app; lia).
  rewrite insert_app_l by exact Hi. reflexivity.
Qed.

Lemma probUpdater_array_app fuel peopleList spare line pl' :
  probUpdater fuel peopleList line = Some pl' ->
  probUpdater_array fuel (peopleList ++ spare) (Z.of_nat (length peopleList)) line
  = Some (pl' ++ spare).
Proof.
  unfold probUpdater, probUpdater_array.
  destruct (Libc.strtok (Some line) _) as [tok1 saved1].
  destruct (Libc.strtok None saved1) as [tok2 saved2].
  destruct (Libc.strtok None saved2) as [tok3 saved3].
  destruct (Libc.strtok None saved3) as [tok4 saved4].
  destruct (to_ulong <$> Libc.strtol tok1) as [a|]; [|discriminate].
  cbn [mbind option_bind].
  destruct (to_ulong <$> Libc.strtol tok2) as [b|]; [|discriminate].
  cbn [mbind option_bind].
  destruct (binarySearchById fuel peopleList a _ _) as [i|] eqn:Ei; [|discriminate].
  rewrite (binarySearchById_app _ _ spare _ _ _ _ Ei). cbn [mbind option_bind].
  destruct (binarySearchById fuel peopleList b _ _) as [j|] eqn:Ej; [|discriminate].
  rewrite (binarySearchById_app _ _ spare _ _ _ _ Ej). cbn [mbind option_bind].
  destruct (Libc.strtof tok3) as [d|]; [|discriminate]. cbn [mbind option_bind].
  destruct (Libc.strtof tok4) as [t|]; [|discriminate]. cbn [mbind option_bind].
  destruct (load_at peopleList i) as [pa|] eqn:Hi; [|discriminate].
  rewrite (load_at_app _ spare _ _ Hi). cbn [mbind option_bind].
  destruct (load_at peopleList j) as [pb|] eqn:Hj; [|discriminate].
  rewrite (load_at_app _ spare _ _ Hj). cbn [mbind option_bind].
  apply store_app.
Qed.

Lemma readMeetingsFile_array_loop_app fuel lines spare :
  forall peopleList final,
    readMeetingsFile_loop fuel lines peopleList = Some final ->
    readMeetingsFile_array_loop fuel lines (peopleList ++ spare)
      (Z.of_nat (length peopleList))
    = Some (final ++ spare).
Proof.
  induction lines as [|line lines IH]; intros pl final H.
  - injection H as <-. reflexivity.
  - cbn [readMeetingsFile_loop] in H. cbn [readMeetingsFile_array_loop].
    destruct (probUpdater fuel pl line) as [pl'|] eqn:E; [|discriminate].
    rewrite (probUpdater_array_app _ _ spare _ _ E).
    rewrite <- (length_ids _ _ (probUpdater_ids _ _ _ _ E)).
    apply IH. exact H.
Qed.

(** What [probUpdater] does on the array when it returns. *)
Lemma probUpdater_array_inv fuel arr peopleListSize line arr' :
  probUpdater_array fuel arr peopleListSize line = Some arr' ->
  exists m j infected x,
    parse_meeting line = Some m
    /\ has_id arr (infectorId m) = true
    /\ has_id arr (infectedId m) = true
    /\ arr !! j = Some infected /\ id infected = infectedId m
    /\ arr' = <[j := set_probability infected x]> arr.
Proof.
  unfold probUpdater_array, parse_meeting.
  destruct (Libc.strtok (Some line) _) as [tok1 saved1].
  destruct (Libc.strtok None saved1) as [tok2 saved2].
  destruct (Libc.strtok None saved2) as [tok3 saved3].
  destruct (Libc.strtok None saved3) as [tok4 saved4].
  destruct (to_ulong <$> Libc.strtol tok1) as [a|]; [|discriminate].
  cbn [mbind option_bind].
  destruct (to_ulong <$> Libc.strtol tok2) as [b|]; [|discriminate].
  cbn [mbind option_bind].
  destruct (binarySearchById fuel arr a _ _) as [i|] eqn:Ei; [|discriminate].
  cbn [mbind option_bind].
  destruct (binarySearchById fuel arr b _ _) as [j|] eqn:Ej; [|discriminate].
  cbn [mbind option_bind].
  destruct (Libc.strtof tok3) as [d|]; [|discriminate]. cbn [mbind option_bind].
  destruct (Libc.strtof tok4) as [t|]; [|discriminate]. cbn [mbind option_bind].
  destruct (load_at arr i) as [pa|]; [|discriminate]. cbn [mbind option_bind].
  destruct (load_at arr j) as [pb|] eqn:Hj; [|discriminate]. cbn [mbind option_bind].
  intros [_ ->]%store_inv.
  destruct (binarySearchById_sound _ _ _ _ _ _ Ej) as (q & Hq & Hidq).
  rewrite Hj in Hq. injection Hq as <-.
  apply load_at_Some in Hj as [_ Hj].
  eexists _, (Z.to_nat j), pb, _.
  split; [reflexivity|]. cbn.
  split; [eapply binarySearchById_has_id; exact Ei|].
  split; [eapply binarySearchById_has_id; exact Ej|].
  auto.
Qed.

(** The loop returns only when every line has its four fields and names
    identifiers that cells of the array hold. *)
Lemma readMeetingsFile_array_loop_resolved fuel lines peopleListSize :
  forall arr final,
    readMeetingsFile_array_loop fuel lines arr peopleListSize = Some final ->
    forallb (resolved arr) lines = true.
Proof.
  induction lines as [|line lines IH]; intros arr final H; [reflexivity|].
  cbn [readMeetingsFile_array_loop] in H.
  destruct (probUpdater_array fuel arr peopleListSize line) as [arr'|] eqn:E; [|discriminate].
  destruct (probUpdater_array_inv _ _ _ _ _ E) as (m & j & pb & x & Hm & Ha & Hb & Hj & _ & ->).
  cbn [forallb]. apply andb_true_iff. split.
  - unfold resolved. rewrite Hm, Ha, Hb. reflexivity.
  - rewrite <- (IH _ _ H). apply forallb_pointwise. intros l. apply resolved_ids.
    symmetry. apply insert_set_probability_ids. exact Hj.
Qed.

(** On an array whose first cells are the records, [readMeetingsFile]
    does what it does on the sequence of the records, when it returns
    there. *)
Lemma readMeetingsFile_io_app fuel closed meetingsFile peopleList spare final s :
  readMeetingsFile fuel meetingsFile peopleList = Some final ->
  meetingsFile <> [] \/ closed = true ->
  readMeetingsFile_io fuel closed meetingsFile (peopleList ++ spare)
    (Z.of_nat (length peopleList)) s
  = if closed then Done (final ++ spare) s
    else Exit EXIT_FAILURE
           {| on_stderr := String.append (on_stderr s) STANDARD_LIB_ERR_MSG;
              on_disk := on_disk s |}.
Proof.
  destruct meetingsFile as [|line rest].
  - intros [= <-] [H | ->]; [destruct H|]; reflexivity.
  - intros Hfinal _. revert Hfinal. unfold readMeetingsFile, readMeetingsFile_io.
    cbn [fmap option_fmap option_map Libc.strtol mbind option_bind].
    destruct (binarySearchById fuel peopleList _ 0 _) as [i|] eqn:Ei; [|discriminate].
    cbn [mbind option_bind].
    destruct (load_at peopleList i) as [sick|] eqn:Hi; [|discriminate].
    cbn [mbind option_bind].
    destruct (store peopleList _ _) as [pl|] eqn:Est; [|discriminate].
    cbn [mbind option_bind]. intros Hloop.
    rewrite (bind_defined_Some _ _ _ _ eq_refl).
    rewrite (bind_defined_Some _ _ _ _ (binarySearchById_app _ _ spare _ _ _ _ Ei)).
    rewrite (bind_defined_Some _ _ _ _ (load_at_app _ spare _ _ Hi)).
    rewrite (bind_defined_Some _ _ _ _ (store_app _ spare _ _ _ Est)).
    pose proof (readMeetingsFile_array_loop_app fuel rest spare pl final Hloop) as Harr.
    rewrite (store_length _ _ _ _ Est) in Harr.
    rewrite (bind_defined_Some _ _ _ _ Harr).
    destruct closed; reflexivity.
Qed.

(** X13.  [readMeetingsFile] on the array that holds the records in
    ascending order of the identifiers, followed by the cells allocated
    after them, and a meetings file that is not empty.  When the
    identifier of the first line and the identifiers of every meeting
    occur in the records, the function does on the records what
    [readMeetingsFile] does on their sequence, leaves the other cells as
    they are, and returns, or leaves the program with
    [STANDARD_LIB_ERR_MSG] when the file cannot be closed.  It returns
    or leaves the program in this way only if every identifier it looks up
    is held by a cell of the array, a record or not, and every meeting has
    its four fields. *)
Theorem readMeetingsFile_io_resolved (fuel : nat) (closed : bool) (line : string)
    (rest : list string) (peopleList spare : list Person) (s : effects) :
  sorted_by_id peopleList ->
  (length peopleList <= fuel)%nat ->
  let arr := peopleList ++ spare in
  let peopleListSize := Z.of_nat (length peopleList) in
  let sickId := to_ulong (Libc.strtol_string line) in
  (has_id peopleList sickId = true /\ forallb (resolved peopleList) rest = true ->
   exists final,
     readMeetingsFile fuel (line :: rest) peopleList = Some final
     /\ readMeetingsFile_io fuel closed (line :: rest) arr peopleListSize s
        = if closed then Done (final ++ spare) s
          else Exit EXIT_FAILURE
                 {| on_stderr := String.append (on_stderr s) STANDARD_LIB_ERR_MSG;
                    on_disk := on_disk s |})
  /\ (readMeetingsFile_io fuel closed (line :: rest) arr peopleListSize s <> Fault ->
      has_id arr sickId = true /\ forallb (resolved arr) rest = true).
Proof.
  intros Hs Hfuel. cbv zeta. split.
  - intros [Hid Hall].
    destruct (readMeetingsFile_returns fuel line rest peopleList Hs Hfuel Hid Hall)
      as [final Hfinal].
    exists final. split; [exact Hfinal|].
    apply readMeetingsFile_io_app; [exact Hfinal|left; discriminate].
  - unfold readMeetingsFile_io.
    cbn [fmap option_fmap option_map Libc.strtol].
    rewrite (bind_defined_Some _ _ _ _ eq_refl).
    intros H. apply bind_defined_inv in H as H'. destruct H' as (i & Ei & E). rewrite E in H.
    clear E. apply bind_defined_inv in H as H'. destruct H' as (sick & Hi & E).
    rewrite E in H. clear E.
    apply bind_defined_inv in H as H'. destruct H' as (pl & Est & E). rewrite E in H. clear E.
    apply bind_defined_inv in H as H'. destruct H' as (final & El & _).
    split; [eapply binarySearchById_has_id; exact Ei|].
    apply store_inv in Est as [_ ->].
    rewrite <- (readMeetingsFile_array_loop_resolved _ _ _ _ _ El).
    apply forallb_pointwise. intros l. apply resolved_ids.
    symmetry. apply insert_set_probability_ids.
    apply load_at_Some in Hi as [_ Hi]. exact Hi.
Qed.

Lemma readMeetingsFile_io_resolved_witness :
  let peopleList := [Alice; Bob; Carol] in
  let rest := [text_line "1 2 1.0 30.0"] in
  let arr := peopleList ++ [zero_Person] in
  let peopleListSize := Z.of_nat (length peopleList) in
  let sickId := to_ulong (Libc.strtol_string (text_line "1")) in
  let s := {| on_stderr := EmptyString; on_disk := None |} in
  (has_id peopleList sickId = true /\ forallb (resolved peopleList) rest = true ->
   exists final,
     readMeetingsFile 3 (text_line "1" :: rest) peopleList = Some final
     /\ readMeetingsFile_io 3 false (text_line "1" :: rest) arr peopleListSize s
        = if false then Done (final ++ [zero_Person]) s
          else Exit EXIT_FAILURE
                 {| on_stderr := String.append (on_stderr s) STANDARD_LIB_ERR_MSG;
                    on_disk := on_disk s |})
  /\ (readMeetingsFile_io 3 false (text_line "1" :: rest) arr peopleListSize s <> Fault ->
      has_id arr sickId = true /\ forallb (resolved arr) rest = true).
Proof.
  apply (readMeetingsFile_io_resolved 3 false (text_line "1") [text_line "1 2 1.0 30.0"]
           [Alice; Bob; Carol] [zero_Person] {| on_stderr := EmptyString; on_disk := None |}).
  - repeat constructor; vm_compute; discriminate.
  - simpl. lia.
Defined.

(** With no record at all, the origin [0] is found in the first cell of
    the array, which [calloc] has zeroed: the function returns and the
    cell holds the probability [1.0]. *)
Example readMeetingsFile_io_spare_cell :
  readMeetingsFile_io 1 true [text_line "0"] (calloc_Person (Z.to_nat ALLOC_SIZE)) 0
    {| on_stderr := EmptyString; on_disk := None |}
  = Done [sample_person EmptyString 0 0 (F32.of_Z 1); zero_Person]
      {| on_stderr := EmptyString; on_disk := None |}.
Proof. vm_compute. reflexivity. Qed.

(** *** The endings of the program *)

(** [readPeopleFile] leaves the program with [STANDARD_LIB_ERR_MSG] only. *)
Lemma readPeopleFile_array_loop_Exits junk lines :
  forall h arr personsCounter capacity e,
    readPeopleFile_array_loop junk lines h arr personsCounter capacity = Exits e ->
    e = STANDARD_LIB_ERR_MSG.
Proof.
  induction lines as [|line lines IH]; intros h1 arr c cap e; [discriminate|].
  cbn [readPeopleFile_array_loop].
  destruct (fillPerson h1 line) as [[[|person] h2]|]; [congruence| |discriminate].
  destruct (store arr c person) as [arr'|]; [|discriminate].
  cbv zeta. destruct (_ =? _); [|apply IH].
  unfold allocateMore. destruct (allocate h2) as [[] h3]; [apply IH|congruence].
Qed.

Lemma readPeopleFile_array_Exits junk h peopleFile e :
  readPeopleFile_array junk h peopleFile = Exits e -> e = STANDARD_LIB_ERR_MSG.
Proof.
  unfold readPeopleFile_array. destruct (allocate h) as [[] h1]; cbn [negb]; [|congruence].
  apply readPeopleFile_array_loop_Exits.
Qed.

Lemma readPeopleFile_io_spec junk h closed peopleFile s :
  match readPeopleFile_io junk h closed peopleFile s with
  | Done _ s' => s' = s /\ closed = true
  | Exit status s' =>
      status = EXIT_FAILURE
      /\ (prints s s' STANDARD_LIB_ERR_MSG
          \/ closed = false
             /\ prints s s' (String.append STANDARD_LIB_ERR_MSG STANDARD_LIB_ERR_MSG))
  | Fault => True
  end.
Proof.
  unfold readPeopleFile_io.
  destruct (readPeopleFile_array junk h peopleFile) as [[arr n]|e|] eqn:E; [| |exact I].
  - destruct closed; run_prog; [auto|]. split; [reflexivity|]. left. apply prints_stderr.
  - apply readPeopleFile_array_Exits in E as ->.
    destruct closed; run_prog; (split; [reflexivity|]).
    + left. apply prints_stderr.
    + right. split; [reflexivity|]. split; [|reflexivity]. run_prog. apply append_assoc.
Qed.

Lemma sort_io_spec (sort_io : bool -> list Person -> nat -> prog (list Person)) :
  sort_io = sortById_io \/ sort_io = sortByProbability_io ->
  forall allocated arr peopleListSize s,
    match sort_io allocated arr peopleListSize s with
    | Done _ s' => s' = s
    | Exit status s' => status = EXIT_FAILURE /\ prints s s' STANDARD_LIB_ERR_MSG
    | Fault => True
    end.
Proof.
  intros [-> | ->] allocated arr n s.
  - unfold sortById_io. destruct allocated; run_prog.
    + unfold defined. destruct (fst <$> _); auto.
    + split; [reflexivity|]. apply prints_stderr.
  - unfold sortByProbability_io. destruct allocated; run_prog.
    + unfold defined. destruct (fst <$> _); auto.
    + split; [reflexivity|]. apply prints_stderr.
Qed.

Lemma readMeetingsFile_io_spec fuel closed meetingsFile arr peopleListSize s :
  match readMeetingsFile_io fuel closed meetingsFile arr peopleListSize s with
  | Done _ s' =>
      s' = s \/ closed = false /\ meetingsFile = [] /\ prints s s' STANDARD_LIB_ERR_MSG
  | Exit status s' =>
      status = EXIT_FAILURE /\ closed = false /\ prints s s' STANDARD_LIB_ERR_MSG
  | Fault => True
  end.
Proof.
  destruct meetingsFile as [|line rest].
  - unfold readMeetingsFile_io. destruct closed; run_prog; [auto|].
    right. split; [reflexivity|]. split; [reflexivity|]. apply prints_stderr.
  - unfold readMeetingsFile_io.
    rewrite bind_defined. destruct (to_ulong <$> _) as [sickId|]; [|exact I].
    rewrite bind_defined. destruct (binarySearchById _ _ _ _ _) as [i|]; [|exact I].
    rewrite bind_defined. destruct (load_at _ _) as [sick|]; [|exact I].
    rewrite bind_defined. destruct (store _ _ _) as [arr1|]; [|exact I].
    rewrite bind_defined.
    destruct (readMeetingsFile_array_loop _ _ _ _) as [arr2|]; [|exact I].
    destruct closed; run_prog; [auto|].
    split; [reflexivity|]. split; [reflexivity|]. apply prints_stderr.
Qed.

Lemma writeOutput_io_loop_spec arr k :
  forall s path texts,
    on_disk s = Some (path, texts) ->
    match writeOutput_io_loop arr k s with
    | Done _ s' =>
        on_stderr s' = on_stderr s /\ exists texts', on_disk s' = Some (path, texts')
    | Exit _ _ => False
    | Fault => True
    end.
Proof.
  induction k as [|i IH]; intros s path texts Hs.
  - cbn [writeOutput_io_loop]. run_prog. split; [reflexivity|]. exists texts. exact Hs.
  - cbn [writeOutput_io_loop]. rewrite bind_defined.
    destruct (load arr i) as [p|]; [|exact I].
    rewrite bind_result. unfold fprintf_file at 1. rewrite Hs.
    specialize (IH {| on_stderr := on_stderr s;
                      on_disk := Some (path, texts ++ [writeOutput_body p]) |}
                  path (texts ++ [writeOutput_body p]) eq_refl).
    destruct (writeOutput_io_loop arr i _) as [[] s'|?|]; [|exact IH|exact I].
    exact IH.
Qed.

Lemma writeOutput_io_spec closed arr peopleListSize s path texts :
  on_disk s = Some (path, texts) ->
  match writeOutput_io closed arr peopleListSize s with
  | Done _ s' =>
      closed = true /\ on_stderr s' = on_stderr s
      /\ exists texts', on_disk s' = Some (path, texts')
  | Exit status s' =>
      status = EXIT_FAILURE /\ closed = false
      /\ on_stderr s' = String.append (on_stderr s) STANDARD_LIB_ERR_MSG
      /\ exists texts', on_disk s' = Some (path, texts')
  | Fault => True
  end.
Proof.
  intros Hs. unfold writeOutput_io. rewrite bind_result.
  pose proof (writeOutput_io_loop_spec arr peopleListSize s path texts Hs) as H.
  destruct (writeOutput_io_loop arr peopleListSize s) as [[] s'|?|]; [|destruct H|exact I].
  destruct H as [He Hd]. destruct closed; run_prog.
  - auto.
  - rewrite He. auto.
Qed.
(** X24.  However the program ends, with whatever results of [fclose]:
    either the exit status is [EXIT_SUCCESS], the output file is written
    and closed, and [stderr] is empty, or holds [STANDARD_LIB_ERR_MSG]
    when the meetings file could not be closed; or the exit status is
    [EXIT_FAILURE] and [stderr] holds one of the four messages of the
    program, after [STANDARD_LIB_ERR_MSG] when the people file or the
    meetings file could not be closed; a file is written in this case only
    when the output file could not be closed. *)
Theorem main_array_endings (fuel : nat) (w : world) (junk : nat -> Person) (closed : closing)
    (argv : list string) (t : termination) :
  main_array fuel w junk closed argv = Some t ->
  (exit_status t = EXIT_SUCCESS
   /\ output_closed closed = true
   /\ (exists out, written t = Some (OUTPUT_FILE, out))
   /\ (stderr t = EmptyString
       \/ stderr t = STANDARD_LIB_ERR_MSG /\ meetings_closed closed = false))
  \/ (exit_status t = EXIT_FAILURE
      /\ (written t = None \/ output_closed closed = false)
      /\ exists e,
           e ∈ [USAGE_ERROR; IN_FILE_ERROR; OUT_FILE_ERROR; STANDARD_LIB_ERR_MSG]
           /\ (stderr t = e
               \/ stderr t = String.append STANDARD_LIB_ERR_MSG e
                  /\ (people_closed closed = false \/ meetings_closed closed = false))).
Proof.
  assert (USAGE_ERROR ∈ [USAGE_ERROR; IN_FILE_ERROR; OUT_FILE_ERROR; STANDARD_LIB_ERR_MSG])
    as Husage by (apply elem_of_cons; auto).
  assert (IN_FILE_ERROR ∈ [USAGE_ERROR; IN_FILE_ERROR; OUT_FILE_ERROR; STANDARD_LIB_ERR_MSG])
    as Hin by (apply elem_of_cons; right; apply elem_of_cons; auto).
  assert (OUT_FILE_ERROR ∈ [USAGE_ERROR; IN_FILE_ERROR; OUT_FILE_ERROR; STANDARD_LIB_ERR_MSG])
    as Hout by (do 2 (apply elem_of_cons; right); apply elem_of_cons; auto).
  assert (STANDARD_LIB_ERR_MSG
          ∈ [USAGE_ERROR; IN_FILE_ERROR; OUT_FILE_ERROR; STANDARD_LIB_ERR_MSG])
    as Hstd by (do 3 (apply elem_of_cons; right); apply elem_of_cons; auto).
  unfold main_array, main_io.
  set (s0 := {| on_stderr := EmptyString; on_disk := None |}).
  rewrite bind_result. unfold argcCheck_io.
  destruct (negb (_ =? ARGS_AMOUNT)).
  { run_prog. cbn [Z.eqb]. intros [= <-]. right. cbn [exit_status stderr written].
    split; [reflexivity|]. split; [left; reflexivity|]. exists USAGE_ERROR. auto. }
  run_prog. cbn [Z.eqb].
  unfold defined at 1. destruct (argv !! PEOPLE_FILE_INDEX) as [people|]; [|discriminate].
  destruct (fopen_read w people) as [peopleFile|].
  2:{ intros [= <-]. right. cbn [exit_status stderr written on_stderr on_disk s0].
      split; [reflexivity|]. split; [left; reflexivity|]. exists IN_FILE_ERROR. auto. }
  pose proof (readPeopleFile_io_spec junk (allocator w) (people_closed closed) peopleFile s0)
    as H1.
  destruct (readPeopleFile_io junk (allocator w) (people_closed closed) peopleFile s0)
    as [[arr n] s1|st s1|]; [| |discriminate].
  2:{ destruct H1 as [-> H1]. intros [= <-]. right. cbn [exit_status stderr written].
      split; [reflexivity|].
      destruct H1 as [[He Hd] | [Hc [He Hd]]]; rewrite He, Hd; cbn [on_stderr on_disk s0];
        (split; [left; reflexivity|]); exists STANDARD_LIB_ERR_MSG; auto. }
  destruct H1 as [-> Hc1].
  pose proof (sort_io_spec sortById_io (or_introl eq_refl) (fst (draft_allocated w)) arr n s0)
    as H2.
  destruct (sortById_io (fst (draft_allocated w)) arr n s0) as [arr1 s1|st s1|];
    [| |discriminate].
  2:{ destruct H2 as [-> [He Hd]]. intros [= <-]. right. cbn [exit_status stderr written].
      rewrite He, Hd. cbn [on_stderr on_disk s0].
      split; [reflexivity|]. split; [left; reflexivity|]. exists STANDARD_LIB_ERR_MSG. auto. }
  subst s1.
  unfold defined at 1. destruct (argv !! MEETINGS_FILE_INDEX) as [meetings|]; [|discriminate].
  destruct (fopen_read w meetings) as [meetingsFile|].
  2:{ intros [= <-]. right. cbn [exit_status stderr written on_stderr on_disk s0].
      split; [reflexivity|]. split; [left; reflexivity|]. exists IN_FILE_ERROR. auto. }
  pose proof (readMeetingsFile_io_spec fuel (meetings_closed closed) meetingsFile arr1
                (Z.of_nat n) s0) as H3.
  destruct (readMeetingsFile_io fuel (meetings_closed closed) meetingsFile arr1
              (Z.of_nat n) s0) as [arr2 s2|st s2|]; [| |discriminate].
  2:{ destruct H3 as (-> & Hc & He & Hd). intros [= <-]. right.
      cbn [exit_status stderr written]. rewrite He, Hd. cbn [on_stderr on_disk s0].
      split; [reflexivity|]. split; [left; reflexivity|]. exists STANDARD_LIB_ERR_MSG. auto. }
  assert (on_disk s2 = None
          /\ (on_stderr s2 = EmptyString
              \/ on_stderr s2 = STANDARD_LIB_ERR_MSG /\ meetings_closed closed = false))
    as [Hd2 He2].
  { destruct H3 as [-> | (Hc & _ & He & Hd)]; [split; [reflexivity|left; reflexivity]|].
    rewrite He, Hd. split; [reflexivity|]. right. split; [reflexivity|exact Hc]. }
  clear H3.
  pose proof (sort_io_spec sortByProbability_io (or_intror eq_refl)
                (snd (draft_allocated w)) arr2 n s2) as H4.
  destruct (sortByProbability_io (snd (draft_allocated w)) arr2 n s2) as [arr3 s3|st s3|];
    [| |discriminate].
  2:{ destruct H4 as [-> [He Hd]]. intros [= <-]. right. cbn [exit_status stderr written].
      rewrite He, Hd, Hd2. split; [reflexivity|]. split; [left; reflexivity|].
      exists STANDARD_LIB_ERR_MSG. split; [exact Hstd|].
      destruct He2 as [-> | [-> Hc]]; [left; reflexivity|right; auto]. }
  subst s3.
  unfold fopen_w. destruct (fopen_write w OUTPUT_FILE); cbn [negb].
  2:{ intros [= <-]. right. cbn [exit_status stderr written on_stderr on_disk].
      rewrite Hd2. split; [reflexivity|]. split; [left; reflexivity|].
      exists OUT_FILE_ERROR. split; [exact Hout|].
      destruct He2 as [-> | [-> Hc]]; [left; reflexivity|right; auto]. }
  pose proof (writeOutput_io_spec (output_closed closed) arr3 n
                {| on_stderr := on_stderr s2; on_disk := Some (OUTPUT_FILE, []) |}
                OUTPUT_FILE [] eq_refl) as H5.
  destruct (writeOutput_io (output_closed closed) arr3 n _) as [[] s5|st s5|];
    [| |discriminate].
  - destruct H5 as (Hc & He & out & Hd). intros [= <-]. left.
    cbn [exit_status stderr written on_stderr] in *. rewrite He, Hd.
    split; [reflexivity|]. split; [exact Hc|]. split; [exists out; reflexivity|].
    exact He2.
  - destruct H5 as (-> & Hc & He & out & Hd). intros [= <-]. right.
    cbn [exit_status stderr written on_stderr] in *. rewrite He, Hd.
    split; [reflexivity|]. split; [right; exact Hc|].
    exists STANDARD_LIB_ERR_MSG. split; [exact Hstd|].
    destruct He2 as [-> | [-> Hc']]; [left; reflexivity|right; auto].
Qed.

Lemma main_array_endings_witness :
  let closed := {| people_closed := true; meetings_closed := true; output_closed := false |} in
  let t := {| exit_status := EXIT_FAILURE; stderr := STANDARD_LIB_ERR_MSG;
              written := Some (OUTPUT_FILE,
                               writeOutput_body
                               <$> [sample_person "Alice" 1 30 (F32.of_Z 1);
                                    sample_person "Bob" 2 40 (F32.of_Z 1);
                                    sample_person "Carol" 3 70 (F32.of_ratio 1 4)]) |} in
  (exit_status t = EXIT_SUCCESS
   /\ output_closed closed = true
   /\ (exists out, written t = Some (OUTPUT_FILE, out))
   /\ (stderr t = EmptyString
       \/ stderr t = STANDARD_LIB_ERR_MSG /\ meetings_closed closed = false))
  \/ (exit_status t = EXIT_FAILURE
      /\ (written t = None \/ output_closed closed = false)
      /\ exists e,
           e ∈ [USAGE_ERROR; IN_FILE_ERROR; OUT_FILE_ERROR; STANDARD_LIB_ERR_MSG]
           /\ (stderr t = e
               \/ stderr t = String.append STANDARD_LIB_ERR_MSG e
                  /\ (people_closed closed = false \/ meetings_closed closed = false))).
Proof.
  apply (main_array_endings 3 sample_world (fun _ => zero_Person)
           {| people_closed := true; meetings_closed := true; output_closed := false |}
           ["./SpreaderDetectorBackend"; "People.in"; "Meetings.in"]%string).
  vm_compute. reflexivity.
Defined.

(** A people file without a line and the origin [0]: the program ends with
    [EXIT_SUCCESS] and an output file without a text. *)
Example main_array_empty_people_file :
  main_array 1
    {| fopen_read := fun path =>
         if String.eqb path "People.in" then Some []
         else if String.eqb path "Meetings.in" then Some [text_line "0"]
         else None;
       fopen_write := fun _ => true;
       allocator := [];
       draft_allocated := (true, true) |}
    (fun _ => zero_Person)
    {| people_closed := true; meetings_closed := true; output_closed := true |}
    ["./SpreaderDetectorBackend"; "People.in"; "Meetings.in"]%string
  = Some {| exit_status := EXIT_SUCCESS; stderr := EmptyString;
            written := Some (OUTPUT_FILE, []) |}.
Proof. vm_compute. reflexivity. Qed.

(** *** The program on the array and on the sequence of the records *)

Lemma readPeopleFile_array_cases junk h peopleFile :
  match readPeopleFile h peopleFile with
  | Returns peopleList =>
      exists spare,
        readPeopleFile_array junk h peopleFile
        = Returns (peopleList ++ spare, length peopleList)
  | Exits e => readPeopleFile_array junk h peopleFile = Exits e
  | Undefined => readPeopleFile_array junk h peopleFile = Undefined
  end.
Proof.
  assert (filled (readPeopleFile_array junk h peopleFile) = readPeopleFile h peopleFile
          /\ forall arr n,
               readPeopleFile_array junk h peopleFile = Returns (arr, n) ->
               (n < length arr)%nat) as [Hf Hb].
  { unfold readPeopleFile_array, readPeopleFile.
    destruct (allocate h) as [[] h1]; cbn [negb]; [|split; [reflexivity|discriminate]].
    apply (readPeopleFile_array_loop_filled junk peopleFile h1
             (calloc_Person (Z.to_nat ALLOC_SIZE)) 0 ALLOC_SIZE); [simpl; lia|reflexivity]. }
  rewrite <- Hf.
  destruct (readPeopleFile_array junk h peopleFile) as [[arr n]|e|]; cbn [filled];
    [|reflexivity|reflexivity].
  specialize (Hb arr n eq_refl). exists (drop n arr).
  rewrite take_drop, length_take. do 2 f_equal. lia.
Qed.

Lemma sort_io_msort (comp : compFunc) (peopleList spare : list Person) :
  fst <$> mergeSort (peopleList ++ spare) (calloc_Person (length peopleList)) 0
            (length peopleList) 0 comp
  = Some (msort comp peopleList ++ spare).
Proof.
  destruct (mergeSort_spec comp (length peopleList) [] peopleList spare
              (calloc_Person (length peopleList)) 0%nat eq_refl
              ltac:(rewrite length_calloc_Person; lia)) as (draft' & E & _).
  cbn [app length] in E. rewrite E. reflexivity.
Qed.

Lemma writeOutput_io_loop_texts arr k :
  (k <= length arr)%nat ->
  forall s path texts,
    on_disk s = Some (path, texts) ->
    writeOutput_io_loop arr k s
    = Done tt {| on_stderr := on_stderr s;
                 on_disk := Some (path, texts ++ (writeOutput_body <$> reverse (take k arr))) |}.
Proof.
  induction k as [|i IH]; intros Hk s path texts Hs.
  - cbn [writeOutput_io_loop]. rewrite take_0, reverse_nil, fmap_nil, app_nil_r.
    destruct s as [e d]. cbn in Hs. subst d. reflexivity.
  - cbn [writeOutput_io_loop]. rewrite bind_defined. unfold load.
    destruct (lookup_lt_is_Some_2 arr i) as [p Hp]; [lia|]. rewrite Hp.
    rewrite bind_result. unfold fprintf_file at 1. rewrite Hs.
    rewrite (IH ltac:(lia)
               {| on_stderr := on_stderr s;
                  on_disk := Some (path, texts ++ [writeOutput_body p]) |}
               path (texts ++ [writeOutput_body p]) eq_refl).
    cbn [on_stderr]. rewrite (take_S_r _ _ _ Hp), reverse_snoc, fmap_cons, <- app_assoc.
    reflexivity.
Qed.

(** X27.  Where [main] on the sequence of the records ends, the program
    on the array, with the cells [realloc] adds holding anything, ends in
    the same way when its three files are closed without error: with the
    same exit status, the same text on [stderr] and the same output
    file. *)
Theorem main_array_refines (fuel : nat) (w : world) (junk : nat -> Person)
    (argv : list string) (t : termination) :
  main fuel w argv = Some t ->
  main_array fuel w junk
    {| people_closed := true; meetings_closed := true; output_closed := true |} argv
  = Some t.
Proof.
  unfold main, main_array, main_io, argcCheck, argcCheck_io.
  set (s0 := {| on_stderr := EmptyString; on_disk := None |}).
  rewrite bind_result.
  destruct (negb (_ =? ARGS_AMOUNT)).
  { run_prog. cbn [Z.eqb]. intros <-. reflexivity. }
  run_prog. cbn [Z.eqb].
  unfold defined at 1. destruct (argv !! PEOPLE_FILE_INDEX) as [people|]; [|discriminate].
  cbn [option_bind].
  destruct (fopen_read w people) as [peopleFile|]; [|intros <-; reflexivity].
  pose proof (readPeopleFile_array_cases junk (allocator w) peopleFile) as Hr.
  unfold readPeopleFile_io.
  destruct (readPeopleFile (allocator w) peopleFile) as [pl|e|]; [| |discriminate].
  2:{ rewrite Hr. run_prog. intros <-. reflexivity. }
  destruct Hr as [spare ->]. run_prog.
  unfold sortById_io.
  destruct (negb (fst (draft_allocated w))); run_prog; [intros <-; reflexivity|].
  rewrite sortById_msort, sort_io_msort. cbn [option_bind]. unfold defined at 1.
  unfold defined at 1. destruct (argv !! MEETINGS_FILE_INDEX) as [meetings|]; [|discriminate].
  cbn [option_bind].
  destruct (fopen_read w meetings) as [meetingsFile|]; [|intros <-; reflexivity].
  destruct (readMeetingsFile fuel meetingsFile (msort idCompare pl)) as [pl2|] eqn:E2;
    [|discriminate].
  cbn [option_bind].
  rewrite <- (msort_length idCompare pl) at 1.
  rewrite (readMeetingsFile_io_app _ true _ _ spare _ s0 E2 (or_intror eq_refl)).
  assert (length pl = length pl2) as Hlen.
  { pose proof (readMeetingsFile_data _ _ _ _ E2) as Hd.
    apply (f_equal length) in Hd. rewrite !length_fmap, msort_length in Hd. auto. }
  unfold sortByProbability_io.
  destruct (negb (snd (draft_allocated w))); run_prog; [intros <-; reflexivity|].
  rewrite sortByProbability_msort, Hlen, sort_io_msort. cbn [option_bind]. unfold defined at 1.
  unfold fopen_w. destruct (fopen_write w OUTPUT_FILE); cbn [negb];
    [|intros <-; reflexivity].
  rewrite writeOutput_total. cbn [option_bind].
  unfold writeOutput_io. rewrite bind_result.
  rewrite (writeOutput_io_loop_texts (msort probCompare pl2 ++ spare) (length pl2))
    with (path := OUTPUT_FILE) (texts := [])
    by (try reflexivity; rewrite length_app, msort_length; lia).
  run_prog. rewrite take_app_length' by (rewrite msort_length; reflexivity).
  intros [= <-]. reflexivity.
Qed.

Lemma main_array_refines_witness :
  main_array 3 sample_world (fun _ => Carol)
    {| people_closed := true; meetings_closed := true; output_closed := true |}
    ["./SpreaderDetectorBackend"; "People.in"; "Meetings.in"]%string
  = Some {| exit_status := EXIT_SUCCESS; stderr := EmptyString;
            written := Some (OUTPUT_FILE,
                             writeOutput_body
                             <$> [sample_person "Alice" 1 30 (F32.of_Z 1);
                                  sample_person "Bob" 2 40 (F32.of_Z 1);
                                  sample_person "Carol" 3 70 (F32.of_ratio 1 4)]) |}.
Proof.
  apply (main_array_refines 3 sample_world (fun _ => Carol)
           ["./SpreaderDetectorBackend"; "People.in"; "Meetings.in"]%string).
  vm_compute. reflexivity.
Defined.
